(** * RedQueen helper functions ([utils.py]): rank tracking, utility
    integral, the oracle dynamic program and the event-count calibration;
    the other metrics and losses, the figure parameters and the sweep of [s].

    Conventions of the embedding.

    - A pandas data frame of events is a list of rows, in row order.
    - A Python [float] is an exact rational ([Q]); rounding of binary64
      arithmetic is not modelled.  A cell that holds [NaN] (or any other
      non-finite value) is [None] in the type [float := option Q];
      non-finite values are absorbing for [+] and [*], as in IEEE-754.
    - An array of integers is a list of [Z] together with the integer type
      that holds it; arithmetic in a fixed-width type wraps around.  A Python
      list of ids is held as numpy holds it: as 64-bit integers when they
      fit.
    - A raised exception is [Raise e] in the [result] monad.
    - A [while True] loop is a function of the number of iterations it may
      run; [OutOfFuel] for every such number means that the loop does not
      end.
    - What the file calls but does not define (the simulator, [matplotlib])
      is a variable of the section that uses it, and so is the capacity that
      [sweep_s] measures. *)

From Stdlib Require Import QArith Qabs Qround Qminmax ZArith Lia Lqa.
From stdpp Require Import base option list sorting strings relations.

(** ** Exceptions and the [result] monad *)

Inductive error : Type :=
  | AssertionError (msg : string)   (* a failed [assert] and its message *)
  | KeyError                        (* a column label that is not there *)
  | ValueError                      (* shape mismatch, bad unpacking *)
  | TypeError                       (* arithmetic on [None] *)
  | AttributeError                  (* attribute of a value that lacks it *)
  | IndexError.                     (* array index out of bounds *)

Inductive result (A : Type) : Type :=
  | Ok (a : A)
  | Raise (e : error).
Arguments Ok {A} a.
Arguments Raise {A} e.

#[global] Instance result_ret : MRet result := fun A a => Ok a.
#[global] Instance result_bind : MBind result := fun A B f m =>
  match m with
  | Ok a => f a
  | Raise e => Raise e
  end.

Definition assert (b : bool) (msg : string) : result unit :=
  if b then Ok tt else Raise (AssertionError msg).

Definition of_option {A} (o : option A) (e : error) : result A :=
  match o with
  | Some a => Ok a
  | None => Raise e
  end.

(** ** Floats *)

Definition float : Type := option Q.

Definition fmul (a b : float) : float :=
  match a, b with
  | Some x, Some y => Some (x * y)%Q
  | _, _ => None
  end.

Definition fadd (a b : float) : float :=
  match a, b with
  | Some x, Some y => Some (x + y)%Q
  | _, _ => None
  end.

(** [np.sum] of a float array. *)
Definition np_sum (l : list float) : float := foldl fadd (Some 0%Q) l.

(** Equality of floats up to the value of the rational. *)
Definition feq (a b : float) : Prop :=
  match a, b with
  | Some x, Some y => (x == y)%Q
  | None, None => True
  | _, _ => False
  end.

(** [np.diff(x)] on finite floats: [x[i+1] - x[i]], each difference exact
    where binary64 rounds it. *)
Definition np_diff (x : list Q) : list Q := zip_with Qminus (tail x) x.

Definition Zs_to_Q (l : list Z) : list Q := inject_Z <$> l.

(** ** Utilities *)

Definition mb {A} (val : option A) (default : A) : A :=
  match val with
  | Some v => v
  | None => default
  end.

(** [np.all((np.diff(x) * (1.0 if ascending else -1.0) >= 0))] on an array of
    finite floats, such as the times of a log.  [np.diff] subtracts in the
    type of its array: for an array of integers see [is_sorted_int]. *)
Definition is_sorted (x : list Q) (ascending : bool) : bool :=
  forallb (fun d => Qle_bool 0 (d * (if ascending then 1 else -1)))
          (np_diff x).

(** The integer types of numpy arrays: signed and unsigned integers of a given
    number of bits, and Python's own integers, which an array of objects
    holds. *)
Inductive int_dtype : Type :=
  | Signed (bits : Z)
  | Unsigned (bits : Z)
  | PyObject.

Definition int64 : int_dtype := Signed 64.
Definition uint64 : int_dtype := Unsigned 64.
Definition uint8 : int_dtype := Unsigned 8.

(** What an integer type keeps of the exact result [z] of an operation:
    arithmetic on fixed-width integers wraps around, silently. *)
Definition wrap (dt : int_dtype) (z : Z) : Z :=
  match dt with
  | Signed bits => ((z + 2 ^ (bits - 1)) mod 2 ^ bits - 2 ^ (bits - 1))%Z
  | Unsigned bits => (z mod 2 ^ bits)%Z
  | PyObject => z
  end.

(** [np.diff(x)] for an array of integers of type [dt]. *)
Definition np_diff_int (dt : int_dtype) (x : list Z) : list Z :=
  wrap dt <$> zip_with Z.sub (tail x) x.

(** [is_sorted] on an array of integers of type [dt].  The product with [1.0]
    or [-1.0] turns each difference into a float of the same sign (for Python
    integers of 2^1024 and more it raises an [OverflowError], which is left
    out). *)
Definition is_sorted_int (dt : int_dtype) (x : list Z) (ascending : bool) : bool :=
  forallb (fun d => Qle_bool 0 (inject_Z d * (if ascending then 1 else -1)))
          (np_diff_int dt x).

(** The type of the array that numpy makes of a Python list of non-negative
    integers: [int64] when they all fit, [uint64] when they are all below
    2^64, objects otherwise. *)
Definition list_dtype (x : list nat) : int_dtype :=
  if forallb (fun i => Z.of_nat i <? 2 ^ 63)%Z x then int64
  else if forallb (fun i => Z.of_nat i <? 2 ^ 64)%Z x then uint64
  else PyObject.

#[global] Instance Qeq_rel_dec : RelDecision Qeq := Qeq_dec.

#[global] Instance Qle_rel_dec : RelDecision Qle := fun x y =>
  match Qlt_le_dec y x with
  | left H => right (Qlt_not_le _ _ H)
  | right H => left H
  end.

#[global] Instance Qlt_rel_dec : RelDecision Qlt := fun x y =>
  match Qlt_le_dec x y with
  | left H => left H
  | right H => right (Qle_not_lt _ _ H)
  end.

(** [unique()]: the distinct values, in order of first appearance. *)
Fixpoint unique_by {A} (R : relation A) `{!RelDecision R} (l : list A) : list A :=
  match l with
  | [] => []
  | a :: l' => a :: filter (fun b => ¬ R a b) (unique_by R l')
  end.

(** ** Event logs *)

Section Metrics.
Context {Src : Type} `{EqDecision Src}.

(** One row of the event data frame. *)
Record event : Type := Event {
  ev_event_id : nat;
  ev_t : Q;
  ev_src_id : Src;
  ev_sink_id : nat;
}.

(** [x == src_id], elementwise; a [src_id] left at [None] equals no row. *)
Definition eq_src (src_id : option Src) (x : list Src) : list bool :=
  (fun a => bool_decide (Some a = src_id)) <$> x.

(** [np.arange(1, n + 1)] *)
Definition arange1 (n : nat) : list Z := Z.of_nat <$> seq 1 n.

(** [np.where(c, a, 0)] *)
Definition np_where0 (c : list bool) (a : list Z) : list Z :=
  zip_with (fun (b : bool) i => if b then i else 0%Z) c a.

Fixpoint accumulate_from (acc : Z) (l : list Z) : list Z :=
  match l with
  | [] => []
  | a :: l' => let acc' := Z.max acc a in acc' :: accumulate_from acc' l'
  end.

(** [np.maximum.accumulate] *)
Definition maximum_accumulate (l : list Z) : list Z :=
  match l with
  | [] => []
  | a :: l' => a :: accumulate_from a l'
  end.

(** The local function [steps_to] of [rank_of_src_in_df]. *)
Definition steps_to (src_id : option Src) (x : list Src) : list Z :=
  zip_with Z.sub (arange1 (length x))
    (maximum_accumulate (np_where0 (eq_src src_id x) (arange1 (length x)))).

(** The [src_id] column of the group of one [sink_id]. *)
Definition group_src (df : list event) (sink : nat) : list Src :=
  ev_src_id <$> filter (fun e => ev_sink_id e = sink) df.

(** [groupby('sink_id').src_id.transform(f)]: [f] is applied to the column of
    each group and the results are put back in row order.  [seen sink] is the
    number of rows of [sink] already placed. *)
Fixpoint scatter (res : nat -> list Z) (seen : nat -> nat) (df : list event)
  : list Z :=
  match df with
  | [] => []
  | e :: df' =>
      let g := ev_sink_id e in
      default 0%Z (res g !! seen g)
        :: scatter res (fun g' => if decide (g' = g) then S (seen g') else seen g') df'
  end.

Definition transform (f : list Src -> list Z) (df : list event) : list Z :=
  scatter (fun g => f (group_src df g)) (fun _ => 0) df.

(** [df2]: the rows of [df] with their ['rank'] column (as floats). *)
Definition with_rank (df : list event) (src_id : option Src)
  : result (list (event * Q)) :=
  _ ← assert (is_sorted (ev_t <$> df) true) "Array not sorted by time.";
  Ok (zip df (Zs_to_Q (transform (steps_to src_id) df))).

(** A table indexed by time (or event id) with one column per follower. *)
Record pivot : Type := Pivot {
  index : list Q;
  columns : list nat;
  values : list (list float);      (* row-major; [None] is NaN *)
}.

(** The mean of a non-empty group. *)
Definition mean_Q (l : list Q) : Q :=
  (foldl Qplus 0 l / inject_Z (Z.of_nat (length l)))%Q.

(** The default aggregation of [pivot_table]. *)
Definition mean (l : list Q) : float :=
  match l with
  | [] => None
  | _ => Some (mean_Q l)
  end.

Definition key_of (with_time : bool) (e : event) : Q :=
  if with_time then ev_t e else inject_Z (Z.of_nat (ev_event_id e)).

(** [df2.pivot_table(index=..., columns='sink_id', values='rank')]: sorted
    distinct keys, sorted distinct sinks, the mean rank of the rows of a cell,
    NaN for a cell without rows. *)
Definition pivot_table (key : event -> Q) (df2 : list (event * Q)) : pivot :=
  let idx := merge_sort Qle (unique_by Qeq ((key ∘ fst) <$> df2)) in
  let cols := merge_sort le (unique_by eq ((ev_sink_id ∘ fst) <$> df2)) in
  Pivot idx cols
    ((fun i =>
        (fun c =>
           mean (snd <$> filter (fun p => (key p.1 == i)%Q ∧ ev_sink_id p.1 = c) df2))
          <$> cols)
       <$> idx).

Definition fill_cell (prev cur : float) : float :=
  match cur with
  | None => prev
  | Some _ => cur
  end.

Fixpoint ffill_from (prev : list float) (rows : list (list float))
  : list (list float) :=
  match rows with
  | [] => []
  | r :: rows' =>
      let r' := zip_with fill_cell prev r in r' :: ffill_from r' rows'
  end.

(** [fillna(method='ffill')] *)
Definition ffill (p : pivot) : pivot :=
  Pivot (index p) (columns p)
    match values p with
    | [] => []
    | r :: rows' => r :: ffill_from r rows'
    end.

Definition rank_of_src_in_df (df : list event) (src_id : option Src)
    (fill with_time : bool) : result pivot :=
  df2 ← with_rank df src_id;
  let pivot_ranks := pivot_table (key_of with_time) df2 in
  Ok (if fill then ffill pivot_ranks else pivot_ranks).

(** Position of the column labelled [c]; a missing label is a [KeyError]. *)
Definition column_pos (cols : list nat) (c : nat) : result nat :=
  of_option (fst <$> list_find (fun c' => c' = c) cols) KeyError.

(** [r_t[follower_ids].values] *)
Definition select_columns (r_t : pivot) (follower_ids : list nat)
  : result (list (list float)) :=
  js ← mapM (column_pos (columns r_t)) follower_ids;
  Ok ((fun row => (fun j => default None (row !! j)) <$> js) <$> values r_t).

(** ** Metrics *)

(** The run configuration, read only: [src_id], [end_time], [q_vec], [s],
    [sink_ids]. *)
Record SimOpts : Type := {
  so_src_id : Src;
  so_end_time : Q;
  so_q_vec : list Q;
  so_s : Q;
  so_sink_ids : list nat;
}.

(** [sim_opts.update({ 's': s })]: a copy with [s] replaced. *)
Definition update_s (sim_opts : SimOpts) (s : Q) : SimOpts :=
  {| so_src_id := so_src_id sim_opts;
     so_end_time := so_end_time sim_opts;
     so_q_vec := so_q_vec sim_opts;
     so_s := s;
     so_sink_ids := so_sink_ids sim_opts |}.

(** [sorted(df.sink_id[df.src_id == src_id].unique())] *)
Definition own_sink_ids (df : list event) (src_id : option Src) : list nat :=
  merge_sort le
    (unique_by eq (ev_sink_id <$> filter (fun e => Some (ev_src_id e) = src_id) df)).

(** The follower ids [u_int_opt] works with, after its defaults.  A list of
    follower ids is a Python list, which [is_sorted] checks as the array
    numpy makes of it. *)
Definition u_int_follower_ids (df : list event) (src_id : option Src)
    (follower_ids : option (list nat)) : result (list nat) :=
  match follower_ids with
  | None => Ok (own_sink_ids df src_id)
  | Some f =>
      _ ← assert (is_sorted_int (list_dtype f) (Z.of_nat <$> f) true) EmptyString;
      Ok f
  end.

(** [q / s] on floats: a division by zero gives a non-finite value. *)
Definition fdiv (q s : Q) : float :=
  if Qeq_bool s 0 then None else Some (q / s)%Q.

(** [a.dot(v)] for a matrix with [ncols] columns. *)
Definition dot (ncols : nat) (a : list (list float)) (v : list float)
  : result (list float) :=
  if decide (ncols = length v)
  then Ok ((fun row => np_sum (zip_with fmul row v)) <$> a)
  else Raise ValueError.

Section Utility.
(** [np.sqrt] on a finite argument; NaN for a negative one. *)
Variable np_sqrt : Q -> float.

Definition u_int_opt (df : list event) (src_id : option Src)
    (end_time : option Q) (q_vec : option (list Q)) (s : option Q)
    (follower_ids : option (list nat)) (sim_opts : option SimOpts)
  : result float :=
  let src_id :=
    match sim_opts with
    | Some o => Some (mb src_id (so_src_id o))
    | None => src_id
    end in
  let end_time :=
    match sim_opts with
    | Some o => Some (mb end_time (so_end_time o))
    | None => end_time
    end in
  let q_vec :=
    match sim_opts with
    | Some o => Some (mb q_vec (so_q_vec o))
    | None => q_vec
    end in
  let s :=
    match sim_opts with
    | Some o => Some (mb s (so_s o))
    | None => s
    end in
  let follower_ids :=
    match sim_opts with
    | Some o => Some (mb follower_ids (so_sink_ids o))
    | None => follower_ids
    end in
  follower_ids ← u_int_follower_ids df src_id follower_ids;
  r_t ← rank_of_src_in_df df src_id true true;
  sel ← select_columns r_t follower_ids;
  q_vec ← of_option q_vec TypeError;
  s ← of_option s TypeError;
  u_values ← dot (length follower_ids) sel
                 ((fun q => fdiv q s ≫= np_sqrt) <$> q_vec);
  end_time ← of_option end_time TypeError;
  let u_dt := np_diff (index r_t ++ [end_time]) in
  Ok (np_sum (zip_with fmul u_values (Some <$> u_dt))).

End Utility.

(** ** Oracle *)

(** A float matrix ([np.zeros((rows, cols))]), indexed [J[r, k]]. *)
Definition get2 (J : list (list Q)) (r k : nat) : result Q :=
  row ← of_option (J !! r) IndexError;
  of_option (row !! k) IndexError.

Definition set2 (J : list (list Q)) (r k : nat) (v : Q) : result (list (list Q)) :=
  row ← of_option (J !! r) IndexError;
  if decide (k < length row) then Ok (<[r := <[k := v]> row]> J)
  else Raise IndexError.

Definition get1 {A} (a : list A) (i : nat) : result A :=
  of_option (a !! i) IndexError.

Definition set1 {A} (a : list A) (i : nat) (v : A) : result (list A) :=
  if decide (i < length a) then Ok (<[i := v]> a) else Raise IndexError.

(** A [for] loop over the values of [l], threading the state [st]. *)
Fixpoint for_each {A St} (body : A -> St -> result St) (l : list A) (st : St)
  : result St :=
  match l with
  | [] => Ok st
  | a :: l' => st' ← body a st; for_each body l' st'
  end.

(** [range(m - 1, -1, -1)] *)
Fixpoint range_down (m : nat) : list nat :=
  match m with
  | 0 => []
  | S m' => m' :: range_down m'
  end.

(** Python's [min(a, b)]: the first argument unless the second is smaller. *)
Definition py_min (a b : Q) : Q := if Qlt_le_dec b a then b else a.

Definition sq (r : nat) : Q := inject_Z (Z.of_nat r ^ 2).

(** [df.groupby('event_id').t.mean()]: one time per event id, by ascending
    event id. *)
Definition group_event_times (df : list event) : list Q :=
  (fun i => mean_Q (ev_t <$> filter (fun e => ev_event_id e = i) df))
    <$> merge_sort le (unique_by eq (ev_event_id <$> df)).

(** [np.diff(np.concatenate([[0.0], [0.0], event_times.values, [end_time]]))] *)
Definition durations (event_times : list Q) (end_time : Q) : list Q :=
  np_diff ([0; 0] ++ event_times ++ [end_time])%Q.

(** [J = np.zeros((n + 1, n + 2)); J[:, n + 1] = (np.arange(n + 1) ** 2) / 2] *)
Definition J_init (n : nat) : list (list Q) :=
  (fun r => <[n + 1 := (sq r / 2)%Q]> (replicate (n + 2) 0%Q)) <$> seq 0 (n + 1).

Section Dp.
Variables (n : nat) (w : list Q) (q s : Q).

(** [0.5 * s + J[0, k + 1]] *)
Definition post_branch (J : list (list Q)) (k : nat) : result Q :=
  a ← get2 J 0 (k + 1);
  Ok (0.5 * s + a)%Q.

(** [0.5 * q_vec * w[k + 1] * ((r + 1) ** 2) + J[r + 1, k + 1]] *)
Definition wait_branch (J : list (list Q)) (k r : nat) : result Q :=
  wk ← get1 w (k + 1);
  b ← get2 J (r + 1) (k + 1);
  Ok (0.5 * q * wk * sq (r + 1) + b)%Q.

Definition fill_entry (k r : nat) (J : list (list Q)) : result (list (list Q)) :=
  lhs ← post_branch J k;
  rhs ← wait_branch J k r;
  set2 J r k (py_min lhs rhs).

(** The backward pass: [for k in range(n, -1, -1): for r in range(min(k + 1, n))]. *)
Definition backward_pass (J : list (list Q)) : result (list (list Q)) :=
  for_each (fun k => for_each (fill_entry k) (seq 0 (min (k + 1) n)))
           (range_down (n + 1)) J.

(** One step of the forward pass, on [(oracle_ranks, u_star)]. *)
Definition forward_step (J : list (list Q)) (k : nat) (st : list nat * list nat)
  : result (list nat * list nat) :=
  let '(oracle_ranks, u_star) := st in
  lhs ← post_branch J k;
  rk ← get1 oracle_ranks k;
  rhs ← wait_branch J k rk;
  if Qlt_le_dec lhs rhs then
    u_star ← set1 u_star k 1;
    oracle_ranks ← set1 oracle_ranks (k + 1) 0;
    Ok (oracle_ranks, u_star)
  else
    u_star ← set1 u_star k 0;
    rk ← get1 oracle_ranks k;
    oracle_ranks ← set1 oracle_ranks (k + 1) (rk + 1);
    Ok (oracle_ranks, u_star).

Definition forward_pass (J : list (list Q)) : result (list nat * list nat) :=
  for_each (forward_step J) (seq 0 n) (replicate (n + 1) 0, replicate (n + 1) 0).

End Dp.

(** The table and the schedule computed for [n] event times. *)
Record dp_run : Type := DpRun {
  dp_J : list (list Q);
  dp_ranks : list nat;
  dp_events : list nat;
}.

Definition oracle_dp (event_times : list Q) (end_time q s : Q) : result dp_run :=
  let n := length event_times in
  let w := durations event_times end_time in
  J ← backward_pass n w q s (J_init n);
  '(oracle_ranks, u_star) ← forward_pass n w q s J;
  Ok (DpRun J oracle_ranks u_star).

(** The data frame returned by the oracle. *)
Record oracle_df : Type := OracleDf {
  od_ranks : list nat;
  od_events : list nat;
  od_at : list Q;
  od_t : list Q;
  od_t_delta : list Q;
}.

(** What [oracle_ranking] returns: [[]] past the size limit, else the pair
    [oracle_df, J[0, 0]]. *)
Inductive oracle_out : Type :=
  | OracleEmpty
  | OracleRun (df : oracle_df) (cost : Q).

(** [df[~df.src_id.isin(omit_src_ids)]] *)
Definition omit_sources (df : list event) (omit_src_ids : option (list Src))
  : list event :=
  match omit_src_ids with
  | Some omit => filter (fun e => ev_src_id e ∉ omit) df
  | None => df
  end.

(** The follower list whose length [oracle_ranking] asserts to be 1. *)
Definition oracle_follower_ids (df : list event) (follower_ids : option (list nat))
  : list nat :=
  match follower_ids with
  | Some f => f
  | None => merge_sort le (unique_by eq (ev_sink_id <$> df))
  end.

(** The weight used by the dynamic program.  [q_vec] is an array with one
    entry per follower; the comparisons inside [min] and [if] take its truth
    value, which needs exactly one element, once a table entry is computed
    (with no event there is none, and [q_vec] is not looked at).  The truth
    value of an empty array is an error from NumPy 2.2 on, as here; before,
    it was [False] with a deprecation warning. *)
Definition scalar_weight (n : nat) (q_vec : list Q) : result Q :=
  match q_vec with
  | [q] => Ok q
  | _ => if decide (n = 0) then Ok 0%Q else Raise ValueError
  end.

Definition oracle_ranking (df : list event) (sim_opts : SimOpts)
    (omit_src_ids : option (list Src)) (follower_ids : option (list nat))
  : result oracle_out :=
  let df := omit_sources df omit_src_ids in
  (* with [follower_ids] given, [df] becomes [sorted(...)] of a data frame:
     the list of its column names *)
  let df' := match follower_ids with Some _ => None | None => Some df end in
  let follower_ids := oracle_follower_ids df follower_ids in
  _ ← assert (bool_decide (length follower_ids = 1))
        "Oracle has been implemented only for 1 follower.";
  let q_vec := so_q_vec sim_opts in
  let s := so_s sim_opts in
  df ← of_option df' AttributeError;
  _ ← assert (is_sorted (ev_t <$> df) true) "Dataframe is not sorted by time.";
  let event_times := group_event_times df in
  let n := length event_times in
  if decide (1000000 < Z.of_nat n)%Z then Ok OracleEmpty
  else
    q ← scalar_weight n q_vec;
    run ← oracle_dp event_times (so_end_time sim_opts) q s;
    cost ← get2 (dp_J run) 0 0;
    Ok (OracleRun
          {| od_ranks := dp_ranks run;
             od_events := dp_events run;
             od_at := (0 :: event_times)%Q;
             od_t := (0 :: event_times)%Q;
             od_t_delta := tail (durations event_times (so_end_time sim_opts)) |}
          cost).

(** ** Calibration of the number of oracle events *)

Section Calibration.
(** The simulator is external.  [wall_dataframe sim_opts world] stands for
    [m = sim_opts.create_manager_for_wall(); m.run(); m.state.get_dataframe()],
    where [World] is whatever state the simulator draws from. *)
Variable World : Type.
Variable wall_dataframe : SimOpts -> World -> list event * World.

Definition get_oracle_df (sim_opts : SimOpts) (with_cost : bool) (world : World)
  : result (oracle_df * option Q * World) :=
  let '(df, world) := wall_dataframe sim_opts world in
  out ← oracle_ranking df sim_opts None None;
  match out with
  | OracleRun oracle_df cost =>
      Ok (oracle_df, if with_cost then Some cost else None, world)
  | OracleEmpty => Raise ValueError       (* [oracle_df, cost = []] *)
  end.

(** [oracle_df.events.sum()] *)
Definition events_sum (oracle_df : oracle_df) : Z :=
  foldl Z.add 0%Z (Z.of_nat <$> od_events oracle_df).

(** The result of a loop that need not end: a value and the simulator state,
    an exception, or no answer within the given number of iterations. *)
Inductive outcome (A : Type) : Type :=
  | Returns (a : A) (world : World)
  | Raises (e : error)
  | OutOfFuel.
Arguments Returns {A} a world.
Arguments Raises {A} e.
Arguments OutOfFuel {A}.

(** The dictionary returned by [find_opt_oracle]. *)
Record found : Type := Found {
  found_s : Q;
  found_cost : option Q;
  found_df : oracle_df;
}.

Section FindOptOracle.
Variables (target_events : Q) (sim_opts : SimOpts) (tol : Q).

Definition oracle_num_events (s : Q) (world : World) : result (Z * World) :=
  '(oracle_df, _, world) ← get_oracle_df (update_s sim_opts s) false world;
  Ok (events_sum oracle_df, world).

(** First [while True]: double [s] until the count drops below the target. *)
Fixpoint bracket_up (fuel : nat) (s_init : Q) (world : World) : outcome (Q * Q) :=
  match fuel with
  | 0 => OutOfFuel
  | S fuel =>
      let s_lo := s_init in
      let s_init := (s_init * 2)%Q in
      let s_hi := s_init in
      match oracle_num_events s_init world with
      | Raise e => Raises e
      | Ok (num_events, world) =>
          if Qlt_le_dec (inject_Z num_events) target_events
          then Returns (s_lo, s_hi) world
          else bracket_up fuel s_init world
      end
  end.

(** Second [while True]: halve [s] until the count exceeds the target. *)
Fixpoint bracket_down (fuel : nat) (s_init : Q) (world : World) : outcome (Q * Q) :=
  match fuel with
  | 0 => OutOfFuel
  | S fuel =>
      let s_hi := s_init in
      let s_init := (s_init / 2)%Q in
      let s_lo := s_init in
      match oracle_num_events s_init world with
      | Raise e => Raises e
      | Ok (num_events, world) =>
          if Qlt_le_dec target_events (inject_Z num_events)
          then Returns (s_lo, s_hi) world
          else bracket_down fuel s_init world
      end
  end.

(** [np.abs(opt_events - target_events) / (target_events * 1.0) < tol]; the
    quotient by a zero target is [inf] or [nan], below no tolerance. *)
Definition rel_err_below (opt_events : Z) : bool :=
  if Qeq_bool (target_events * 1) 0 then false
  else bool_decide
         (Qabs (inject_Z opt_events - target_events) / (target_events * 1) < tol)%Q.

Definition stop_test (opt_events : Z) : bool :=
  rel_err_below opt_events
  || bool_decide (opt_events = Qceiling target_events)
  || bool_decide (opt_events = Qfloor target_events).

(** One iteration of the last [while True]: the result, or the new bracket
    [(s_lo, s_hi)].  The midpoint is exact, and so lies strictly inside a
    bracket that is not empty; in binary64 it is rounded, and can be an end of
    the bracket. *)
Definition bisect_step (s_lo s_hi : Q) (world : World)
  : result ((found + Q * Q) * World) :=
  let s_try := ((s_lo + s_hi) / 2)%Q in
  '(oracle_df, cost, world) ← get_oracle_df (update_s sim_opts s_try) true world;
  let opt_events := events_sum oracle_df in
  if stop_test opt_events then
    Ok (inl {| found_s := s_try; found_cost := cost; found_df := oracle_df |}, world)
  else if Qlt_le_dec (inject_Z opt_events) target_events then
    Ok (inr (s_lo, s_try), world)
  else
    Ok (inr (s_try, s_hi), world).

Fixpoint bisect (fuel : nat) (s_lo s_hi : Q) (world : World) : outcome found :=
  match fuel with
  | 0 => OutOfFuel
  | S fuel =>
      match bisect_step s_lo s_hi world with
      | Raise e => Raises e
      | Ok (inl res, world) => Returns res world
      | Ok (inr (s_lo, s_hi), world) => bisect fuel s_lo s_hi world
      end
  end.

(** [find_opt_oracle]; each of its loops may run [fuel] iterations. *)
Definition find_opt_oracle (fuel : nat) (world : World) : outcome found :=
  let '(s_hi, s_init, s_lo) := (1.0 * 2, 1.0, 1.0 / 2)%Q in
  match oracle_num_events s_init world with
  | Raise e => Raises e
  | Ok (num_events, world) =>
      let bracket :=
        if Qlt_le_dec target_events (inject_Z num_events)
        then bracket_up fuel s_init world
        else if Qlt_le_dec (inject_Z num_events) target_events
        then bracket_down fuel s_init world
        else Returns (s_lo, s_hi) world in
      match bracket with
      | Returns (s_lo, s_hi) world => bisect fuel s_lo s_hi world
      | Raises e => Raises e
      | OutOfFuel => OutOfFuel
      end
  end.

End FindOptOracle.
End Calibration.

End Metrics.
Arguments event Src : clear implicits.
Arguments SimOpts Src : clear implicits.
Arguments Returns {World A} a world.
Arguments Raises {World A} e.
Arguments OutOfFuel {World A}.
Arguments get_oracle_df {Src _ World} wall_dataframe sim_opts with_cost world.
Arguments oracle_num_events {Src _ World} wall_dataframe sim_opts s world.
Arguments bracket_up {Src _ World} wall_dataframe target_events sim_opts fuel s_init world.
Arguments bracket_down {Src _ World} wall_dataframe target_events sim_opts fuel s_init world.
Arguments bisect_step {Src _ World} wall_dataframe target_events sim_opts tol s_lo s_hi world.
Arguments bisect {Src _ World} wall_dataframe target_events sim_opts tol fuel s_lo s_hi world.
Arguments find_opt_oracle {Src _ World} wall_dataframe target_events sim_opts tol fuel world.

(** ** Further metrics *)

(** [np.ones(num_followers, dtype=float) / (num_followers ** 2)] *)
Definition def_q_vec (num_followers : nat) : list Q :=
  (fun one => one / inject_Z (Z.of_nat num_followers ^ 2))%Q
    <$> replicate num_followers 1%Q.

(** [np.sum] of an array of finite floats, each addition exact where binary64
    rounds it. *)
Definition sum_Q (l : list Q) : Q := foldl Qplus 0%Q l.

(** [np.sum] of a pandas series, which is [Series.sum()]: NaN entries are
    skipped. *)
Definition series_sum (l : list float) : Q := sum_Q (omap id l).

(** [r_t.mean(1)]: the mean of the cells of each row that are not NaN, NaN for
    a row that has none. *)
Definition row_mean (row : list float) : float := mean (omap id row).

(** [np.where(m <= x, 1.0, 0.0)]; a comparison with NaN is false. *)
Definition np_where_le (m : list float) (x : Q) : list Q :=
  (fun a => match a with
            | Some v => if Qle_bool v x then 1 else 0
            | None => 0
            end)%Q <$> m.

(** [np.square] *)
Definition np_square (a : list (list float)) : list (list float) :=
  (fun row : list float => (fun x => fmul x x) <$> row) <$> a.

(** A pandas series of floats with its index. *)
Record series : Type := Series {
  s_index : list Q;
  s_data : list float;
}.

Section MoreMetrics.
Context {Src : Type} `{EqDecision Src}.

Definition time_in_top_k (df : list (event Src)) (K : Q) (src_id : option Src)
    (end_time : option Q) (sim_opts : option (SimOpts Src)) : result Q :=
  let src_id :=
    match sim_opts with
    | Some o => Some (mb src_id (so_src_id o))
    | None => src_id
    end in
  let end_time :=
    match sim_opts with
    | Some o => Some (mb end_time (so_end_time o))
    | None => end_time
    end in
  r_t ← rank_of_src_in_df df src_id true true;
  let I_values := np_where_le (row_mean <$> values r_t) (K - 1) in
  end_time ← of_option end_time TypeError;
  let I_dt := np_diff (index r_t ++ [end_time]) in
  Ok (sum_Q (zip_with Qmult I_values I_dt)).

Definition average_rank (df : list (event Src)) (src_id : option Src)
    (end_time : option Q) (sim_opts : option (SimOpts Src)) : result Q :=
  let src_id :=
    match sim_opts with
    | Some o => Some (mb src_id (so_src_id o))
    | None => src_id
    end in
  let end_time :=
    match sim_opts with
    | Some o => Some (mb end_time (so_end_time o))
    | None => end_time
    end in
  r_t ← rank_of_src_in_df df src_id true true;
  end_time ← of_option end_time TypeError;
  let r_dt := np_diff (index r_t ++ [end_time]) in
  Ok (series_sum (zip_with fmul (row_mean <$> values r_t) (Some <$> r_dt))).

Definition calc_loss_poisson (df : list (event Src)) (u_const : Q)
    (src_id : option Src) (end_time : option Q) (q_vec : option (list Q))
    (s : option Q) (follower_ids : option (list nat))
    (sim_opts : option (SimOpts Src)) : result series :=
  let src_id :=
    match sim_opts with
    | Some o => Some (mb src_id (so_src_id o))
    | None => src_id
    end in
  let q_vec :=
    match sim_opts with
    | Some o => Some (mb q_vec (so_q_vec o))
    | None => q_vec
    end in
  let s :=
    match sim_opts with
    | Some o => Some (mb s (so_s o))
    | None => s
    end in
  let follower_ids :=
    match sim_opts with
    | Some o => Some (mb follower_ids (so_sink_ids o))
    | None => follower_ids
    end in
  (* [np.diff] of [None], which has no dimension *)
  follower_ids ← of_option follower_ids ValueError;
  _ ← assert (is_sorted_int (list_dtype follower_ids) (Z.of_nat <$> follower_ids) true)
        EmptyString;
  let q_vec := mb q_vec (def_q_vec (length follower_ids)) in
  r_t ← rank_of_src_in_df df src_id true true;
  sel ← select_columns r_t follower_ids;
  q_t ← dot (length follower_ids) (np_square sel) (Some <$> q_vec);
  let q_t : list float := fmul (Some 0.5%Q) <$> q_t in
  s ← of_option s TypeError;
  let s_t := (fun one => 0.5 * s * one * u_const ^ 2)%Q
               <$> replicate (length (values r_t)) 1%Q in
  Ok (Series (index r_t) (zip_with fadd q_t (Some <$> s_t))).

Definition calc_loss_opt (df : list (event Src)) (sim_opts : SimOpts Src)
  : result series :=
  let follower_ids := so_sink_ids sim_opts in
  let q_vec := so_q_vec sim_opts in
  let src_id := so_src_id sim_opts in
  r_t ← rank_of_src_in_df df (Some src_id) true true;
  sel ← select_columns r_t follower_ids;
  q_t ← dot (length follower_ids) (np_square sel) (Some <$> q_vec);
  let q_t : list float := fmul (Some 0.5%Q) <$> q_t in
  let s_t := q_t in
  Ok (Series (index r_t) (zip_with fadd q_t s_t)).

End MoreMetrics.

(** ** Wrappers of the calibration *)

(** [x[mask]] for a boolean mask [mask]. *)
Definition mask_select {A} (mask : list bool) (x : list A) : list A :=
  snd <$> filter (fun p => p.1 = true) (zip mask x).

Section CalibrationWrappers.
Context {Src : Type} `{EqDecision Src} {World : Type}.
Variable wall_dataframe : SimOpts Src -> World -> list (event Src) * World.

Definition find_opt_oracle_s (target_events : Q) (sim_opts : SimOpts Src)
    (tol : Q) (fuel : nat) (world : World) : outcome World Q :=
  match find_opt_oracle wall_dataframe target_events sim_opts tol fuel world with
  | Returns res world => Returns (found_s res) world
  | Raises e => Raises e
  | OutOfFuel => OutOfFuel
  end.

Definition find_opt_oracle_time_top_k (target_events K : Q)
    (sim_opts : SimOpts Src) (tol : Q) (fuel : nat) (world : World)
  : outcome World Q :=
  match find_opt_oracle wall_dataframe target_events sim_opts tol fuel world with
  | Returns res world =>
      let df := found_df res in
      let mask := (fun r => Qle_bool (inject_Z (Z.of_nat r)) (K - 1)) <$> od_ranks df in
      Returns (sum_Q (mask_select mask (od_t_delta df))) world
  | Raises e => Raises e
  | OutOfFuel => OutOfFuel
  end.

End CalibrationWrappers.

(** ** LaTeX *)

(** A value of [matplotlib]'s parameter dictionary. *)
Inductive rc_value : Type :=
  | RcStr (s : string)
  | RcStrs (l : list string)
  | RcInt (i : Z)
  | RcFloat (x : float)
  | RcFloats (l : list float)
  | RcBool (b : bool).

(** [a > b] on floats; a comparison with NaN is false. *)
Definition fgt (a : float) (b : Q) : bool :=
  match a with
  | Some x => bool_decide (b < x)%Q
  | None => false
  end.

(** [a < b] on floats; a comparison with NaN is false. *)
Definition flt (a : float) (b : Q) : bool :=
  match a with
  | Some x => bool_decide (x < b)%Q
  | None => false
  end.

(** [s + x] for a string [s] and a float [x]: Python does not concatenate
    them. *)
Definition str_add_float (s : string) (x : float) : result string :=
  Raise TypeError.

(** The dictionary [params] of [latexify]. *)
Definition latex_params (fig_width fig_height : float) (largeFonts : bool)
  : list (string * rc_value) :=
  [ ("backend", RcStr "ps");
    ("text.latex.preamble", RcStrs ["\usepackage{gensymb}"]);
    ("axes.labelsize", RcInt (if largeFonts then 10 else 7));
    ("axes.titlesize", RcInt (if largeFonts then 10 else 7));
    ("font.size", RcInt (if largeFonts then 10 else 7));
    ("legend.fontsize", RcInt (if largeFonts then 10 else 7));
    ("xtick.labelsize", RcInt (if largeFonts then 10 else 7));
    ("ytick.labelsize", RcInt (if largeFonts then 10 else 7));
    ("text.usetex", RcBool true);
    ("figure.figsize", RcFloats [fig_width; fig_height]);
    ("font.family", RcStr "serif");
    ("xtick.minor.size", RcFloat (Some 0.5%Q));
    ("xtick.major.pad", RcFloat (Some 1.5%Q));
    ("xtick.major.size", RcInt 1);
    ("ytick.minor.size", RcFloat (Some 0.5%Q));
    ("ytick.major.pad", RcFloat (Some 1.5%Q));
    ("ytick.major.size", RcInt 1) ].

Section Latexify.
Variable np_sqrt : Q -> float.
(** [matplotlib] is external.  [rc_update params rc] stands for
    [rcParams.update(params)] on the parameter object [rc], which
    [matplotlib] and [pyplot] share. *)
Variable RcParams : Type.
Variable rc_update : list (string * rc_value) -> RcParams -> result RcParams.

Definition latexify (fig_width fig_height : option float) (columns : Z)
    (largeFonts : bool) (rc : RcParams) : result RcParams :=
  _ ← assert (bool_decide (columns ∈ [1; 2]%Z)) EmptyString;
  let fig_width :=
    match fig_width with
    | Some w => w
    | None => Some (if decide (columns = 1%Z) then 3.39 else 6.9)%Q
    end in
  let fig_height :=
    match fig_height with
    | Some h => h
    | None =>
        let golden_mean := (fun r => (r - 1.0) / 2.0)%Q <$> np_sqrt 5 in
        fmul fig_width golden_mean
    end in
  let MAX_HEIGHT_INCHES := 8.0%Q in
  fig_height ←
    (if fgt fig_height MAX_HEIGHT_INCHES then
       _ ← str_add_float "WARNING: fig_height too large:" fig_height;
       Ok (Some MAX_HEIGHT_INCHES)
     else Ok fig_height);
  let params := latex_params fig_width fig_height largeFonts in
  rc ← rc_update params rc;
  rc_update params rc.

End Latexify.

(** ** Sweeping s *)

Section SweepS.
Variable World : Type.
(** [mean_capacity s world] stands for
    [calc_q_capacity_iter(sim_opts_gen, s).mean()]: the mean utility integral
    of the simulations run with cost [s], NaN included; [World] is whatever
    state the simulations draw from. *)
Variable mean_capacity : Q -> World -> result (float * World).
Variables (capacity_cap tol : Q).

(** First [while True]: halve [s] until the capacity exceeds the cap.  The
    halves are exact, and never 0; in binary64 they end up at 0. *)
Fixpoint sweep_halve (fuel : nat) (s : Q) (world : World) : outcome World (Q * Q) :=
  match fuel with
  | 0 => OutOfFuel
  | S fuel =>
      let s_hi := s in
      let s := (s / 2.0)%Q in
      let s_lo := s in
      match mean_capacity s world with
      | Raise e => Raises e
      | Ok (capacity, world) =>
          if fgt capacity capacity_cap then Returns (s_hi, s_lo) world
          else sweep_halve fuel s world
      end
  end.

(** Second [while True]: double [s] until the capacity is below the cap. *)
Fixpoint sweep_double (fuel : nat) (s : Q) (world : World) : outcome World (Q * Q) :=
  match fuel with
  | 0 => OutOfFuel
  | S fuel =>
      let s_lo := s in
      let s := (s * 2.0)%Q in
      let s_hi := s in
      match mean_capacity s world with
      | Raise e => Raises e
      | Ok (capacity, world) =>
          if flt capacity capacity_cap then Returns (s_hi, s_lo) world
          else sweep_double fuel s world
      end
  end.

(** [abs(new_capacity - capacity_cap) / capacity_cap < tol]; the quotient by a
    zero cap is [inf] or [nan], below no tolerance, and so is a NaN
    capacity. *)
Definition converged (new_capacity : float) : bool :=
  match new_capacity with
  | Some c =>
      if Qeq_bool capacity_cap 0 then false
      else bool_decide (Qabs (c - capacity_cap) / capacity_cap < tol)%Q
  | None => false
  end.

(** Last [while True]: bisect on [s], with exact midpoints. *)
Fixpoint sweep_bisect (fuel : nat) (s_hi s_lo : Q) (world : World) : outcome World Q :=
  match fuel with
  | 0 => OutOfFuel
  | S fuel =>
      let s := ((s_hi + s_lo) / 2.0)%Q in
      match mean_capacity s world with
      | Raise e => Raises e
      | Ok (new_capacity, world) =>
          if converged new_capacity then Returns s world
          else if fgt new_capacity capacity_cap then sweep_bisect fuel s_hi s world
          else sweep_bisect fuel s s_lo world
      end
  end.

(** [sweep_s]; each of its loops may run [fuel] iterations. *)
Definition sweep_s (fuel : nat) (s_init : Q) (world : World) : outcome World Q :=
  match mean_capacity s_init world with
  | Raise e => Raises e
  | Ok (init_cap, world) =>
      let s := s_init in
      let bracket :=
        if flt init_cap capacity_cap then sweep_halve fuel s world
        else sweep_double fuel s world in
      match bracket with
      | Returns (s_hi, s_lo) world => sweep_bisect fuel s_hi s_lo world
      | Raises e => Raises e
      | OutOfFuel => OutOfFuel
      end
  end.

End SweepS.

(** ** Reference notions, as the specification words them *)

(** Each element is greater than or equal to its predecessor. *)
Fixpoint nondecreasing (x : list Q) : Prop :=
  match x with
  | a :: (b :: _) as x' => (a <= b)%Q ∧ nondecreasing x'
  | _ => True
  end.

(** The 1-based index of the most recent post of [src] among the first [k]
    events of a stream, or 0 if there is none yet. *)
Fixpoint last_post_index {Src} `{EqDecision Src} (src : Src) (x : list Src)
    (k : nat) : nat :=
  match k with
  | 0 => 0
  | S k' => if decide (x !! k' = Some src) then S k' else last_post_index src x k'
  end.

(** The events of one follower, with their ranks, in log order. *)
Definition stream {Src} (df2 : list (event Src * Q)) (sink : nat)
  : list (event Src * Q) :=
  filter (fun p => ev_sink_id p.1 = sink) df2.

(** The rank the table shows for follower [sink] at the grid point [t]. *)
Definition rank_at (r_t : pivot) (sink : nat) (t : Q) : option float :=
  i ← fst <$> list_find (fun t' => (t' == t)%Q) (index r_t);
  j ← fst <$> list_find (fun c => c = sink) (columns r_t);
  row ← values r_t !! i;
  row !! j.

Definition trajectory (r_t : pivot) (sink : nat) (grid : list Q)
  : list (option float) :=
  rank_at r_t sink <$> grid.

(** The scenario of the specification: source ["A"] posts to both followers at
    [t = 0] and [t = 5]; a competitor posts to follower 1 at [t = 1, 2, 3] and
    to follower 2 at [t = 4]. *)
Definition scenario : list (event string) :=
  [ Event 0 0 "A" 1; Event 0 0 "A" 2;
    Event 1 1 "C" 1; Event 2 2 "C" 1; Event 3 3 "C" 1;
    Event 4 4 "C" 2;
    Event 5 5 "A" 1; Event 5 5 "A" 2 ].

(** The trajectory the specification expects on the grid [t = 0, 1, 2, 3]. *)
Definition expected_trajectory (r_t : pivot) : Prop :=
  trajectory r_t 1 [0; 1; 2; 3]%Q
  = [Some (Some 0); Some (Some 1); Some (Some 2); Some (Some 3)]%Q
  ∧ trajectory r_t 2 [0; 1; 2; 3]%Q
    = [Some (Some 0); Some (Some 0); Some (Some 0); Some (Some 1)]%Q.

(** The rank a row of the table holds for the follower labelled [c]. *)
Definition rank_in_row (r_t : pivot) (row : list float) (c : nat) : float :=
  default None (row !! default 0 (fst <$> list_find (fun c' => c' = c) (columns r_t))).

(** A row restricted to the follower ids, dotted with [sqrt(q_vec / s)]. *)
Definition row_utility (np_sqrt : Q -> float) (r_t : pivot) (follower_ids : list nat)
    (q_vec : list Q) (s : Q) (row : list float) : float :=
  foldr (fun '(c, q) acc => fadd (fmul (rank_in_row r_t row c) (np_sqrt (q / s)%Q)) acc)
        (Some 0%Q) (zip follower_ids q_vec).

(** The Riemann sum of the observations [(t_i, u_i)]: each [u_i] weighs the
    time to the next observation, the last one the time to [end_time]. *)
Fixpoint riemann_sum (obs : list (Q * float)) (end_time : Q) : float :=
  match obs with
  | [] => Some 0%Q
  | (t_i, u) :: rest =>
      let t_next := match rest with [] => end_time | (t', _) :: _ => t' end in
      fadd (fmul u (Some (t_next - t_i)%Q)) (riemann_sum rest end_time)
  end.


(** The recurrence of the specification at entry [(r, k)]:
    [J[r, k] = min(s/2 + J[0, k+1], (q/2) w[k+1] (r+1)^2 + J[r+1, k+1])]. *)
Definition recurrence_at (w : list Q) (q s : Q) (J : list (list Q)) (r k : nat) : Prop :=
  ∃ v a b wk,
    get2 J r k = Ok v ∧ get2 J 0 (k + 1) = Ok a ∧ get2 J (r + 1) (k + 1) = Ok b
    ∧ w !! (k + 1) = Some wk
    ∧ (v == Qmin (s / 2 + a) (q / 2 * wk * sq (r + 1) + b))%Q.

(** The backward pass as the specification states it: the terminal column,
    and the recurrence at every [k <= n] and every rank [r <= k]. *)
Definition recurrence_claim (event_times : list Q) (end_time q s : Q) : Prop :=
  let n := length event_times in
  let w := durations event_times end_time in
  ∃ J, backward_pass n w q s (J_init n) = Ok J
    ∧ (∀ r, r ≤ n → get2 J r (n + 1) = Ok (sq r / 2)%Q)
    ∧ (∀ k r, k ≤ n → r ≤ k → recurrence_at w q s J r k).

(** The cost of a pattern of decisions [u] ([true]: post) taken one per
    interval of [ws], starting at rank [r]: [s/2] for a post, which resets the
    rank; the quadratic penalty of the interval at rank [r + 1] otherwise; and
    the terminal penalty [r^2 / 2] at the end. *)
Fixpoint pattern_cost (q s : Q) (ws : list Q) (r : nat) (u : list bool) : Q :=
  match u, ws with
  | post :: u', wk :: ws' =>
      if post then (s / 2 + pattern_cost q s ws' 0 u')%Q
      else (q / 2 * wk * sq (r + 1) + pattern_cost q s ws' (r + 1) u')%Q
  | _, _ => (sq r / 2)%Q
  end.

(** The cheapest cost over the intervals [ws] from rank [r], by the recurrence
    of the specification. *)
Fixpoint best_cost (q s : Q) (ws : list Q) (r : nat) : Q :=
  match ws with
  | [] => (sq r / 2)%Q
  | wk :: ws' =>
      Qmin (s / 2 + best_cost q s ws' 0)
           (q / 2 * wk * sq (r + 1) + best_cost q s ws' (r + 1))
  end.

(** The penalties accrued by waiting through the intervals [ws] from rank
    [r], the terminal penalty left out. *)
Fixpoint accrued_wait (q : Q) (ws : list Q) (r : nat) : Q :=
  match ws with
  | [] => 0%Q
  | wk :: ws' => (q / 2 * wk * sq (r + 1) + accrued_wait q ws' (r + 1))%Q
  end.

(** All [2^m] patterns of [m] decisions. *)
Fixpoint patterns (m : nat) : list (list bool) :=
  match m with
  | 0 => [[]]
  | S m' => (cons true <$> patterns m') ++ (cons false <$> patterns m')
  end.

Definition minimum (l : list Q) : Q :=
  match l with
  | [] => 0%Q
  | a :: l' => foldl Qmin a l'
  end.

(** Brute force over the [2^n] patterns of decisions taken before each of the
    [n] competing events; the interval from the last event to [end_time] is
    waited out. *)
Definition brute_force_cost (event_times : list Q) (end_time q s : Q) : Q :=
  minimum ((fun u => pattern_cost q s (tail (durations event_times end_time)) 0
                       (u ++ [false]))
             <$> patterns (length event_times)).

(** One iteration of the bisection that does not stop, as the specification
    words it: the oracle is run at the midpoint of the bracket; the relative
    error of its event count is not below the tolerance and the count is
    neither the ceiling nor the floor of the target; [s_hi] moves to the
    midpoint when the count is below the target, [s_lo] when it is above.  A
    state is the bracket [(s_lo, s_hi)] with the state of the simulator. *)
Inductive narrows {Src} `{EqDecision Src} {World : Type}
    (wall_dataframe : SimOpts Src -> World -> list (event Src) * World)
    (target_events : Q) (sim_opts : SimOpts Src) (tol : Q)
  : Q * Q * World -> Q * Q * World -> Prop :=
  | narrows_step s_lo s_hi world oracle_df cost world' s_lo' s_hi' :
      let s_try := ((s_lo + s_hi) / 2)%Q in
      let opt_events := events_sum oracle_df in
      get_oracle_df wall_dataframe (update_s sim_opts s_try) true world
      = Ok (oracle_df, cost, world') ->
      ¬ (¬ (target_events == 0)%Q
         ∧ (Qabs (inject_Z opt_events - target_events) / target_events < tol)%Q) ->
      opt_events ≠ Qceiling target_events ->
      opt_events ≠ Qfloor target_events ->
      (inject_Z opt_events < target_events)%Q ∧ s_lo' = s_lo ∧ s_hi' = s_try
      ∨ (target_events < inject_Z opt_events)%Q ∧ s_lo' = s_try ∧ s_hi' = s_hi ->
      narrows wall_dataframe target_events sim_opts tol
        (s_lo, s_hi, world) (s_lo', s_hi', world').

(** ** Invariants of the loops *)

(** The argument of the running maximum in [steps_to]: the 1-based index at
    the posts of [src], 0 elsewhere. *)
Definition marks {Src} `{EqDecision Src} (src : Src) (x : list Src) : list Z :=
  np_where0 (eq_src (Some src) x) (arange1 (length x)).

(** The table has [R] rows of [C] columns. *)
Definition shaped (R C : nat) (J : list (list Q)) : Prop :=
  length J = R ∧ Forall (fun row => length row = C) J.

(** Entry [(r, k)] holds what [fill_entry] computes from column [k + 1]. *)
Definition entry_filled (w : list Q) (q s : Q) (J : list (list Q)) (r k : nat) : Prop :=
  ∃ lhs rhs, post_branch s J k = Ok lhs ∧ wait_branch w q J k r = Ok rhs
             ∧ get2 J r k = Ok (py_min lhs rhs).

(** What the forward pass records at step [k]. *)
Definition step_recorded (w : list Q) (q s : Q) (J : list (list Q))
    (oracle_ranks u_star : list nat) (k : nat) : Prop :=
  ∃ rk lhs rhs,
    oracle_ranks !! k = Some rk
    ∧ post_branch s J k = Ok lhs
    ∧ wait_branch w q J k rk = Ok rhs
    ∧ if Qlt_le_dec lhs rhs
      then u_star !! k = Some 1 ∧ oracle_ranks !! (k + 1) = Some 0
      else u_star !! k = Some 0 ∧ oracle_ranks !! (k + 1) = Some (rk + 1).

(** The state of the inner loop of column [k], started on [J0], once the rows
    below [i] are done. *)
Definition column_inv (n : nat) (w : list Q) (q s : Q) (J0 : list (list Q))
    (k i : nat) (J : list (list Q)) : Prop :=
  shaped (n + 1) (n + 2) J
  ∧ (∀ r' k', (k' ≠ k ∨ i ≤ r') → get2 J r' k' = get2 J0 r' k')
  ∧ (∀ r', r' < i → entry_filled w q s J r' k).

(** The state of the backward pass once the columns [m], ..., [n] are done. *)
Definition backward_inv (n : nat) (w : list Q) (q s : Q) (m : nat)
    (J : list (list Q)) : Prop :=
  shaped (n + 1) (n + 2) J
  ∧ (∀ r, r ≤ n → get2 J r (n + 1) = Ok (sq r / 2)%Q)
  ∧ (∀ k r, m ≤ k → k ≤ n → r < min (k + 1) n → entry_filled w q s J r k)
  ∧ (∀ k r, k ≤ n → r ≤ n → (k < m ∨ min (k + 1) n ≤ r) → get2 J r k = Ok 0%Q).

(** The state of the forward pass before step [k]. *)
Definition forward_inv (n : nat) (w : list Q) (q s : Q) (J : list (list Q))
    (k : nat) (st : list nat * list nat) : Prop :=
  length st.1 = n + 1 ∧ length st.2 = n + 1
  ∧ (∃ rk, st.1 !! k = Some rk ∧ rk ≤ k)
  ∧ (∀ j, j < k → step_recorded w q s J st.1 st.2 j).

(** The schedule built by the forward pass before step [k]: the oracle starts
    at rank 0; each step taken either posts, which resets the rank, or lets
    the rank grow by one; what is not yet written is 0. *)
Definition schedule_inv (n k : nat) (st : list nat * list nat) : Prop :=
  length st.1 = n + 1 ∧ length st.2 = n + 1
  ∧ st.1 !! 0 = Some 0
  ∧ (∀ j, j < k →
       ∃ rk, st.1 !! j = Some rk ∧ rk ≤ j
         ∧ (st.2 !! j = Some 1 ∧ st.1 !! (j + 1) = Some 0
            ∨ st.2 !! j = Some 0 ∧ st.1 !! (j + 1) = Some (rk + 1)))
  ∧ (∀ j, k ≤ j → j ≤ n → st.2 !! j = Some 0)
  ∧ (∃ rk, st.1 !! k = Some rk ∧ rk ≤ k).

(** ** Example data *)

(** A simulator for examples: it always produces the same wall, four posts of
    a competitor to follower 1, and has no state. *)
Definition calm_log : list (event string) :=
  [ Event 1 1 "C" 1; Event 2 2 "C" 1; Event 3 3 "C" 1; Event 4 4 "C" 1 ]%Q.

Definition calm_opts : SimOpts string :=
  {| so_src_id := "A"; so_end_time := 5; so_q_vec := [1%Q]; so_s := 1;
     so_sink_ids := [1] |}.

Definition calm_wall (sim_opts : SimOpts string) (world : unit)
  : list (event string) * unit := (calm_log, world).

(** A log in which follower 2 only receives posts of the competitor. *)
Definition one_sided_log : list (event string) :=
  [ Event 0 0 "A" 1; Event 1 1 "C" 1; Event 2 1 "C" 2; Event 3 2 "C" 2 ]%Q.

(** A square root on non-negative rationals that is exact to six decimals of
    the root; NaN for a negative argument.  It stands in for [np.sqrt] where a
    concrete function is needed. *)
Definition sqrt_micro (x : Q) : float :=
  if Qlt_le_dec x 0 then None
  else Some (Z.sqrt (Qnum x * 10 ^ 12 / Z.pos (Qden x)) # 10 ^ 6)%Q.

(** A parameter store for examples: the newest entries come first. *)
Definition rc_store_update (params rc : list (string * rc_value))
  : result (list (string * rc_value)) := Ok (params ++ rc).

(** Capacities for examples: [1 / s], which decreases as [s] grows, and NaN
    throughout. *)
Definition inverse_capacity (s : Q) (world : unit) : result (float * unit) :=
  Ok (Some (1 / s)%Q, world).

Definition nan_capacity (s : Q) (world : unit) : result (float * unit) :=
  Ok (None, world).

(** * Properties *)

(** ** Sortedness check *)

Lemma nondecreasing_lookup (x : list Q) i a b :
  nondecreasing x → x !! i = Some a → x !! S i = Some b → (a <= b)%Q.
Proof.
  revert i. induction x as [|c [|d x'] IH]; intros i Hx Ha Hb; try done.
  destruct Hx as [Hcd Hx]. destruct i as [|i]; simpl in *.
  - by simplify_eq.
  - by apply (IH i).
Qed.


Lemma is_sorted_int_lookup (dt : int_dtype) (x : list Z) (ascending : bool) :
  is_sorted_int dt x ascending = true
  ↔ ∀ i a b, x !! i = Some a → x !! S i = Some b →
             if ascending then (0 ≤ wrap dt (b - a))%Z else (wrap dt (b - a) ≤ 0)%Z.
Proof.
  assert (∀ d, Qle_bool 0 (inject_Z d * (if ascending then 1 else -1)) = true
               ↔ if ascending then (0 ≤ d)%Z else (d ≤ 0)%Z) as Hsign.
  { intros d. rewrite Qle_bool_iff. unfold Qle, Qmult, inject_Z.
    destruct ascending; cbn [Qnum Qden]; lia. }
  unfold is_sorted_int, np_diff_int. rewrite forallb_forall. split.
  - intros Hall i a b Ha Hb. apply Hsign, Hall.
    apply list_elem_of_In, list_elem_of_lookup. exists i.
    rewrite list_lookup_fmap, lookup_zip_with, lookup_tail, Hb. simpl. by rewrite Ha.
  - intros Hall d Hd. apply list_elem_of_In, list_elem_of_lookup in Hd as [i Hi].
    rewrite list_lookup_fmap in Hi. apply fmap_Some in Hi as (d' & Hd' & ->).
    apply lookup_zip_with_Some in Hd' as (b & a & -> & Hb & Ha).
    rewrite lookup_tail in Hb. apply Hsign. by apply (Hall i a b).
Qed.

Lemma wrap_Signed_exact (bits z : Z) :
  (0 < bits)%Z → (- 2 ^ (bits - 1) ≤ z < 2 ^ (bits - 1))%Z → wrap (Signed bits) z = z.
Proof.
  intros Hbits Hz. unfold wrap.
  assert (2 ^ bits = 2 * 2 ^ (bits - 1))%Z as ->
    by (rewrite <- Z.pow_succ_r by lia; f_equal; lia).
  rewrite Z.mod_small; lia.
Qed.

Lemma wrap_Unsigned_nonneg (bits z : Z) : (0 ≤ bits)%Z → (0 ≤ wrap (Unsigned bits) z)%Z.
Proof. intros Hbits. unfold wrap. apply Z.mod_pos_bound. by apply Z.pow_pos_nonneg. Qed.




(** ** Rank tracker *)

Section RankTracker.
Context {Src : Type} `{EqDecision Src}.
Implicit Types (df : list (event Src)) (x : list Src).

(** *** Running maximum *)

Lemma accumulate_from_lookup (l : list Z) : ∀ acc i,
  i < length l →
  accumulate_from acc l !! i = Some (foldl Z.max acc (take (S i) l)).
Proof.
  induction l as [|a l IH]; intros acc i Hi; simpl in *; [lia|].
  destruct i as [|i]; simpl.
  - by destruct l.
  - rewrite IH by lia. done.
Qed.

Lemma maximum_accumulate_lookup (l : list Z) i :
  i < length l → Forall (fun a => 0 ≤ a)%Z l →
  maximum_accumulate l !! i = Some (foldl Z.max 0%Z (take (S i) l)).
Proof.
  destruct l as [|a l]; simpl; [lia|]. intros Hi Hl.
  apply Forall_cons in Hl as [Ha _].
  rewrite Z.max_r by done.
  destruct i as [|i]; simpl.
  - by destruct l.
  - rewrite accumulate_from_lookup by lia. done.
Qed.

Lemma length_arange1 m : length (arange1 m) = m.
Proof. unfold arange1. by rewrite length_fmap, length_seq. Qed.

Lemma arange1_lookup m i : i < m → arange1 m !! i = Some (Z.of_nat (S i)).
Proof.
  intros Hi. unfold arange1. rewrite list_lookup_fmap, lookup_seq_lt by done. done.
Qed.

Lemma length_marks src x : length (marks src x) = length x.
Proof.
  unfold marks, np_where0, eq_src.
  rewrite length_zip_with, length_fmap, length_arange1. lia.
Qed.

Lemma marks_lookup src x i a :
  x !! i = Some a →
  marks src x !! i = Some (if decide (a = src) then Z.of_nat (S i) else 0%Z).
Proof.
  intros Hi. unfold marks, np_where0, eq_src.
  apply lookup_zip_with_Some.
  exists (bool_decide (Some a = Some src)), (Z.of_nat (S i)). split_and!.
  - destruct (decide (a = src)) as [->|Hne].
    + by rewrite bool_decide_eq_true_2.
    + rewrite bool_decide_eq_false_2; [done|congruence].
  - by rewrite list_lookup_fmap, Hi.
  - apply arange1_lookup. by eapply lookup_lt_Some.
Qed.

Lemma marks_nonneg src x : Forall (fun a => 0 ≤ a)%Z (marks src x).
Proof.
  apply Forall_lookup. intros i a Hi.
  assert (i < length x) as Hlt by (rewrite <- (length_marks src); by eapply lookup_lt_Some).
  apply lookup_lt_is_Some in Hlt as [b Hb].
  rewrite (marks_lookup _ _ _ _ Hb) in Hi. simplify_eq. case_decide; lia.
Qed.

Lemma last_post_index_le (src : Src) x k : last_post_index src x k ≤ k.
Proof. induction k as [|k IH]; simpl; [done|]. case_decide; lia. Qed.

Lemma running_max_marks src x k :
  k ≤ length x →
  foldl Z.max 0%Z (take k (marks src x)) = Z.of_nat (last_post_index src x k).
Proof.
  induction k as [|k IH]; intros Hk; [done|]. cbn [last_post_index].
  assert (k < length x) as Hlt by lia.
  apply lookup_lt_is_Some in Hlt as [a Ha].
  rewrite (take_S_r _ _ _ (marks_lookup src _ _ _ Ha)), foldl_app. simpl.
  rewrite IH by lia. pose proof (last_post_index_le src x k).
  destruct (decide (a = src)) as [->|Hne].
  - rewrite !decide_True by done. lia.
  - rewrite !decide_False by congruence. lia.
Qed.

Lemma length_steps_to src_id x : length (steps_to src_id x) = length x.
Proof.
  unfold steps_to. rewrite length_zip_with, length_arange1.
  destruct x as [|a x]; [done|].
  unfold maximum_accumulate, np_where0, eq_src. simpl.
  assert (∀ l acc, length (accumulate_from acc l) = length l) as Hacc.
  { induction l as [|b l IH]; intros acc; simpl; [done|]. by rewrite IH. }
  rewrite Hacc, length_zip_with, length_fmap, length_fmap, length_seq. lia.
Qed.

Lemma steps_to_lookup src x i :
  i < length x →
  steps_to (Some src) x !! i
  = Some (Z.of_nat (S i) - Z.of_nat (last_post_index src x (S i)))%Z.
Proof.
  intros Hi. unfold steps_to. apply lookup_zip_with_Some.
  eexists _, _. split_and!; [done|by apply arange1_lookup|].
  fold (marks src x).
  rewrite maximum_accumulate_lookup by (rewrite ?length_marks; auto using marks_nonneg).
  by rewrite running_max_marks by lia.
Qed.

(** *** Putting the group results back in row order *)

Lemma scatter_stream {B} (g : Z → B) (res : nat → list Z) (sink : nat) df : ∀ seen,
  filter (fun p : event Src * B => ev_sink_id p.1 = sink) (zip df (g <$> scatter res seen df))
  = zip (filter (fun e => ev_sink_id e = sink) df)
        ((fun i => g (default 0%Z (res sink !! i)))
           <$> seq (seen sink) (length (filter (fun e => ev_sink_id e = sink) df))).
Proof.
  induction df as [|e df IH]; intros seen; simpl; [done|].
  rewrite !filter_cons. simpl. destruct (decide (ev_sink_id e = sink)) as [Heq|Hne].
  - simpl. f_equal; [by rewrite Heq|]. rewrite IH. simpl.
    rewrite decide_True by done. done.
  - rewrite IH. simpl. rewrite decide_False by done. done.
Qed.

Lemma length_scatter res df : ∀ seen, length (scatter res seen df) = length df.
Proof. induction df as [|e df IH]; intros seen; simpl; [done|]. by rewrite IH. Qed.

Lemma lookups_seq {A B} (g : A → B) (d : A) (l : list A) :
  (fun i => g (default d (l !! i))) <$> seq 0 (length l) = g <$> l.
Proof.
  apply list_eq. intros i. rewrite !list_lookup_fmap.
  destruct (decide (i < length l)) as [Hi|Hi].
  - rewrite lookup_seq_lt by done. simpl.
    apply lookup_lt_is_Some in Hi as [a Ha]. by rewrite Ha.
  - rewrite lookup_seq_ge by lia. simpl.
    rewrite (proj2 (lookup_ge_None l i)) by lia. done.
Qed.

Lemma stream_with_rank df src_id sink :
  stream (zip df (Zs_to_Q (transform (steps_to src_id) df))) sink
  = zip (filter (fun e => ev_sink_id e = sink) df)
        (Zs_to_Q (steps_to src_id (group_src df sink))).
Proof.
  unfold stream, transform, Zs_to_Q. rewrite scatter_stream. f_equal.
  assert (length (filter (fun e => ev_sink_id e = sink) df)
          = length (steps_to src_id (group_src df sink))) as ->.
  { rewrite length_steps_to. unfold group_src. by rewrite length_fmap. }
  by rewrite lookups_seq.
Qed.

Lemma last_post_index_none (src : Src) x k :
  (∀ j, j < k → x !! j ≠ Some src) → last_post_index src x k = 0.
Proof.
  induction k as [|k IH]; intros Hno; simpl; [done|].
  rewrite decide_False by (apply Hno; lia). apply IH. intros j Hj. apply Hno. lia.
Qed.

(** C4: on a log sorted by time the rank column exists and is what the rank
    tracker pivots into its table; in each follower's
    stream the event at (1-based) position [k + 1] has rank [k + 1] minus the
    index of the most recent post of [src] (0 if none yet): 0 at a post of
    [src], the position itself before the first such post, never negative, and
    one more than the previous rank at every event of another source. *)
Theorem rank_within_stream df (src : Src) :
  is_sorted (ev_t <$> df) true = true →
  ∃ ranked, with_rank df (Some src) = Ok ranked ∧ ranked.*1 = df ∧
    (∀ with_time, rank_of_src_in_df df (Some src) false with_time
                  = Ok (pivot_table (key_of with_time) ranked)) ∧
    ∀ sink k e rank,
    (stream ranked sink !! k = Some (e, rank) →
     let x := ev_src_id <$> (stream ranked sink).*1 in
     rank = inject_Z (Z.of_nat (S k) - Z.of_nat (last_post_index src x (S k)))
     ∧ (ev_src_id e = src → rank = 0%Q)
     ∧ ((∀ j, j ≤ k → x !! j ≠ Some src) → rank = inject_Z (Z.of_nat (S k)))
     ∧ (0 <= rank)%Q
     ∧ (∀ e' rank', stream ranked sink !! S k = Some (e', rank') →
          ev_src_id e' ≠ src → (rank' == rank + 1)%Q ∧ (rank < rank')%Q)).
Proof.
  intros Hs. unfold with_rank. rewrite Hs. simpl. eexists. split; [done|].
  assert (length (Zs_to_Q (transform (steps_to (Some src)) df)) = length df) as Hlen.
  { unfold Zs_to_Q, transform. by rewrite length_fmap, length_scatter. }
  split; [by rewrite fst_zip by lia|].
  split; [intros with_time; unfold rank_of_src_in_df, with_rank; by rewrite Hs|].
  intros sink k e rank. rewrite stream_with_rank. intros Hk.
  set (fdf := filter (fun e => ev_sink_id e = sink) df) in *.
  assert (length (Zs_to_Q (steps_to (Some src) (group_src df sink))) = length fdf) as Hl2.
  { unfold Zs_to_Q, group_src. by rewrite length_fmap, length_steps_to, length_fmap. }
  rewrite fst_zip by lia. fold (group_src df sink).
  assert (∀ i e1 r1, zip fdf (Zs_to_Q (steps_to (Some src) (group_src df sink))) !! i
                     = Some (e1, r1) →
            group_src df sink !! i = Some (ev_src_id e1) ∧
            r1 = inject_Z (Z.of_nat (S i)
                           - Z.of_nat (last_post_index src (group_src df sink) (S i))))
    as Hrow.
  { intros i e1 r1 Hi. apply lookup_zip_with_Some in Hi as (e2 & r2 & [= <- <-] & He & Hr).
    split; [unfold group_src; fold fdf; by rewrite list_lookup_fmap, He|].
    unfold Zs_to_Q in Hr. rewrite list_lookup_fmap, steps_to_lookup in Hr.
    - by simplify_eq/=.
    - unfold group_src. rewrite length_fmap. by eapply lookup_lt_Some. }
  destruct (Hrow _ _ _ Hk) as [Hsrc ->].
  pose proof (last_post_index_le src (group_src df sink) (S k)) as Hle.
  split_and!.
  - done.
  - intros <-. simpl. rewrite decide_True by done. f_equal.
    rewrite Z.sub_diag. done.
  - intros Hno. rewrite last_post_index_none; [by rewrite Z.sub_0_r|].
    intros j Hj. apply Hno. lia.
  - unfold Qle, inject_Z. cbn [Qnum Qden]. lia.
  - intros e' rank' Hk' Hne. destruct (Hrow _ _ _ Hk') as [Hsrc' ->].
    cbn [last_post_index]. rewrite (decide_False (P := _ !! S k = _)) by congruence.
    unfold Qeq, Qlt, Qplus, inject_Z. cbn [Qnum Qden]. lia.
Qed.

End RankTracker.

Lemma rank_within_stream_witness :
  is_sorted (ev_t <$> scenario) true = true
  ∧ ∃ ranked, with_rank scenario (Some "A") = Ok ranked
      ∧ stream ranked 1 !! 3 = Some (Event 3 3 "C" 1, 3%Q)
      ∧ 3%Q = inject_Z (Z.of_nat 4 - Z.of_nat (last_post_index "A"
                          (ev_src_id <$> (stream ranked 1).*1) 4)).
Proof.
  split; [reflexivity|].
  destruct (rank_within_stream scenario "A" eq_refl) as (ranked & Hr & _ & _ & Hs).
  exists ranked. split; [exact Hr|].
  assert (stream ranked 1 !! 3 = Some (Event 3 3 "C" 1, 3%Q)) as Hk.
  { vm_compute in Hr. injection Hr as <-. reflexivity. }
  split; [exact Hk|]. exact (proj1 (Hs 1 3 _ _ Hk)).
Defined.

(** C3 as stated fails: on the scenario the forward-filled table does not read
    [0, 0, 0, 1] for follower 2 on the grid [t = 0, 1, 2, 3]. *)
Lemma scenario_trajectory_not_expected :
  ¬ ∃ r_t, rank_of_src_in_df scenario (Some "A") true true = Ok r_t
           ∧ expected_trajectory r_t.
Proof.
  intros (r_t & Hr & _ & H2). vm_compute in Hr. injection Hr as <-.
  vm_compute in H2. discriminate H2.
Qed.

(** C3, amended: on the scenario follower 1 reads [0, 1, 2, 3] on the grid
    [t = 0, 1, 2, 3] and follower 2 reads [0, 0, 0, 0] there; the rank of
    follower 2 becomes 1 at [t = 4], when the competitor posts to it. *)
Theorem scenario_trajectory :
  ∃ r_t, rank_of_src_in_df scenario (Some "A") true true = Ok r_t
    ∧ trajectory r_t 1 [0; 1; 2; 3]%Q
      = [Some (Some 0); Some (Some 1); Some (Some 2); Some (Some 3)]%Q
    ∧ trajectory r_t 2 [0; 1; 2; 3]%Q
      = [Some (Some 0); Some (Some 0); Some (Some 0); Some (Some 0)]%Q
    ∧ trajectory r_t 2 [4]%Q = [Some (Some 1)]%Q.
Proof. eexists. split; [vm_compute; reflexivity|]. by vm_compute. Qed.

(** ** Oracle: the single-follower restriction *)

(** C7: when the follower list the oracle ends up with does not have exactly
    one element, the call raises the assertion error on the follower count and
    returns nothing. *)
Theorem oracle_ranking_one_follower_only {Src} `{EqDecision Src}
    (df : list (event Src)) (sim_opts : SimOpts Src)
    (omit_src_ids : option (list Src)) (follower_ids : option (list nat)) :
  length (oracle_follower_ids (omit_sources df omit_src_ids) follower_ids) ≠ 1 →
  oracle_ranking df sim_opts omit_src_ids follower_ids
  = Raise (AssertionError "Oracle has been implemented only for 1 follower.").
Proof.
  intros Hlen. unfold oracle_ranking.
  by rewrite bool_decide_eq_false_2 by done.
Qed.

Lemma oracle_ranking_one_follower_only_witness :
  length (oracle_follower_ids (omit_sources scenario None) None) ≠ 1
  ∧ oracle_ranking scenario
      {| so_src_id := "A"; so_end_time := 6; so_q_vec := [1%Q]; so_s := 1;
         so_sink_ids := [1; 2] |} None None
    = Raise (AssertionError "Oracle has been implemented only for 1 follower.").
Proof.
  assert (length (oracle_follower_ids (omit_sources scenario None) None) ≠ 1) as Hlen
    by (vm_compute; lia).
  split; [exact Hlen|].
  exact (oracle_ranking_one_follower_only scenario _ None None Hlen).
Defined.

(** ** Distinct values and sorting *)

Lemma elem_of_unique_by_eq {A} `{EqDecision A} (l : list A) x :
  x ∈ unique_by eq l ↔ x ∈ l.
Proof.
  induction l as [|a l IH]; simpl; [done|].
  rewrite !elem_of_cons, list_elem_of_filter, IH.
  destruct (decide (x = a)) as [->|Hne]; intuition congruence.
Qed.

Lemma NoDup_unique_by_eq {A} `{EqDecision A} (l : list A) : NoDup (unique_by eq l).
Proof.
  induction l as [|a l IH]; simpl; [constructor|].
  apply NoDup_cons. split; [|by apply NoDup_filter].
  rewrite list_elem_of_filter. intros [Hne _]. by apply Hne.
Qed.

Lemma StronglySorted_le_lt (l : list nat) :
  StronglySorted le l → NoDup l → StronglySorted lt l.
Proof.
  induction 1 as [|a l Hl IH Ha]; intros Hnd; constructor.
  - apply IH. by apply NoDup_cons in Hnd as [_ ?].
  - apply NoDup_cons in Hnd as [Hna _].
    apply Forall_forall. intros b Hb.
    assert (a ≤ b) by (by eapply Forall_forall in Ha).
    assert (a ≠ b) by (intros ->; done). lia.
Qed.

Lemma Sorted_lt_le (l : list nat) : Sorted lt l → Sorted le l.
Proof.
  induction 1 as [|a l Hl IH Ha]; constructor; [done|].
  destruct Ha; constructor. lia.
Qed.

Lemma sorted_unique_spec (l : list nat) :
  StronglySorted lt (merge_sort le (unique_by eq l))
  ∧ ∀ i, i ∈ merge_sort le (unique_by eq l) ↔ i ∈ l.
Proof.
  split.
  - apply StronglySorted_le_lt; [apply StronglySorted_merge_sort; apply _|].
    rewrite merge_sort_Permutation. apply NoDup_unique_by_eq.
  - intros i. by rewrite merge_sort_Permutation, elem_of_unique_by_eq.
Qed.

Lemma Sorted_le_lookup (l : list nat) :
  Sorted le l ↔ ∀ i a b, l !! i = Some a → l !! S i = Some b → a ≤ b.
Proof.
  split.
  - induction 1 as [|c l Hl IH Hc]; intros i a b Ha Hb; [done|].
    destruct i as [|i]; simpl in *.
    + simplify_eq. destruct l as [|d l]; simplify_eq/=. by apply HdRel_inv in Hc.
    + by apply (IH i).
  - induction l as [|c [|d l] IH]; intros Hall; [by repeat constructor..|].
    constructor.
    + apply IH. intros i a b Ha Hb. by apply (Hall (S i)).
    + constructor. by apply (Hall 0).
Qed.

(** *** Lists of ids *)

Lemma list_dtype_int64 (l : list nat) :
  list_dtype l = int64 ↔ Forall (fun i => Z.of_nat i < 2 ^ 63)%Z l.
Proof.
  unfold list_dtype. rewrite Forall_forall.
  destruct (forallb _ l) eqn:E.
  - split; [|done]. intros _ i Hi. rewrite forallb_forall in E.
    apply list_elem_of_In, E in Hi. lia.
  - split; [by case_match|]. intros Hall. exfalso.
    apply not_true_iff_false in E. apply E, forallb_forall.
    intros i Hi. apply list_elem_of_In, Hall in Hi. lia.
Qed.

(** A sorted list of ids passes the check, however numpy holds it. *)
Lemma is_sorted_ids (l : list nat) :
  Sorted le l → is_sorted_int (list_dtype l) (Z.of_nat <$> l) true = true.
Proof.
  intros Hl. apply is_sorted_int_lookup. intros i a b Ha Hb.
  rewrite list_lookup_fmap in Ha, Hb.
  apply fmap_Some in Ha as (a' & Ha & ->). apply fmap_Some in Hb as (b' & Hb & ->).
  pose proof (proj1 (Sorted_le_lookup l) Hl i a' b' Ha Hb) as Hab.
  destruct (list_dtype l) as [bits|bits|] eqn:Hdt; [| |simpl; lia].
  - assert (bits = 64%Z) as ->
      by (revert Hdt; unfold list_dtype, int64, uint64; repeat case_match; congruence).
    apply list_dtype_int64 in Hdt. rewrite Forall_forall in Hdt.
    pose proof (Hdt b' (list_elem_of_lookup_2 _ _ _ Hb)).
    rewrite wrap_Signed_exact; lia.
  - assert (bits = 64%Z) as ->
      by (revert Hdt; unfold list_dtype, int64, uint64; repeat case_match; congruence).
    by apply wrap_Unsigned_nonneg.
Qed.


(** ** Float sums *)

#[global] Instance feq_equiv : Equivalence feq.
Proof.
  split.
  - intros [x|]; simpl; [reflexivity|done].
  - intros [x|] [y|]; simpl; try done; intros; by symmetry.
  - intros [x|] [y|] [z|]; simpl; try done; intros; by etrans.
Qed.

#[global] Instance fadd_proper : Proper (feq ==> feq ==> feq) fadd.
Proof.
  intros [x|] [x'|] Hx [y|] [y'|] Hy; simpl in *; try done. by rewrite Hx, Hy.
Qed.

#[global] Instance fmul_proper : Proper (feq ==> feq ==> feq) fmul.
Proof.
  intros [x|] [x'|] Hx [y|] [y'|] Hy; simpl in *; try done. by rewrite Hx, Hy.
Qed.

Lemma fadd_assoc a b c : feq (fadd (fadd a b) c) (fadd a (fadd b c)).
Proof. destruct a, b, c; simpl; try done. ring. Qed.

Lemma fadd_0_l a : feq (fadd (Some 0%Q) a) a.
Proof. destruct a; simpl; [ring|done]. Qed.

Lemma foldl_fadd a l : feq (foldl fadd a l) (fadd a (foldr fadd (Some 0%Q) l)).
Proof.
  revert a. induction l as [|b l IH]; intros a; simpl.
  - destruct a; simpl; [ring|done].
  - rewrite IH. apply fadd_assoc.
Qed.

Lemma np_sum_cons a l : feq (np_sum (a :: l)) (fadd a (np_sum l)).
Proof.
  unfold np_sum. cbn [foldl]. rewrite !foldl_fadd, !fadd_0_l. reflexivity.
Qed.

Lemma riemann_sum_proper idx us us' end_time :
  Forall2 feq us us' →
  feq (riemann_sum (zip idx us) end_time) (riemann_sum (zip idx us') end_time).
Proof.
  intros Hus. revert idx. induction Hus as [|u u' us us' Hu Hus IH]; intros idx.
  - by destruct idx.
  - destruct idx as [|t idx]; simpl; [done|].
    apply fadd_proper; [|apply IH].
    apply fmul_proper; [done|].
    destruct idx as [|t' idx]; simpl; [done|]. destruct Hus; simpl; done.
Qed.

Lemma np_sum_riemann (idx : list Q) : ∀ (us : list float) end_time,
  length idx = length us →
  feq (np_sum (zip_with fmul us (Some <$> np_diff (idx ++ [end_time]))))
      (riemann_sum (zip idx us) end_time).
Proof.
  induction idx as [|t idx IH]; intros us end_time Hlen.
  - destruct us; [|done]. simpl. done.
  - destruct us as [|u us]; [done|]. simpl in Hlen.
    assert (np_diff ((t :: idx) ++ [end_time])
            = (match idx with [] => end_time | t' :: _ => t' end - t)%Q
                :: np_diff (idx ++ [end_time])) as ->.
    { unfold np_diff. simpl. destruct idx; done. }
    simpl. rewrite np_sum_cons. apply fadd_proper.
    + destruct idx as [|t' idx]; simpl; [done|]. destruct us; simpl in *; [lia|done].
    + apply IH. lia.
Qed.

(** ** Metric aggregator *)

Section Aggregator.
Context {Src : Type} `{EqDecision Src}.
Implicit Types (df : list (event Src)).

Lemma length_ffill_from rows : ∀ prev, length (ffill_from prev rows) = length rows.
Proof. induction rows as [|r rows IH]; intros prev; simpl; [done|]. by rewrite IH. Qed.

Lemma rank_of_src_in_df_shape df src_id fill with_time r_t :
  rank_of_src_in_df df src_id fill with_time = Ok r_t →
  columns r_t = merge_sort le (unique_by eq (ev_sink_id <$> df))
  ∧ index r_t = merge_sort Qle (unique_by Qeq (key_of with_time <$> df))
  ∧ length (index r_t) = length (values r_t).
Proof.
  unfold rank_of_src_in_df, with_rank.
  destruct (is_sorted (ev_t <$> df) true); simpl; [|done].
  intros [= <-].
  assert ((zip df (Zs_to_Q (transform (steps_to src_id) df))).*1 = df) as Hfst.
  { apply fst_zip. unfold Zs_to_Q, transform. by rewrite length_fmap, length_scatter. }
  assert (∀ p, columns (ffill p) = columns p ∧ index (ffill p) = index p
               ∧ length (values (ffill p)) = length (values p)) as Hff.
  { intros [i c v]. simpl. split_and!; [done..|].
    destruct v; simpl; [done|]. by rewrite length_ffill_from. }
  set (pt := pivot_table _ _).
  assert (columns pt = merge_sort le (unique_by eq (ev_sink_id <$> df))
          ∧ index pt = merge_sort Qle (unique_by Qeq (key_of with_time <$> df))
          ∧ length (index pt) = length (values pt)) as (Hc & Hi & Hl).
  { unfold pt, pivot_table. simpl. rewrite !list_fmap_compose, Hfst.
    split_and!; [done..|]. by rewrite length_fmap. }
  destruct fill; [|done].
  destruct (Hff pt) as (-> & -> & Hl'). rewrite Hl'. done.
Qed.

Lemma mapM_column_pos (cols fids : list nat) :
  fids ⊆ cols →
  mapM (column_pos cols) fids
  = Ok ((fun c => default 0 (fst <$> list_find (fun c' => c' = c) cols)) <$> fids).
Proof.
  induction fids as [|c fids IH]; intros Hsub; [done|].
  destruct (list_find_elem_of (fun c' => c' = c) cols c) as [[j c'] Hj];
    [apply Hsub; left|done|].
  assert (column_pos cols c = Ok j) as Hc by (unfold column_pos; by rewrite Hj).
  change (mapM (column_pos cols) (c :: fids))
    with (column_pos cols c ≫= fun y => mapM (column_pos cols) fids
                            ≫= fun k => mret (y :: k)).
  rewrite Hc. cbn [mbind result_bind]. rewrite IH.
  - cbn. by rewrite Hj.
  - intros x Hx. apply Hsub. by right.
Qed.

Lemma dot_row_utility np_sqrt (r_t : pivot) (s : Q) (row : list float) fids : ∀ q_vec,
  ¬ (s == 0)%Q →
  feq (np_sum (zip_with fmul
         ((fun j => default None (row !! j))
            <$> ((fun c => default 0 (fst <$> list_find (fun c' => c' = c) (columns r_t)))
                   <$> fids))
         ((fun q => fdiv q s ≫= np_sqrt) <$> q_vec)))
      (row_utility np_sqrt r_t fids q_vec s row).
Proof.
  intros q_vec Hs. revert q_vec.
  induction fids as [|c fids IH]; intros [|q q_vec]; try (cbn; reflexivity).
  cbn [fmap list_fmap zip_with]. rewrite np_sum_cons.
  unfold row_utility. cbn [zip zip_with foldr].
  apply fadd_proper; [|apply IH].
  unfold fdiv. destruct (Qeq_bool s 0) eqn:E; [by apply Qeq_bool_iff in E|].
  reflexivity.
Qed.

Lemma u_int_follower_ids_sorted df src_id f :
  Sorted le f → u_int_follower_ids df src_id (Some f) = Ok f.
Proof.
  intros Hf. unfold u_int_follower_ids.
  by rewrite (is_sorted_ids f Hf).
Qed.



(** C10: without a follower-id list and without [sim_opts], [u_int_opt]
    integrates over [own_sink_ids]: strictly ascending, and made of exactly
    the sinks that received a post of [src_id]; a follower that only received
    posts of other sources is left out.  On a log sorted by time, with one
    weight per such sink and [s] other than 0, the result is the Riemann sum
    of the row utility over these sinks alone: the columns of the other
    followers are not read. *)
Theorem u_int_opt_default_followers (np_sqrt : Q → float) df (src_id : option Src)
    (end_time : Q) (q_vec : list Q) (s : Q)
    (end_time' : option Q) (q_vec' : option (list Q)) (s' : option Q) :
  let fids := own_sink_ids df src_id in
  u_int_follower_ids df src_id None = Ok fids
  ∧ u_int_opt np_sqrt df src_id end_time' q_vec' s' None None
    = u_int_opt np_sqrt df src_id end_time' q_vec' s' (Some fids) None
  ∧ StronglySorted lt fids
  ∧ (∀ i, i ∈ fids ↔ ∃ e, e ∈ df ∧ ev_sink_id e = i ∧ Some (ev_src_id e) = src_id)
  ∧ (∀ i, (∀ e, e ∈ df → ev_sink_id e = i → Some (ev_src_id e) ≠ src_id) → i ∉ fids)
  ∧ (is_sorted (ev_t <$> df) true = true →
     ¬ (s == 0)%Q →
     length q_vec = length fids →
     ∃ r_t v,
       rank_of_src_in_df df src_id true true = Ok r_t
       ∧ u_int_opt np_sqrt df src_id (Some end_time) (Some q_vec) (Some s) None None
         = Ok v
       ∧ feq v (riemann_sum
                  (zip (index r_t)
                       (row_utility np_sqrt r_t fids q_vec s <$> values r_t))
                  end_time)).
Proof.
  intros fids.
  destruct (sorted_unique_spec
              (ev_sink_id <$> filter (fun e => Some (ev_src_id e) = src_id) df))
    as [Hsorted Hmem].
  fold (own_sink_ids df src_id) in Hsorted, Hmem. fold fids in Hsorted, Hmem.
  assert (∀ i, i ∈ fids ↔ ∃ e, e ∈ df ∧ ev_sink_id e = i ∧ Some (ev_src_id e) = src_id)
    as Hiff.
  { intros i. rewrite Hmem, list_elem_of_fmap. split.
    - intros (e & -> & He). apply list_elem_of_filter in He as [? ?]. eauto.
    - intros (e & He & <- & Hsrc). exists e. split; [done|].
      by apply list_elem_of_filter. }
  split_and!; [done| |done|done| |].
  - unfold u_int_opt.
    rewrite u_int_follower_ids_sorted; [done|].
    by apply Sorted_lt_le, StronglySorted_Sorted.
  - intros i Hno Hi. apply Hiff in Hi as (e & He & Hsink & Hsrc). by eapply Hno.
  - intros Hdf Hs0 Hlen.
    destruct (rank_of_src_in_df df src_id true true) as [r_t|] eqn:Hr.
    2:{ unfold rank_of_src_in_df, with_rank in Hr. by rewrite Hdf in Hr. }
    destruct (rank_of_src_in_df_shape _ _ _ _ _ Hr) as (Hcols & Hidx & Hrows).
    exists r_t. eexists. split_and!; [done| |].
    + unfold u_int_opt. cbn [u_int_follower_ids mbind result_bind].
      rewrite Hr. cbn [mbind result_bind]. unfold select_columns. fold fids.
      rewrite mapM_column_pos.
      2:{ rewrite Hcols. intros c Hc. apply sorted_unique_spec.
          apply Hiff in Hc as (e & He & <- & _). by apply list_elem_of_fmap_2. }
      cbn [mbind result_bind of_option]. unfold dot.
      rewrite decide_True by (by rewrite length_fmap).
      cbn [mbind result_bind]. reflexivity.
    + etrans; [apply np_sum_riemann; by rewrite !length_fmap|].
      apply riemann_sum_proper. rewrite <- list_fmap_compose.
      apply Forall2_fmap, Forall_Forall2_diag, Forall_forall. intros row _.
      by apply dot_row_utility.
Qed.

End Aggregator.

Lemma u_int_opt_default_followers_witness :
  own_sink_ids one_sided_log (Some "A") = [1]
  ∧ 2 ∈ (ev_sink_id <$> one_sided_log)
  ∧ (2 ∉ own_sink_ids one_sided_log (Some "A"))
  ∧ ∃ r_t v,
      rank_of_src_in_df one_sided_log (Some "A") true true = Ok r_t
      ∧ u_int_opt sqrt_micro one_sided_log (Some "A") (Some 3%Q) (Some [1%Q])
          (Some 1%Q) None None = Ok v
      ∧ feq v (riemann_sum
                 (zip (index r_t)
                      (row_utility sqrt_micro r_t [1] [1%Q] 1 <$> values r_t))
                 3).
Proof.
  destruct (u_int_opt_default_followers sqrt_micro one_sided_log (Some "A") 3 [1%Q] 1
              (Some 3%Q) (Some [1%Q]) (Some 1%Q))
    as (_ & _ & _ & _ & Hout & Hsum).
  split; [reflexivity|]. split; [repeat constructor|].
  split.
  - apply Hout. intros e He Hsink.
    repeat (apply elem_of_cons in He as [->|He]; [vm_compute in Hsink |- *; congruence|]).
    by apply elem_of_nil in He.
  - apply Hsum; [reflexivity|vm_compute; discriminate|reflexivity].
Defined.



(** ** Oracle: the dynamic program *)

(** *** Loops *)

Lemma for_each_seq_inv {St} (body : nat → St → result St) (I : nat → St → Prop) len :
  ∀ a st,
  I a st →
  (∀ i st, a ≤ i < a + len → I i st → ∃ st', body i st = Ok st' ∧ I (S i) st') →
  ∃ st', for_each body (seq a len) st = Ok st' ∧ I (a + len) st'.
Proof.
  induction len as [|len IH]; intros a st Ha Hstep; simpl.
  - exists st. by rewrite Nat.add_0_r.
  - destruct (Hstep a st) as (st1 & -> & H1); [lia|done|]. simpl.
    destruct (IH (S a) st1) as (st' & Hrun & H'); [done| |].
    + intros i st2 Hi. apply Hstep. lia.
    + exists st'. split; [done|]. by replace (a + S len) with (S a + len) by lia.
Qed.

Lemma for_each_range_down_inv {St} (body : nat → St → result St) (I : nat → St → Prop) m :
  ∀ st,
  I m st →
  (∀ i st, i < m → I (S i) st → ∃ st', body i st = Ok st' ∧ I i st') →
  ∃ st', for_each body (range_down m) st = Ok st' ∧ I 0 st'.
Proof.
  induction m as [|m IH]; intros st Hm Hstep; simpl; [eauto|].
  destruct (Hstep m st) as (st1 & -> & H1); [lia|done|]. simpl.
  apply IH; [done|]. intros i st2 Hi. apply Hstep. lia.
Qed.

(** *** Tables *)

Lemma get2_shaped R C J r k :
  shaped R C J → r < R → k < C → ∃ v, get2 J r k = Ok v.
Proof.
  intros [HR HC] Hr Hk. unfold get2.
  destruct (lookup_lt_is_Some_2 J r) as [row Hrow]; [lia|]. rewrite Hrow. simpl.
  assert (length row = C) as Hlen by (by eapply Forall_lookup in HC).
  destruct (lookup_lt_is_Some_2 row k) as [v Hv]; [lia|]. rewrite Hv. eauto.
Qed.

Lemma set2_shaped R C J r k v :
  shaped R C J → r < R → k < C →
  ∃ J', set2 J r k v = Ok J' ∧ shaped R C J' ∧ get2 J' r k = Ok v
        ∧ ∀ r' k', (r' ≠ r ∨ k' ≠ k) → get2 J' r' k' = get2 J r' k'.
Proof.
  intros [HR HC] Hr Hk. unfold set2.
  destruct (lookup_lt_is_Some_2 J r) as [row Hrow]; [lia|]. rewrite Hrow. simpl.
  assert (length row = C) as Hlen by (by eapply Forall_lookup in HC).
  rewrite decide_True by lia. eexists. split; [done|]. split_and!.
  - split; [by rewrite length_insert|].
    apply Forall_insert; [done|]. by rewrite length_insert.
  - unfold get2. rewrite list_lookup_insert_eq by lia. simpl.
    by rewrite list_lookup_insert_eq by lia.
  - intros r' k' Hne. unfold get2.
    destruct (decide (r' = r)) as [->|Hr'].
    + rewrite list_lookup_insert_eq, Hrow by lia. simpl.
      rewrite list_lookup_insert_ne by (intros ->; by destruct Hne). done.
    + by rewrite list_lookup_insert_ne by done.
Qed.

Lemma length_np_diff (x : list Q) : length (np_diff x) = length x - 1.
Proof. unfold np_diff. rewrite length_zip_with. destruct x; simpl; lia. Qed.

Lemma length_durations event_times end_time :
  length (durations event_times end_time) = length event_times + 2.
Proof.
  unfold durations. rewrite length_np_diff. simpl. rewrite length_app. simpl. lia.
Qed.

Lemma shaped_J_init n : shaped (n + 1) (n + 2) (J_init n).
Proof.
  unfold J_init. split.
  - by rewrite length_fmap, length_seq.
  - apply Forall_fmap, Forall_forall. intros r _. simpl.
    by rewrite length_insert, length_replicate.
Qed.

Lemma get2_J_init n r k :
  r ≤ n → k ≤ n + 1 →
  get2 (J_init n) r k = Ok (if decide (k = n + 1) then (sq r / 2)%Q else 0%Q).
Proof.
  intros Hr Hk. unfold get2, J_init.
  rewrite list_lookup_fmap, lookup_seq_lt by lia. simpl.
  case_decide as Hkn.
  - subst k. by rewrite list_lookup_insert_eq by (rewrite length_replicate; lia).
  - rewrite list_lookup_insert_ne by done.
    by rewrite lookup_replicate_2 by lia.
Qed.

Section DpProofs.
Variables (n : nat) (w : list Q) (q s : Q).
Hypothesis Hw : length w = n + 2.

Local Abbreviation table := (list (list Q)).

Lemma post_branch_shaped (J : table) k :
  shaped (n + 1) (n + 2) J → k ≤ n → ∃ lhs, post_branch s J k = Ok lhs.
Proof.
  intros HJ Hk. unfold post_branch.
  destruct (get2_shaped _ _ J 0 (k + 1) HJ) as [a ->]; [lia..|]. simpl. eauto.
Qed.

Lemma wait_branch_shaped (J : table) k r :
  shaped (n + 1) (n + 2) J → k ≤ n → r < n → ∃ rhs, wait_branch w q J k r = Ok rhs.
Proof.
  intros HJ Hk Hr. unfold wait_branch, get1.
  destruct (lookup_lt_is_Some_2 w (k + 1)) as [wk ->]; [lia|]. simpl.
  destruct (get2_shaped _ _ J (r + 1) (k + 1) HJ) as [b ->]; [lia..|]. simpl. eauto.
Qed.

(** Entries outside column [k] decide the branches of column [k - 1] and
    earlier; a write into column [k0 < k] leaves them alone. *)
Lemma entry_filled_frame (J J' : table) r k :
  (∀ r' k', k ≤ k' → get2 J' r' k' = get2 J r' k') →
  entry_filled w q s J r k → entry_filled w q s J' r k.
Proof.
  intros Hsame (lhs & rhs & Hl & Hr & Hv). exists lhs, rhs.
  unfold post_branch, wait_branch in *.
  rewrite !Hsame by lia. done.
Qed.

Lemma fill_column (J0 : table) k :
  shaped (n + 1) (n + 2) J0 → k ≤ n →
  ∃ J, for_each (fill_entry w q s k) (seq 0 (min (k + 1) n)) J0 = Ok J
       ∧ column_inv n w q s J0 k (min (k + 1) n) J.
Proof.
  intros HJ0 Hk.
  apply (for_each_seq_inv (fill_entry w q s k) (column_inv n w q s J0 k) (min (k + 1) n) 0 J0).
  - split_and!; [done|done|]. intros r' Hr'. lia.
  - intros i J [_ Hi] (HJ & Hsame & Hdone). unfold fill_entry.
    destruct (post_branch_shaped J k HJ Hk) as [lhs Hl].
    destruct (wait_branch_shaped J k i HJ Hk) as [rhs Hr]; [lia|].
    rewrite Hl, Hr. simpl.
    destruct (set2_shaped _ _ J i k (py_min lhs rhs) HJ) as (J' & -> & HJ' & Hget & Hother);
      [lia..|].
    exists J'. split; [done|]. split_and!; [done| |].
    + intros r' k' Hne. rewrite Hother by lia. apply Hsame. lia.
    + intros r' Hr'.
      assert (∀ r1 k1, k + 1 ≤ k1 → get2 J' r1 k1 = get2 J r1 k1) as Hnext
        by (intros; apply Hother; lia).
      destruct (decide (r' = i)) as [->|Hne].
      * exists lhs, rhs. unfold post_branch, wait_branch in *.
        rewrite !Hnext by lia. done.
      * destruct (Hdone r') as (l1 & r1 & H1 & H2 & H3); [lia|].
        exists l1, r1. unfold post_branch, wait_branch in *.
        rewrite !Hnext by lia. rewrite Hother by lia. done.
Qed.

Lemma backward_pass_inv :
  ∃ J, backward_pass n w q s (J_init n) = Ok J ∧ backward_inv n w q s 0 J.
Proof.
  unfold backward_pass.
  apply (for_each_range_down_inv _ (backward_inv n w q s) (n + 1)).
  - split_and!.
    + apply shaped_J_init.
    + intros r Hr. rewrite get2_J_init by lia. by rewrite decide_True.
    + intros k r ? ?. lia.
    + intros k r Hk Hr _. rewrite get2_J_init by lia. by rewrite decide_False by lia.
  - intros k J0 Hk (HJ0 & Hterm & Hfilled & Hzero).
    destruct (fill_column J0 k HJ0) as (J & -> & HJ & Hsame & Hdone); [lia|].
    exists J. split; [done|]. split_and!; [done| | |].
    + intros r Hr. rewrite Hsame by lia. by apply Hterm.
    + intros k' r Hk' Hkn Hr. destruct (decide (k' = k)) as [->|Hne].
      * by apply Hdone.
      * apply (entry_filled_frame J0); [|apply Hfilled; lia].
        intros r1 k1 Hk1. apply Hsame. lia.
    + intros k' r Hk' Hr Hcase. rewrite Hsame by lia. apply Hzero; lia.
Qed.

Lemma step_recorded_frame (J : table) ranks events ranks' events' j :
  ranks' !! j = ranks !! j → ranks' !! (j + 1) = ranks !! (j + 1) →
  events' !! j = events !! j →
  step_recorded w q s J ranks events j → step_recorded w q s J ranks' events' j.
Proof.
  intros H1 H2 H3 (rk & lhs & rhs & Hrk & Hl & Hr & Hrec).
  exists rk, lhs, rhs. rewrite H1, H2, H3. done.
Qed.

Lemma forward_pass_inv (J : table) :
  shaped (n + 1) (n + 2) J →
  ∃ st, forward_pass n w q s J = Ok st ∧ forward_inv n w q s J n st.
Proof.
  intros HJ. unfold forward_pass.
  apply (for_each_seq_inv (forward_step w q s J) (forward_inv n w q s J) n 0).
  - split_and!; simpl; [by rewrite length_replicate..| |intros; lia].
    exists 0. split; [|done]. by rewrite lookup_replicate_2 by lia.
  - intros k [ranks events] [_ Hk] (Hlr & Hle & (rk & Hrk & Hbound) & Hrec).
    simpl in *. unfold get1, set1.
    destruct (post_branch_shaped J k HJ) as [lhs Hl]; [lia|].
    destruct (wait_branch_shaped J k rk HJ) as [rhs Hr]; [lia..|].
    rewrite Hl, Hrk. simpl. rewrite Hr. simpl.
    destruct (Qlt_le_dec lhs rhs) as [Hlt|Hge] eqn:Hdec.
    + rewrite !decide_True by lia. simpl. eexists. split; [done|].
      split_and!; simpl; [by rewrite length_insert..| |].
      * exists 0. split; [|lia].
        replace (k + 1) with (S k) by lia. by rewrite list_lookup_insert_eq by lia.
      * intros j Hj. destruct (decide (j = k)) as [->|Hne].
        -- exists rk, lhs, rhs. rewrite Hdec.
           rewrite list_lookup_insert_ne, !list_lookup_insert_eq by lia. done.
        -- apply (step_recorded_frame J ranks events); [..|apply Hrec; lia];
             by rewrite list_lookup_insert_ne by lia.
    + rewrite !decide_True by lia. simpl. eexists. split; [done|].
      split_and!; simpl; [by rewrite length_insert..| |].
      * exists (rk + 1). split; [|lia].
        replace (S k) with (k + 1) by lia. by rewrite list_lookup_insert_eq by lia.
      * intros j Hj. destruct (decide (j = k)) as [->|Hne].
        -- exists rk, lhs, rhs. rewrite Hdec.
           rewrite list_lookup_insert_ne, !list_lookup_insert_eq by lia. done.
        -- apply (step_recorded_frame J ranks events); [..|apply Hrec; lia];
             by rewrite list_lookup_insert_ne by lia.
Qed.

End DpProofs.

Lemma py_min_Qmin a b a' b' :
  (a == a')%Q → (b == b')%Q → (py_min a b == Qmin a' b')%Q.
Proof.
  intros Ha Hb. unfold py_min. rewrite <- Ha, <- Hb.
  destruct (Qlt_le_dec b a) as [Hlt|Hle].
  - symmetry. apply Q.min_r. lra.
  - symmetry. by apply Q.min_l.
Qed.

Lemma durations_lookup event_times end_time k a b :
  (0%Q :: event_times ++ [end_time]) !! k = Some a →
  (0%Q :: event_times ++ [end_time]) !! (k + 1) = Some b →
  durations event_times end_time !! (k + 1) = Some (b - a)%Q.
Proof.
  intros Ha Hb. unfold durations, np_diff.
  apply lookup_zip_with_Some. exists b, a. split_and!; [done|..].
  - rewrite lookup_tail. simpl. by replace (k + 1) with (S k) in * by lia.
  - by replace (k + 1) with (S k) by lia.
Qed.

(** The corner [J[n, n]] is never written: it keeps its initial zero. *)
Lemma backward_pass_corner (event_times : list Q) (end_time q s : Q) :
  let n := length event_times in
  ∃ J, backward_pass n (durations event_times end_time) q s (J_init n) = Ok J
       ∧ get2 J n n = Ok 0%Q.
Proof.
  intros n.
  destruct (backward_pass_inv n _ q s (length_durations event_times end_time))
    as (J & HJ & _ & _ & _ & Hzero).
  exists J. split; [done|]. apply Hzero; lia.
Qed.

(** C2 (defect of the code): one competing event at [t = 1], [end_time = 2],
    [q = s = 1].  The table has the rows 0 and 1.  The corner [J[1, 1]], the
    state reached by never posting, is not written and keeps its initial 0;
    the recurrence claimed for it would read [J[2, 2]], past the last row.  So
    the backward pass as the specification states it does not hold. *)
Theorem backward_pass_misses_corner :
  ∃ J, backward_pass 1 (durations [1%Q] 2) 1 1 (J_init 1) = Ok J
    ∧ get2 J 1 1 = Ok 0%Q
    ∧ get2 J 2 2 = Raise IndexError
    ∧ ¬ recurrence_at (durations [1%Q] 2) 1 1 J 1 1
    ∧ ¬ recurrence_claim [1%Q] 2 1 1.
Proof.
  eexists. split; [vm_compute; reflexivity|].
  split_and!; [reflexivity|reflexivity| |].
  - intros (v & a & b & wk & _ & _ & Hb & _). vm_compute in Hb. discriminate Hb.
  - intros (J & HJ & _ & Hrec). vm_compute in HJ. injection HJ as <-.
    destruct (Hrec 1 1) as (v & a & b & wk & _ & _ & Hb & _); [cbn; lia..|].
    vm_compute in Hb. discriminate Hb.
Qed.

(** What the backward pass does establish, for every input: it returns a
    table whose terminal column is [J[r, n+1] = r^2 / 2] for [0 <= r <= n] and
    which satisfies the recurrence at every [k <= n] and every [r <= k] with
    [r <= n - 1]; [w[k+1]] is the time from event [k] to event [k + 1], with
    time 0 for event 0 and [end_time] for event [n + 1]. *)
Lemma backward_pass_recurrence (event_times : list Q) (end_time q s : Q) :
  let n := length event_times in
  let w := durations event_times end_time in
  ∃ J, backward_pass n w q s (J_init n) = Ok J
    ∧ (∀ r, r ≤ n → get2 J r (n + 1) = Ok (sq r / 2)%Q)
    ∧ (∀ k r, k ≤ n → r ≤ k → r < n → recurrence_at w q s J r k)
    ∧ (∀ k, k ≤ n → ∃ a b,
         (0%Q :: event_times ++ [end_time]) !! k = Some a
         ∧ (0%Q :: event_times ++ [end_time]) !! (k + 1) = Some b
         ∧ w !! (k + 1) = Some (b - a)%Q).
Proof.
  intros n w.
  destruct (backward_pass_inv n w q s (length_durations _ _))
    as (J & HJ & Hshape & Hterm & Hfilled & _).
  exists J. split_and!; [done|done| |].
  - intros k r Hk Hr Hrn.
    destruct (Hfilled k r) as (lhs & rhs & Hl & Hrhs & Hv); [lia..|].
    unfold post_branch, wait_branch, get1 in *.
    destruct (get2 J 0 (k + 1)) as [a|] eqn:Ea; [|done].
    destruct (w !! (k + 1)) as [wk|] eqn:Ew; [|done]. simpl in *.
    destruct (get2 J (r + 1) (k + 1)) as [b|] eqn:Eb; [|done]. simpl in *.
    simplify_eq. eexists _, a, b, wk. split_and!; [done..|].
    apply py_min_Qmin; [|by field]. by field.
  - intros k Hk.
    assert (length (0%Q :: event_times ++ [end_time]) = n + 2) as Hlen
      by (simpl; rewrite length_app; simpl; lia).
    destruct (lookup_lt_is_Some_2 (0%Q :: event_times ++ [end_time]) k) as [a Ha]; [lia|].
    destruct (lookup_lt_is_Some_2 (0%Q :: event_times ++ [end_time]) (k + 1)) as [b Hb];
      [lia|].
    exists a, b. split_and!; [done..|]. by apply durations_lookup.
Qed.

(** With one follower, a log sorted by time, a weight vector of one entry and
    at most a million events, [oracle_ranking] returns the schedule of the
    dynamic program over the event times and the cost [J[0, 0]]. *)
Lemma oracle_ranking_runs_dp {Src} `{EqDecision Src} (df : list (event Src))
    (sim_opts : SimOpts Src) (q : Q) :
  length (oracle_follower_ids df None) = 1 →
  is_sorted (ev_t <$> df) true = true →
  so_q_vec sim_opts = [q] →
  (Z.of_nat (length (group_event_times df)) ≤ 1000000)%Z →
  ∃ run cost,
    oracle_dp (group_event_times df) (so_end_time sim_opts) q (so_s sim_opts) = Ok run
    ∧ get2 (dp_J run) 0 0 = Ok cost
    ∧ oracle_ranking df sim_opts None None
      = Ok (OracleRun
              {| od_ranks := dp_ranks run;
                 od_events := dp_events run;
                 od_at := 0%Q :: group_event_times df;
                 od_t := 0%Q :: group_event_times df;
                 od_t_delta :=
                   tail (durations (group_event_times df) (so_end_time sim_opts)) |}
              cost).
Proof.
  intros Hone Hsorted Hq Hn.
  set (times := group_event_times df) in *. set (n := length times) in *.
  set (w := durations times (so_end_time sim_opts)).
  assert (length w = n + 2) as Hw by apply length_durations.
  destruct (backward_pass_inv n w q (so_s sim_opts) Hw) as (J & HJ & Hinv).
  destruct (forward_pass_inv n w q (so_s sim_opts) Hw J (proj1 Hinv))
    as ([ranks events] & Hfw & _).
  destruct (get2_shaped _ _ J 0 0 (proj1 Hinv)) as [cost Hcost]; [lia..|].
  assert (oracle_dp times (so_end_time sim_opts) q (so_s sim_opts)
          = Ok (DpRun J ranks events)) as Hdp.
  { unfold oracle_dp. fold n w. rewrite HJ. cbn [mbind result_bind]. by rewrite Hfw. }
  exists (DpRun J ranks events), cost. split; [done|]. split; [done|].
  unfold oracle_ranking. cbn [omit_sources].
  rewrite bool_decide_eq_true_2 by done. cbn [assert mbind result_bind of_option].
  rewrite Hsorted. cbn [assert mbind result_bind]. fold times.
  rewrite decide_False by lia.
  rewrite Hq. cbn [scalar_weight mbind result_bind]. rewrite Hdp.
  cbn [mbind result_bind dp_J]. rewrite Hcost. done.
Qed.



(** *** Optimality away from the corner *)

Lemma best_cost_le_pattern q s ws : ∀ r u,
  length u = length ws → (best_cost q s ws r <= pattern_cost q s ws r u)%Q.
Proof.
  induction ws as [|wk ws IH]; intros r [|post u] Hlen; simplify_eq/=.
  - apply Qle_refl.
  - destruct post.
    + eapply Qle_trans; [apply Q.le_min_l|]. apply Qplus_le_r, IH. done.
    + eapply Qle_trans; [apply Q.le_min_r|]. apply Qplus_le_r, IH. done.
Qed.

Lemma best_cost_attained q s ws : ∀ r,
  ∃ u, length u = length ws ∧ (pattern_cost q s ws r u == best_cost q s ws r)%Q.
Proof.
  induction ws as [|wk ws IH]; intros r.
  - exists []. split; [done|]. simpl. reflexivity.
  - destruct (IH 0) as (u0 & Hl0 & H0). destruct (IH (r + 1)) as (u1 & Hl1 & H1).
    simpl.
    destruct (Qlt_le_dec (q / 2 * wk * sq (r + 1) + best_cost q s ws (r + 1))
                         (s / 2 + best_cost q s ws 0)) as [Hlt|Hle].
    + exists (false :: u1). split; [simpl; by rewrite Hl1|]. simpl.
      rewrite H1. symmetry. apply Q.min_r. lra.
    + exists (true :: u0). split; [simpl; by rewrite Hl0|]. simpl.
      rewrite H0. symmetry. by apply Q.min_l.
Qed.

Section Optimal.
Variables (n : nat) (w : list Q) (q s : Q).
Hypothesis Hw : length w = n + 2.

Lemma table_optimal_below_diagonal (J : list (list Q)) :
  backward_inv n w q s 0 J →
  ∀ d k r, k + d = n + 1 → r < k → r ≤ n →
  ∃ v, get2 J r k = Ok v ∧ (v == best_cost q s (drop (k + 1) w) r)%Q.
Proof.
  intros (Hshape & Hterm & Hfilled & _).
  induction d as [|d IH]; intros k r Hk Hr Hrn.
  - assert (k = n + 1) as -> by lia. exists (sq r / 2)%Q. split; [by apply Hterm|].
    rewrite drop_ge by lia. reflexivity.
  - destruct (Hfilled k r) as (lhs & rhs & Hl & Hrhs & Hv); [lia..|].
    unfold post_branch, wait_branch, get1 in *.
    destruct (IH (k + 1) 0) as (a & Ha & Hbest0); [lia..|].
    destruct (IH (k + 1) (r + 1)) as (b & Hb & Hbest1); [lia..|].
    rewrite Ha in Hl. rewrite Hb in Hrhs.
    destruct (w !! (k + 1)) as [wk|] eqn:Ew; [|done].
    cbn [mbind result_bind of_option] in Hl, Hrhs.
    injection Hl as <-. injection Hrhs as <-.
    eexists. split; [done|].
    rewrite (drop_S _ _ _ Ew). cbn [best_cost].
    replace (S (k + 1)) with (k + 1 + 1) by lia.
    apply py_min_Qmin.
    + rewrite Hbest0. by field.
    + rewrite Hbest1. by field.
Qed.

End Optimal.

(** Below the diagonal the table is exact: for [r < k] the entry [J[r, k]] is
    the cheapest cost over all patterns of decisions for the intervals that
    remain, attained by one of them. *)
Lemma backward_pass_optimal_below_diagonal (event_times : list Q) (end_time q s : Q) :
  let n := length event_times in
  let w := durations event_times end_time in
  ∃ J, backward_pass n w q s (J_init n) = Ok J
    ∧ ∀ k r, k ≤ n → r < k →
      ∃ v, get2 J r k = Ok v
        ∧ (∀ u, length u = n + 1 - k →
             (v <= pattern_cost q s (drop (k + 1) w) r u)%Q)
        ∧ (∃ u, length u = n + 1 - k
                ∧ (pattern_cost q s (drop (k + 1) w) r u == v)%Q).
Proof.
  intros n w.
  destruct (backward_pass_inv n w q s (length_durations _ _)) as (J & HJ & Hinv).
  exists J. split; [done|]. intros k r Hk Hr.
  destruct (table_optimal_below_diagonal n w q s (length_durations _ _) J Hinv
              (n + 1 - k) k r) as (v & Hv & Hbest); [lia..|].
  assert (length (drop (k + 1) w) = n + 1 - k) as Hlen
    by (rewrite length_drop; unfold w; rewrite length_durations; fold n; lia).
  exists v. split; [done|]. split.
  - intros u Hu. rewrite Hbest. apply best_cost_le_pattern. by rewrite Hlen.
  - destruct (best_cost_attained q s (drop (k + 1) w) r) as (u & Hu & Hcost).
    exists u. split; [by rewrite Hu|]. by rewrite Hcost, Hbest.
Qed.


(** *** The corner undercuts the optimum *)

(** Linear arithmetic with halves written as divisions. *)
Lemma half_nonneg x : (0 <= x)%Q → (0 <= x / 2)%Q.
Proof. intros Hx. unfold Qdiv. apply Qmult_le_0_compat; [done|]. by vm_compute. Qed.

Lemma half_nonneg_inv x : (0 <= x / 2)%Q → (0 <= x)%Q.
Proof.
  intros Hx. assert (x == x / 2 * 2)%Q as -> by field.
  apply Qmult_le_0_compat; [done|]. by vm_compute.
Qed.

Ltac lra_half :=
  repeat match goal with
         | |- context [(?x / 2)%Q] =>
             let h := fresh "h" in set (h := (x / 2)%Q) in *; clearbody h
         | H : context [(?x / 2)%Q] |- _ =>
             let h := fresh "h" in set (h := (x / 2)%Q) in *; clearbody h
         end;
  lra.

Lemma py_min_le_r a b : (py_min a b <= b)%Q.
Proof. unfold py_min. destruct (Qlt_le_dec b a); [apply Qle_refl|done]. Qed.

Lemma sq_nonneg r : (0 <= sq r)%Q.
Proof. unfold sq, Qle, inject_Z. cbn [Qnum Qden]. nia. Qed.

Lemma sq_le r r' : r ≤ r' → (sq r <= sq r')%Q.
Proof. intros Hr. unfold sq, Qle, inject_Z. cbn [Qnum Qden]. nia. Qed.

Lemma wait_nonneg q wk r : (0 <= q)%Q → (0 <= wk)%Q → (0 <= q / 2 * wk * sq r)%Q.
Proof.
  intros Hq Hwk. apply Qmult_le_0_compat; [|apply sq_nonneg].
  apply Qmult_le_0_compat; [|done].
  by apply half_nonneg.
Qed.

Lemma never_post_cost q s ws : ∀ r,
  (pattern_cost q s ws r (replicate (length ws) false)
   == accrued_wait q ws r + sq (r + length ws) / 2)%Q.
Proof.
  induction ws as [|wk ws IH]; intros r; cbn [pattern_cost accrued_wait best_cost length replicate app].
  - rewrite Nat.add_0_r. ring.
  - rewrite IH. replace (r + 1 + length ws) with (r + S (length ws)) by lia. ring.
Qed.

Lemma accrued_wait_nonneg q ws : ∀ r,
  (0 <= q)%Q → Forall (fun wk => 0 <= wk)%Q ws → (0 <= accrued_wait q ws r)%Q.
Proof.
  induction ws as [|wk ws IH]; intros r Hq Hws; cbn [accrued_wait]; [apply Qle_refl|].
  apply Forall_cons in Hws as [Hwk Hws].
  pose proof (IH (r + 1) Hq Hws).
  pose proof (wait_nonneg q wk (r + 1) Hq Hwk). lra_half.
Qed.

Lemma accrued_wait_snoc q ws wk : ∀ r,
  (accrued_wait q (ws ++ [wk]) r
   == accrued_wait q ws r + q / 2 * wk * sq (r + length ws + 1))%Q.
Proof.
  induction ws as [|a ws IH]; intros r; cbn [pattern_cost accrued_wait best_cost length replicate app].
  - rewrite Nat.add_0_r. ring.
  - rewrite IH. replace (r + 1 + length ws + 1) with (r + S (length ws) + 1) by lia. ring.
Qed.

Lemma best_cost_nonneg q s ws : ∀ r,
  (0 <= q)%Q → (0 <= s)%Q → Forall (fun wk => 0 <= wk)%Q ws →
  (0 <= best_cost q s ws r)%Q.
Proof.
  induction ws as [|wk ws IH]; intros r Hq Hs Hws; cbn [best_cost accrued_wait length].
  - apply half_nonneg, sq_nonneg.
  - apply Forall_cons in Hws as [Hwk Hws]. pose proof (half_nonneg s Hs).
    pose proof (IH 0 Hq Hs Hws). pose proof (IH (r + 1) Hq Hs Hws).
    pose proof (wait_nonneg q wk (r + 1) Hq Hwk).
    apply Q.min_glb; lra_half.
Qed.

(** A pattern either posts, and pays at least [s/2], or never posts. *)
Lemma best_cost_lower q s ws : ∀ r,
  (0 <= q)%Q → (0 <= s)%Q → Forall (fun wk => 0 <= wk)%Q ws →
  (Qmin (s / 2) (accrued_wait q ws r + sq (r + length ws) / 2)
   <= best_cost q s ws r)%Q.
Proof.
  induction ws as [|wk ws IH]; intros r Hq Hs Hws; cbn [best_cost accrued_wait length].
  - rewrite Nat.add_0_r. eapply Qle_trans; [apply Q.le_min_r|]. lra_half.
  - apply Forall_cons in Hws as [Hwk Hws].
    pose proof (best_cost_nonneg q s ws 0 Hq Hs Hws) as H0.
    pose proof (IH (r + 1) Hq Hs Hws) as H1.
    pose proof (wait_nonneg q wk (r + 1) Hq Hwk) as Hwait.
    replace (r + S (length ws)) with (r + 1 + length ws) by lia.
    set (N := (accrued_wait q ws (r + 1) + sq (r + 1 + length ws) / 2)%Q) in *.
    apply Q.min_glb.
    + eapply Qle_trans; [apply Q.le_min_l|]. lra_half.
    + destruct (Q.min_spec (s / 2) N) as [[_ Hm]|[_ Hm]]; rewrite Hm in H1.
      * eapply Qle_trans; [apply Q.le_min_l|]. lra_half.
      * eapply Qle_trans; [apply Q.le_min_r|]. subst N. lra_half.
Qed.

Section Corner.
Variables (n : nat) (w : list Q) (q s : Q).
Hypothesis Hw : length w = n + 2.

Lemma diagonal_le_accrued (J : list (list Q)) :
  backward_inv n w q s 0 J →
  ∀ d k, k + d = n →
  ∃ v, get2 J k k = Ok v
       ∧ (v <= accrued_wait q (take d (drop (k + 1) w)) k)%Q.
Proof.
  intros (Hshape & Hterm & Hfilled & Hzero).
  induction d as [|d IH]; intros k Hk.
  - exists 0%Q. assert (k = n) as -> by lia. split; [apply Hzero; lia|].
    rewrite take_0. apply Qle_refl.
  - destruct (Hfilled k k) as (lhs & rhs & Hl & Hrhs & Hv); [lia..|].
    destruct (IH (k + 1)) as (b & Hb & Hle); [lia|].
    unfold wait_branch, get1 in Hrhs. rewrite Hb in Hrhs.
    destruct (w !! (k + 1)) as [wk|] eqn:Ew; [|done].
    cbn [mbind result_bind of_option] in Hrhs. injection Hrhs as <-.
    eexists. split; [done|].
    rewrite (drop_S _ _ _ Ew). cbn [take accrued_wait].
    replace (S (k + 1)) with (k + 1 + 1) by lia.
    eapply Qle_trans; [apply py_min_le_r|].
    assert (0.5 * q * wk * sq (k + 1) == q / 2 * wk * sq (k + 1))%Q as -> by field.
    lra_half.
Qed.

End Corner.

Lemma sq_pos r : 0 < r → (0 < sq r)%Q.
Proof. intros Hr. unfold sq, Qlt, inject_Z. cbn [Qnum Qden]. nia. Qed.

(** The diagonal, and [J[0, 0]] with it, inherits the unwritten corner: with
    non-negative durations and weight, whenever never posting costs at most
    [s/2] (so that it is the cheapest pattern), the returned cost is below the
    cost of every pattern of [n + 1] decisions, by at least the terminal
    penalty [(n + 1)^2 / 2]. *)
Lemma oracle_cost_below_optimum (event_times : list Q) (end_time q s : Q) :
  let n := length event_times in
  let ws := tail (durations event_times end_time) in
  (0 <= q)%Q →
  Forall (fun wk => 0 <= wk)%Q ws →
  (accrued_wait q ws 0 + sq (n + 1) / 2 <= s / 2)%Q →
  ∃ run cost,
    oracle_dp event_times end_time q s = Ok run
    ∧ get2 (dp_J run) 0 0 = Ok cost
    ∧ (cost + sq (n + 1) / 2 <= best_cost q s ws 0)%Q
    ∧ ∀ u, length u = n + 1 → (cost < pattern_cost q s ws 0 u)%Q.
Proof.
  intros n ws Hq Hws Hs.
  set (w := durations event_times end_time) in *.
  assert (length w = n + 2) as Hw by apply length_durations.
  destruct (backward_pass_inv n w q s Hw) as (J & HJ & Hinv).
  destruct (forward_pass_inv n w q s Hw J (proj1 Hinv)) as ([ranks events] & Hfw & _).
  destruct (diagonal_le_accrued n w q s Hw J Hinv n 0) as (cost & Hcost & Hle); [lia|].
  assert (drop (0 + 1) w = ws) as Hdrop by (unfold ws; by destruct w).
  rewrite Hdrop in Hle.
  assert (length ws = n + 1) as Hlen by (rewrite <- Hdrop, length_drop; lia).
  destruct (drop n ws) as [|wl [|? ?]] eqn:Hlast;
    [apply (f_equal length) in Hlast; rewrite length_drop in Hlast; simpl in Hlast; lia
    | |apply (f_equal length) in Hlast; rewrite length_drop in Hlast; simpl in Hlast; lia].
  assert (ws = take n ws ++ [wl]) as Hsplit by (by rewrite <- Hlast, take_drop).
  assert (0 <= wl)%Q as Hwl.
  { eapply Forall_forall in Hws; [exact Hws|]. rewrite Hsplit. apply elem_of_app. right. by left. }
  assert (accrued_wait q (take n ws) 0 <= accrued_wait q ws 0)%Q as Hacc.
  { rewrite Hsplit at 2. rewrite accrued_wait_snoc.
    pose proof (wait_nonneg q wl (0 + length (take n ws) + 1) Hq Hwl). lra. }
  pose proof (accrued_wait_nonneg q ws 0 Hq Hws) as Hnonneg.
  pose proof (sq_pos (n + 1)) as Hpos.
  assert (0 <= s)%Q as Hs0.
  { apply half_nonneg_inv.
    pose proof (half_nonneg (sq (n + 1)) (Qlt_le_weak _ _ (Hpos ltac:(lia)))). lra_half. }
  pose proof (best_cost_lower q s ws 0 Hq Hs0 Hws) as Hbest.
  rewrite Hlen in Hbest. cbn [Nat.add] in Hbest.
  rewrite Q.min_r in Hbest by done.
  assert (cost + sq (n + 1) / 2 <= best_cost q s ws 0)%Q as Hgap by lra_half.
  exists (DpRun J ranks events), cost.
  split; [unfold oracle_dp; fold n w; rewrite HJ; cbn [mbind result_bind]; by rewrite Hfw|].
  split; [done|]. split; [done|].
  intros u Hu.
  pose proof (best_cost_le_pattern q s ws 0 u ltac:(lia)) as Hpat.
  assert (0 < sq (n + 1) / 2)%Q as Hhalf.
  { unfold Qdiv. apply Qmult_lt_0_compat; [apply Hpos; lia|]. by vm_compute. }
  lra_half.
Qed.

(** C1 (defect of the code): one competing event at [t = 1], [end_time = 2],
    [q = 1], [s = 100].  The oracle returns the cost 1/2, while brute force
    gives 9/2, and no pattern of two decisions (one per interval) costs less
    than 9/2: the never-post path of the table ends in the unwritten corner
    [J[1, 1] = 0] and pays neither the last interval nor the final rank. *)
Theorem oracle_cost_below_brute_force :
  ∃ oracle_df cost,
    oracle_ranking [Event 1 1 "C" 1]
      {| so_src_id := "A"; so_end_time := 2; so_q_vec := [1%Q]; so_s := 100;
         so_sink_ids := [1] |} None None
    = Ok (OracleRun oracle_df cost)
    ∧ (cost == 1 # 2)%Q
    ∧ (brute_force_cost [1%Q] 2 1 100 == 9 # 2)%Q
    ∧ Forall (fun u => (9 # 2 <= pattern_cost 1 100 (tail (durations [1%Q] 2)) 0 u)%Q)
             (patterns 2).
Proof.
  eexists _, _. split; [vm_compute; reflexivity|].
  split_and!; [reflexivity|reflexivity|].
  repeat constructor; vm_compute; discriminate.
Qed.

(** ** Calibration loop *)

Section CalibrationProofs.
Context {Src : Type} `{EqDecision Src}.
Variable World : Type.
Variable wall_dataframe : SimOpts Src → World → list (event Src) * World.
Variables (target_events : Q) (sim_opts : SimOpts Src) (tol : Q).

Local Abbreviation step := (bisect_step wall_dataframe target_events sim_opts tol).
Local Abbreviation run := (get_oracle_df wall_dataframe).

Lemma stop_test_true opt_events :
  stop_test target_events tol opt_events = true →
  (¬ (target_events == 0)%Q
   ∧ (Qabs (inject_Z opt_events - target_events) / target_events < tol)%Q)
  ∨ opt_events = Qceiling target_events
  ∨ opt_events = Qfloor target_events.
Proof.
  unfold stop_test, rel_err_below. intros Hst.
  apply orb_prop in Hst as [Hst|Hst]; [apply orb_prop in Hst as [Hst|Hst]|].
  - left. destruct (Qeq_bool (target_events * 1) 0) eqn:E; [done|].
    apply bool_decide_eq_true in Hst. split.
    + intros H0. apply Qeq_bool_neq in E. apply E. rewrite H0. ring.
    + assert (target_events * 1 == target_events)%Q as Heq by ring.
      by rewrite Heq in Hst.
  - right; left. by apply bool_decide_eq_true in Hst.
  - right; right. by apply bool_decide_eq_true in Hst.
Qed.

Lemma stop_test_false_ne opt_events :
  stop_test target_events tol opt_events = false →
  ¬ (inject_Z opt_events == target_events)%Q.
Proof.
  unfold stop_test. intros Hst Heq.
  apply orb_false_elim in Hst as [Hst _]. apply orb_false_elim in Hst as [_ Hst].
  apply bool_decide_eq_false in Hst. apply Hst.
  rewrite <- Heq. by rewrite Qceiling_Z.
Qed.

Lemma bisect_step_cases s_lo s_hi world out :
  step s_lo s_hi world = Ok out →
  ∃ oracle_df cost world',
    run (update_s sim_opts ((s_lo + s_hi) / 2)%Q) true world = Ok (oracle_df, cost, world')
    ∧ out.2 = world'
    ∧ let opt_events := events_sum oracle_df in
      match out.1 with
      | inl res =>
          stop_test target_events tol opt_events = true
          ∧ res = {| found_s := ((s_lo + s_hi) / 2)%Q; found_cost := cost;
                     found_df := oracle_df |}
      | inr (s_lo', s_hi') =>
          stop_test target_events tol opt_events = false
          ∧ ((inject_Z opt_events < target_events)%Q
             ∧ s_lo' = s_lo ∧ s_hi' = ((s_lo + s_hi) / 2)%Q
             ∨ (target_events < inject_Z opt_events)%Q
               ∧ s_lo' = ((s_lo + s_hi) / 2)%Q ∧ s_hi' = s_hi)
      end.
Proof.
  unfold bisect_step.
  destruct (run _ true world) as [[[oracle_df cost] world']|] eqn:Hrun; [|done].
  simpl. intros Hout. exists oracle_df, cost, world'. split; [done|].
  destruct (stop_test _ _ _) eqn:Hst.
  - injection Hout as <-. simpl. done.
  - pose proof (stop_test_false_ne _ Hst) as Hne.
    destruct (Qlt_le_dec _ _) as [Hlt|Hge]; injection Hout as <-; simpl.
    + split; [done|]. split; [done|]. by left.
    + split; [done|]. split; [done|]. right. split; [|done].
      apply Qle_lt_or_eq in Hge as [?|Heq]; [done|]. exfalso. apply Hne. by symmetry.
Qed.

Lemma bisect_returns fuel : ∀ s_lo s_hi world res world',
  bisect wall_dataframe target_events sim_opts tol fuel s_lo s_hi world
  = Returns res world' →
  ∃ s_lo' s_hi' world0, step s_lo' s_hi' world0 = Ok (inl res, world').
Proof.
  induction fuel as [|fuel IH]; intros s_lo s_hi world res world'; simpl; [done|].
  destruct (step s_lo s_hi world) as [[[r|[lo hi]] w1]|] eqn:Hstep; [| |done].
  - intros [= <- <-]. eauto.
  - apply IH.
Qed.

Lemma find_opt_oracle_returns fuel world res world' :
  find_opt_oracle wall_dataframe target_events sim_opts tol fuel world
  = Returns res world' →
  ∃ s_lo s_hi world0, step s_lo s_hi world0 = Ok (inl res, world').
Proof.
  unfold find_opt_oracle.
  destruct (oracle_num_events _ _ _ _) as [[num w1]|]; [|done].
  match goal with |- context [match ?b with Returns _ _ => _ | _ => _ end] =>
    destruct b as [[lo hi] w2| |] end; [|done..].
  apply bisect_returns.
Qed.

Lemma stop_test_false opt_events :
  stop_test target_events tol opt_events = false →
  ¬ (¬ (target_events == 0)%Q
     ∧ (Qabs (inject_Z opt_events - target_events) / target_events < tol)%Q)
  ∧ opt_events ≠ Qceiling target_events
  ∧ opt_events ≠ Qfloor target_events.
Proof.
  unfold stop_test, rel_err_below. intros Hst.
  apply orb_false_elim in Hst as [Hst Hfloor].
  apply orb_false_elim in Hst as [Hrel Hceil].
  apply bool_decide_eq_false in Hceil, Hfloor. split_and!; [|done..].
  intros [H0 Hlt]. destruct (Qeq_bool (target_events * 1) 0) eqn:E.
  - apply Qeq_bool_iff in E. apply H0. rewrite <- E. ring.
  - apply bool_decide_eq_false in Hrel. apply Hrel.
    assert (target_events * 1 == target_events)%Q as Heq by ring.
    by rewrite Heq.
Qed.

Lemma bisect_step_narrows s_lo s_hi world s_lo' s_hi' world' :
  step s_lo s_hi world = Ok (inr (s_lo', s_hi'), world') →
  narrows wall_dataframe target_events sim_opts tol
    (s_lo, s_hi, world) (s_lo', s_hi', world').
Proof.
  intros Hstep. apply bisect_step_cases in Hstep
    as (oracle_df & cost & w1 & Hrun & Hw & Hst & Hcase). simpl in *. subst w1.
  apply stop_test_false in Hst as (Hrel & Hceil & Hfloor).
  by eapply narrows_step.
Qed.

(** The bisection loop run on [fuel] iterations: narrowing iterations, as many
    as there is fuel, or fewer and then one that stops. *)
Lemma bisect_iterations fuel : ∀ s_lo s_hi world,
  match bisect wall_dataframe target_events sim_opts tol fuel s_lo s_hi world with
  | Returns res world' =>
      ∃ k s_lo' s_hi' world0,
        k < fuel
        ∧ nsteps (narrows wall_dataframe target_events sim_opts tol) k
            (s_lo, s_hi, world) (s_lo', s_hi', world0)
        ∧ step s_lo' s_hi' world0 = Ok (inl res, world')
  | Raises _ => True
  | OutOfFuel =>
      ∃ st, nsteps (narrows wall_dataframe target_events sim_opts tol) fuel
              (s_lo, s_hi, world) st
  end.
Proof.
  induction fuel as [|fuel IH]; intros s_lo s_hi world; simpl.
  - eexists. constructor.
  - destruct (step s_lo s_hi world) as [[[r|[lo hi]] w1]|] eqn:Hstep; [| |done].
    + exists 0, s_lo, s_hi, world. split_and!; [lia|constructor|done].
    + apply bisect_step_narrows in Hstep. specialize (IH lo hi w1).
      destruct (bisect _ _ _ _ fuel lo hi w1) as [res w'| |]; [|done|].
      * destruct IH as (k & lo' & hi' & w0 & Hk & Hsteps & Hstop).
        exists (S k), lo', hi', w0. split_and!; [lia| |done].
        by eapply nsteps_l.
      * destruct IH as [st Hsteps]. exists st. by eapply nsteps_l.
Qed.

(** C8: when [find_opt_oracle] returns, the returned data frame is the
    oracle's run at the returned [s], and its event count meets the stopping
    condition: relative error to the target below [tol], or equal to the
    ceiling of the target, or equal to its floor; the result is the one of
    the bisection loop, started on some bracket.  The iterations of that loop
    narrow the bracket: when the loop returns, it ran fewer iterations than it
    was allowed, each of which did not stop and moved [s_hi] to the midpoint
    (count below the target) or [s_lo] to the midpoint (count above), and
    then stopped at the midpoint of the bracket so reached; when it runs out
    of iterations, all of them were such narrowing iterations. *)
Theorem find_opt_oracle_stop_condition (fuel : nat) (world : World) (res : found)
    (world' : World)
    (fuel1 : nat) (s_lo1 s_hi1 : Q) (world1 : World) (res1 : found) (world1' : World)
    (fuel2 : nat) (s_lo2 s_hi2 : Q) (world2 : World) :
  (find_opt_oracle wall_dataframe target_events sim_opts tol fuel world
   = Returns res world' →
   let opt_events := events_sum (found_df res) in
   (∃ world0, run (update_s sim_opts (found_s res)) true world0
              = Ok (found_df res, found_cost res, world'))
   ∧ ((¬ (target_events == 0)%Q
       ∧ (Qabs (inject_Z opt_events - target_events) / target_events < tol)%Q)
      ∨ opt_events = Qceiling target_events
      ∨ opt_events = Qfloor target_events)
   ∧ ∃ s_lo s_hi world0,
       bisect wall_dataframe target_events sim_opts tol fuel s_lo s_hi world0
       = Returns res world')
  ∧ (bisect wall_dataframe target_events sim_opts tol fuel1 s_lo1 s_hi1 world1
     = Returns res1 world1' →
     ∃ k s_lo s_hi world0,
       k < fuel1
       ∧ nsteps (narrows wall_dataframe target_events sim_opts tol) k
           (s_lo1, s_hi1, world1) (s_lo, s_hi, world0)
       ∧ found_s res1 = ((s_lo + s_hi) / 2)%Q
       ∧ run (update_s sim_opts (found_s res1)) true world0
         = Ok (found_df res1, found_cost res1, world1'))
  ∧ (bisect wall_dataframe target_events sim_opts tol fuel2 s_lo2 s_hi2 world2
     = OutOfFuel →
     ∃ st, nsteps (narrows wall_dataframe target_events sim_opts tol) fuel2
             (s_lo2, s_hi2, world2) st).
Proof.
  split_and!.
  - intros Hret. pose proof Hret as Hloop.
    apply find_opt_oracle_returns in Hret as (lo & hi & w0 & Hstep).
    apply bisect_step_cases in Hstep
      as (oracle_df & cost & w1 & Hrun & Hw & Hst & ->). simpl in *. subst w1.
    split; [eauto|]. split; [by apply stop_test_true|].
    revert Hloop. unfold find_opt_oracle.
    destruct (oracle_num_events _ _ _ _) as [[num w1]|]; [|done].
    match goal with |- context [match ?b with Returns _ _ => _ | _ => _ end] =>
      destruct b as [[lo' hi'] w2| |] end; [|done..].
    eauto.
  - intros Hret. pose proof (bisect_iterations fuel1 s_lo1 s_hi1 world1) as Hit.
    rewrite Hret in Hit. destruct Hit as (k & lo & hi & w0 & Hk & Hsteps & Hstop).
    apply bisect_step_cases in Hstop
      as (oracle_df & cost & w1 & Hrun & Hw & Hst & ->). simpl in *. subst w1.
    exists k, lo, hi, w0. done.
  - intros Hout. pose proof (bisect_iterations fuel2 s_lo2 s_hi2 world2) as Hit.
    by rewrite Hout in Hit.
Qed.

End CalibrationProofs.

Lemma find_opt_oracle_stop_condition_witness :
  ∃ res res1,
    find_opt_oracle calm_wall 1 calm_opts 0.01 8 tt = Returns res tt
    ∧ ((¬ (1 == 0)%Q
        ∧ (Qabs (inject_Z (events_sum (found_df res)) - 1) / 1 < 0.01)%Q)
       ∨ events_sum (found_df res) = Qceiling 1
       ∨ events_sum (found_df res) = Qfloor 1)
    ∧ bisect calm_wall 1 calm_opts 0.01 8 0 16 tt = Returns res1 tt
    ∧ (∃ k s_lo s_hi world0,
         k < 8
         ∧ nsteps (narrows calm_wall 1 calm_opts 0.01) k (0%Q, 16%Q, tt)
             (s_lo, s_hi, world0)
         ∧ found_s res1 = ((s_lo + s_hi) / 2)%Q
         ∧ get_oracle_df calm_wall (update_s calm_opts (found_s res1)) true world0
           = Ok (found_df res1, found_cost res1, tt))
    ∧ bisect calm_wall 1 calm_opts 0.01 3 1 3 tt = OutOfFuel
    ∧ ∃ st, nsteps (narrows calm_wall 1 calm_opts 0.01) 3 (1%Q, 3%Q, tt) st.
Proof.
  destruct (find_opt_oracle calm_wall 1 calm_opts 0.01 8 tt) as [res []| |] eqn:E;
    [|vm_compute in E; discriminate E..].
  destruct (bisect calm_wall 1 calm_opts 0.01 8 0 16 tt) as [res1 []| |] eqn:E1;
    [|vm_compute in E1; discriminate E1..].
  assert (bisect calm_wall 1 calm_opts 0.01 3 1 3 tt = OutOfFuel) as E2
    by (vm_compute; reflexivity).
  destruct (find_opt_oracle_stop_condition unit calm_wall 1 calm_opts 0.01 8 tt res tt
              8 0 16 tt res1 tt 3 1 3 tt) as (H1 & H2 & H3).
  specialize (H1 E). cbv zeta in H1. destruct H1 as (_ & Hstop & _).
  exists res, res1. split; [reflexivity|].
  split; [exact Hstop|].
  split; [reflexivity|]. split; [exact (H2 E1)|].
  split; [exact E2|exact (H3 E2)].
Defined.

(** ** Sorting rationals *)

#[global] Instance Qle_transitive : Transitive Qle := Qle_trans.
#[global] Instance Qle_total : Total Qle.
Proof. intros x y. destruct (Qlt_le_dec x y); [left; by apply Qlt_le_weak|by right]. Qed.

Lemma StronglySorted_sym_Permutation {A} (R : relation A) `{!Symmetric R} (l l' : list A) :
  l ≡ₚ l' → StronglySorted R l → StronglySorted R l'.
Proof.
  induction 1 as [|a l l' Hp IH|a b l|l1 l2 l3 _ IH1 _ IH2]; intros Hs.
  - done.
  - apply StronglySorted_inv in Hs as [Hs Ha]. constructor; [by apply IH|].
    by rewrite <- Hp.
  - apply StronglySorted_inv in Hs as [Hs Hb].
    apply StronglySorted_inv in Hs as [Hs Ha].
    apply Forall_cons in Hb as [Hba Hb].
    repeat constructor; try done; by symmetry.
  - by apply IH2, IH1.
Qed.

Lemma StronglySorted_filter {A} (R : relation A) (P : A → Prop) `{!∀ x, Decision (P x)}
    (l : list A) :
  StronglySorted R l → StronglySorted R (filter P l).
Proof.
  induction 1 as [|a l Hl IH Ha]; [constructor|].
  rewrite filter_cons. case_decide; [|done].
  constructor; [done|]. apply Forall_forall. intros b [_ Hb]%list_elem_of_filter.
  by eapply Forall_forall in Ha.
Qed.

Lemma unique_by_Qeq_distinct (l : list Q) :
  StronglySorted (fun a b => ¬ (a == b)%Q) (unique_by Qeq l).
Proof.
  induction l as [|a l IH]; simpl; [constructor|].
  constructor; [by apply StronglySorted_filter|].
  apply Forall_forall. intros b Hb. by apply list_elem_of_filter in Hb as [? _].
Qed.

Lemma elem_of_unique_by_Qeq (l : list Q) x :
  (x ∈ unique_by Qeq l → x ∈ l)
  ∧ (x ∈ l → ∃ y, y ∈ unique_by Qeq l ∧ (y == x)%Q).
Proof.
  induction l as [|a l [IH1 IH2]]; simpl.
  - split; [done|]. by intros ?%elem_of_nil.
  - split.
    + intros [->|Hx%list_elem_of_filter]%elem_of_cons; [left|right]. by apply IH1, Hx.
    + intros [->|Hx]%elem_of_cons; [exists a; split; [left|reflexivity]|].
      destruct (IH2 Hx) as (y & Hy & Hyx).
      destruct (decide (a == y)%Q) as [Hay|Hay].
      * exists a. split; [left|]. by rewrite Hay.
      * exists y. split; [|done]. right. by apply list_elem_of_filter.
Qed.

Lemma StronglySorted_Qle_Qlt (l : list Q) :
  StronglySorted Qle l → StronglySorted (fun a b => ¬ (a == b)%Q) l →
  StronglySorted Qlt l.
Proof.
  induction 1 as [|a l Hl IH Ha]; intros Hd; [constructor|].
  apply StronglySorted_inv in Hd as [Hd Hna].
  constructor; [by apply IH|].
  apply Forall_forall. intros b Hb.
  eapply Forall_forall in Ha, Hna; [|done..].
  apply Qle_lt_or_eq in Ha as [?|?]; done.
Qed.

(** The sorted distinct values of a list of rationals, as [pivot_table] makes
    its index: strictly increasing, and up to equality of rationals exactly
    the values of the list. *)
Lemma sorted_unique_Q_spec (l : list Q) :
  let idx := merge_sort Qle (unique_by Qeq l) in
  StronglySorted Qlt idx
  ∧ (∀ i, i ∈ idx → i ∈ l)
  ∧ (∀ x, x ∈ l → ∃ i, i ∈ idx ∧ (i == x)%Q).
Proof.
  intros idx. subst idx. split_and!.
  - apply StronglySorted_Qle_Qlt; [apply StronglySorted_merge_sort; apply _|].
    assert (Symmetric (fun a b : Q => ¬ (a == b)%Q)) as Hsym
      by (intros a b Hab Hba; apply Hab; by symmetry).
    apply (StronglySorted_sym_Permutation _ (unique_by Qeq l));
      [by rewrite merge_sort_Permutation|apply unique_by_Qeq_distinct].
  - intros i. rewrite merge_sort_Permutation. apply elem_of_unique_by_Qeq.
  - intros x Hx. destruct (proj2 (elem_of_unique_by_Qeq l x) Hx) as (y & Hy & Hyx).
    exists y. split; [|done]. by rewrite merge_sort_Permutation.
Qed.

(** ** Differences and sums *)

Lemma is_sorted_true_nondecreasing (x : list Q) :
  is_sorted x true = true → nondecreasing x.
Proof.
  induction x as [|a [|b x] IH]; intros Hs; [done..|].
  unfold is_sorted in *. cbn in Hs. apply andb_prop in Hs as [Hab Hs].
  split; [|by apply IH]. apply Qle_bool_iff in Hab. lra.
Qed.

Lemma nondecreasing_head_le (x : list Q) a b :
  nondecreasing (a :: x) → b ∈ x → (a <= b)%Q.
Proof.
  revert a. induction x as [|c x IH]; intros a Hx Hb; [by apply elem_of_nil in Hb|].
  destruct Hx as [Hac Hx]. apply elem_of_cons in Hb as [->|Hb]; [done|].
  eapply Qle_trans; [exact Hac|]. by apply IH.
Qed.

Lemma foldl_Qplus (a : Q) (l : list Q) : (foldl Qplus a l == a + sum_Q l)%Q.
Proof.
  unfold sum_Q. revert a. induction l as [|b l IH]; intros a; simpl; [ring|].
  rewrite (IH (a + b)%Q), (IH (0 + b)%Q). ring.
Qed.

Lemma sum_Q_cons (a : Q) (l : list Q) : (sum_Q (a :: l) == a + sum_Q l)%Q.
Proof. unfold sum_Q at 1. simpl. rewrite foldl_Qplus. ring. Qed.

Lemma np_diff_cons (a b : Q) (l : list Q) :
  np_diff (a :: b :: l) = (b - a)%Q :: np_diff (b :: l).
Proof. reflexivity. Qed.

Lemma length_np_diff_snoc (l : list Q) (e : Q) : length (np_diff (l ++ [e])) = length l.
Proof. rewrite length_np_diff, length_app. simpl. lia. Qed.

Lemma np_diff_nonneg (l : list Q) : ∀ (a e : Q),
  StronglySorted Qlt (a :: l) → (∀ t, t ∈ a :: l → t <= e)%Q →
  Forall (Qle 0) (np_diff (a :: l ++ [e])).
Proof.
  induction l as [|b l IH]; intros a e Hs He.
  - cbn. constructor; [|done]. specialize (He a ltac:(left)). lra.
  - cbn [app]. rewrite np_diff_cons.
    apply StronglySorted_inv in Hs as [Hs Ha].
    apply Forall_cons in Ha as [Hab _].
    constructor; [lra|]. apply IH; [done|]. intros t Ht. apply He. by right.
Qed.

(** A sum of interval lengths weighted by indicators. *)
Lemma sum_Q_indicator_bounds (dt : list Q) : ∀ ind : list Q,
  Forall (fun i => 0 <= i <= 1)%Q ind → Forall (Qle 0) dt →
  (0 <= sum_Q (zip_with Qmult ind dt) <= sum_Q dt)%Q.
Proof.
  induction dt as [|d dt IH]; intros ind Hind Hdt.
  - destruct ind; cbn; lra.
  - apply Forall_cons in Hdt as [Hd Hdt].
    destruct ind as [|i ind].
    + cbn [zip_with]. rewrite sum_Q_cons.
      destruct (IH [] ltac:(constructor) Hdt) as [_ H2]. cbn in H2 |- *. lra.
    + apply Forall_cons in Hind as [Hi Hind]. cbn [zip_with].
      rewrite !sum_Q_cons. destruct (IH ind Hind Hdt). nra.
Qed.

Lemma sum_Q_indicator_mono (dt : list Q) : ∀ ind ind' : list Q,
  Forall2 Qle ind ind' → Forall (Qle 0) dt →
  (sum_Q (zip_with Qmult ind dt) <= sum_Q (zip_with Qmult ind' dt))%Q.
Proof.
  induction dt as [|d dt IH]; intros ind ind' Hind Hdt.
  - destruct Hind; cbn; lra.
  - apply Forall_cons in Hdt as [Hd Hdt].
    destruct Hind as [|i i' ind ind' Hi Hind]; [cbn; lra|].
    cbn [zip_with]. rewrite !sum_Q_cons. specialize (IH _ _ Hind Hdt). nra.
Qed.

(** ** Descending order and default weights *)

Lemma is_sorted_lookup (x : list Q) (ascending : bool) :
  is_sorted x ascending = true
  ↔ ∀ i a b, x !! i = Some a → x !! S i = Some b →
             if ascending then (a <= b)%Q else (b <= a)%Q.
Proof.
  unfold is_sorted. rewrite forallb_forall. split.
  - intros Hall i a b Ha Hb.
    assert (In (b - a)%Q (np_diff x)) as Hin.
    { apply list_elem_of_In, list_elem_of_lookup. exists i.
      apply lookup_zip_with_Some. exists b, a. by rewrite lookup_tail. }
    apply Hall, Qle_bool_iff in Hin. destruct ascending; lra.
  - intros Hall d Hd. apply list_elem_of_In, list_elem_of_lookup in Hd as [i Hi].
    apply lookup_zip_with_Some in Hi as (b & a & -> & Hb & Ha).
    rewrite lookup_tail in Hb. specialize (Hall i a b Ha Hb).
    apply Qle_bool_iff. destruct ascending; lra.
Qed.

(** X1: on an array of finite floats, the descending check accepts exactly
    the arrays in which every element is at most the one before it, ties
    included; the outcome is that of the ascending check on the reversed
    array; and an array passes both checks exactly when all its neighbours are
    equal. *)
Theorem is_sorted_descending (x : list Q) :
  (is_sorted x false = true
   ↔ ∀ i a b, x !! i = Some a → x !! S i = Some b → (b <= a)%Q)
  ∧ is_sorted x false = is_sorted (reverse x) true
  ∧ (is_sorted x true && is_sorted x false = true
     ↔ ∀ i a b, x !! i = Some a → x !! S i = Some b → (a == b)%Q).
Proof.
  split; [apply (is_sorted_lookup x false)|]. split.
  - apply eq_true_iff_eq. rewrite (is_sorted_lookup x false), (is_sorted_lookup _ true).
    split.
    + intros Hall i a b Ha Hb.
      pose proof (lookup_lt_Some _ _ _ Hb) as Hlt. rewrite length_reverse in Hlt.
      rewrite reverse_lookup in Ha, Hb by lia.
      apply (Hall (length x - S (S i))); [done|].
      by replace (S (length x - S (S i))) with (length x - S i) by lia.
    + intros Hall i a b Ha Hb.
      pose proof (lookup_lt_Some _ _ _ Hb) as Hlt.
      apply (Hall (length x - S (S i))).
      * rewrite reverse_lookup by lia.
        by replace (length x - S (length x - S (S i))) with (S i) by lia.
      * rewrite reverse_lookup by lia.
        by replace (length x - S (S (length x - S (S i)))) with i by lia.
  - rewrite andb_true_iff, (is_sorted_lookup x false), (is_sorted_lookup x true). split.
    + intros [H1 H2] i a b Ha Hb. specialize (H1 i a b Ha Hb).
      specialize (H2 i a b Ha Hb). simpl in *. lra.
    + intros Hall. split; intros i a b Ha Hb; specialize (Hall i a b Ha Hb); simpl; lra.
Qed.

Lemma sum_Q_replicate (n : nat) (c : Q) :
  (sum_Q (replicate n c) == inject_Z (Z.of_nat n) * c)%Q.
Proof.
  induction n as [|n IH].
  - cbn. ring.
  - cbn [replicate]. rewrite sum_Q_cons, IH, Nat2Z.inj_succ, <- Z.add_1_r, inject_Z_plus.
    change (inject_Z 1) with 1%Q. ring.
Qed.

(** X2: the default weight vector for [n] followers has [n] entries, each
    of them [1 / n^2]; for [n > 0] they are positive, and from two followers
    on they add up to less than 1: the default weights are not normalised. *)
Theorem def_q_vec_sum (n : nat) :
  0 < n →
  length (def_q_vec n) = n
  ∧ Forall (fun q => q == 1 / inject_Z (Z.of_nat n ^ 2) ∧ 0 < q)%Q (def_q_vec n)
  ∧ (2 ≤ n → (sum_Q (def_q_vec n) < 1)%Q).
Proof.
  intros Hn. unfold def_q_vec.
  assert (0 < inject_Z (Z.of_nat n))%Q as Hpos
    by (unfold Qlt, inject_Z; cbn; lia).
  assert (inject_Z (Z.of_nat n ^ 2) == inject_Z (Z.of_nat n) * inject_Z (Z.of_nat n))%Q
    as Hsq by (rewrite <- inject_Z_mult; f_equiv; lia).
  split_and!.
  - by rewrite length_fmap, length_replicate.
  - apply Forall_fmap, Forall_forall. intros one ->%elem_of_replicate_inv. cbn.
    split; [reflexivity|]. rewrite Hsq. apply Qlt_shift_div_l; nra.
  - intros Hn2.
    assert (2 <= inject_Z (Z.of_nat n))%Q as H2
      by (unfold Qle, inject_Z; cbn; lia).
    assert (sum_Q ((fun one => one / inject_Z (Z.of_nat n ^ 2)) <$> replicate n 1)
            == 1 / inject_Z (Z.of_nat n))%Q as ->.
    { rewrite fmap_replicate. etrans; [apply sum_Q_replicate|].
      rewrite Hsq. field. lra. }
    apply Qlt_shift_div_r; lra.
Qed.

Lemma def_q_vec_sum_witness :
  length (def_q_vec 3) = 3
  ∧ Forall (fun q => q == 1 / inject_Z (Z.of_nat 3 ^ 2) ∧ 0 < q)%Q (def_q_vec 3)
  ∧ (sum_Q (def_q_vec 3) < 1)%Q.
Proof.
  destruct (def_q_vec_sum 3 ltac:(lia)) as (H1 & H2 & H3).
  split; [exact H1|]. split; [exact H2|]. apply H3. lia.
Defined.

(** ** Cells of the rank table *)

Section TableCells.
Context {Src : Type} `{EqDecision Src}.
Implicit Types (df : list (event Src)).

Lemma where_lookup_bounds (src_id : option Src) (x : list Src) i a :
  np_where0 (eq_src src_id x) (arange1 (length x)) !! i = Some a →
  (0 ≤ a ≤ Z.of_nat (S i))%Z.
Proof.
  unfold np_where0. intros (b & j & -> & _ & Hj)%lookup_zip_with_Some.
  assert (i < length x) as Hi
    by (rewrite <- (length_arange1 (length x)); by eapply lookup_lt_Some).
  rewrite arange1_lookup in Hj by done. simplify_eq. destruct b; lia.
Qed.

Lemma running_max_bounds (m : list Z) k :
  (∀ i a, m !! i = Some a → (0 ≤ a ≤ Z.of_nat (S i))%Z) →
  (0 ≤ foldl Z.max 0 (take k m) ≤ Z.of_nat k)%Z.
Proof.
  intros Hm. induction k as [|k IH]; [simpl; lia|].
  destruct (m !! k) as [a|] eqn:Hk.
  - rewrite (take_S_r _ _ _ Hk), foldl_app. simpl. specialize (Hm _ _ Hk). lia.
  - apply lookup_ge_None in Hk. rewrite take_ge in IH |- * by lia. lia.
Qed.

(** Whatever the source, a rank is at least 0 and at most the position of the
    event in its stream. *)
Lemma steps_to_bounds (src_id : option Src) (x : list Src) :
  Forall (fun r => 0 ≤ r ≤ Z.of_nat (length x))%Z (steps_to src_id x).
Proof.
  apply Forall_lookup. intros i r Hi.
  assert (i < length x) as Hlt
    by (rewrite <- (length_steps_to src_id); by eapply lookup_lt_Some).
  unfold steps_to in Hi. apply lookup_zip_with_Some in Hi as (a & b & -> & Ha & Hb).
  rewrite arange1_lookup in Ha by done. simplify_eq.
  set (m := np_where0 _ _) in Hb.
  assert (∀ i a, m !! i = Some a → (0 ≤ a ≤ Z.of_nat (S i))%Z) as Hm
    by apply where_lookup_bounds.
  rewrite maximum_accumulate_lookup in Hb.
  - simplify_eq. pose proof (running_max_bounds m (S i) Hm). lia.
  - unfold m, np_where0, eq_src.
    rewrite length_zip_with, length_fmap, length_arange1. lia.
  - apply Forall_lookup. intros j a Hj. apply Hm in Hj. lia.
Qed.

Lemma scatter_Forall (P : Z → Prop) (res : nat → list Z) df :
  P 0%Z → (∀ g, Forall P (res g)) → ∀ seen, Forall P (scatter res seen df).
Proof.
  intros H0 Hres. induction df as [|e df IH]; intros seen; simpl; [done|].
  constructor; [|apply IH].
  destruct (res (ev_sink_id e) !! seen (ev_sink_id e)) as [a|] eqn:Ha; simpl; [|done].
  eapply Forall_lookup_1 in Ha; [done|apply Hres].
Qed.

Lemma transform_steps_to_bounds df (src_id : option Src) :
  Forall (fun r => 0 <= r <= inject_Z (Z.of_nat (length df)))%Q
         (Zs_to_Q (transform (steps_to src_id) df)).
Proof.
  unfold Zs_to_Q. apply Forall_fmap. unfold transform.
  apply (Forall_impl (fun r => 0 ≤ r ≤ Z.of_nat (length df))%Z).
  - apply scatter_Forall; [lia|]. intros g.
    eapply Forall_impl; [apply steps_to_bounds|]. intros r Hr. simpl in Hr.
    assert (length (group_src df g) ≤ length df)
      by (unfold group_src; rewrite length_fmap; apply length_filter).
    lia.
  - intros r Hr. simpl. unfold Qle, inject_Z. cbn [Qnum Qden]. lia.
Qed.

Lemma sum_Q_bounds (lo hi : Q) (l : list Q) :
  Forall (fun v => lo <= v <= hi)%Q l →
  (lo * inject_Z (Z.of_nat (length l)) <= sum_Q l
   <= hi * inject_Z (Z.of_nat (length l)))%Q.
Proof.
  induction 1 as [|v l Hv Hl IH].
  - unfold sum_Q. cbn [length foldl]. change (inject_Z (Z.of_nat 0)) with 0%Q. lra.
  - rewrite sum_Q_cons. cbn [length]. rewrite Nat2Z.inj_succ, <- Z.add_1_r, inject_Z_plus.
    change (inject_Z 1) with 1%Q. set (N := inject_Z (Z.of_nat (length l))) in *. lra.
Qed.

Lemma mean_Q_bounds (lo hi : Q) (l : list Q) :
  l ≠ [] → Forall (fun v => lo <= v <= hi)%Q l → (lo <= mean_Q l <= hi)%Q.
Proof.
  intros Hne Hl. pose proof (sum_Q_bounds lo hi l Hl) as [H1 H2].
  assert (0 < inject_Z (Z.of_nat (length l)))%Q as Hpos.
  { destruct l; [done|]. unfold Qlt, inject_Z. cbn [Qnum Qden length]. lia. }
  unfold mean_Q. fold (sum_Q l). split.
  - by apply Qle_shift_div_l.
  - by apply Qle_shift_div_r.
Qed.

Lemma mean_bounds (lo hi : Q) (l : list Q) v :
  Forall (fun v => lo <= v <= hi)%Q l → mean l = Some v → (lo <= v <= hi)%Q.
Proof.
  intros Hl Hv. destruct l as [|a l]; [done|]. simpl in Hv. simplify_eq.
  by apply mean_Q_bounds.
Qed.

Lemma fill_cell_cases (prev cur : float) :
  fill_cell prev cur = match cur with Some _ => cur | None => prev end.
Proof. by destruct cur. Qed.

Lemma ffill_from_Forall (P : float → Prop) rows : ∀ prev,
  Forall P prev → Forall (Forall P) rows → Forall (Forall P) (ffill_from prev rows).
Proof.
  induction rows as [|r rows IH]; intros prev Hprev Hrows; simpl; [done|].
  apply Forall_cons in Hrows as [Hr Hrows].
  assert (Forall P (zip_with fill_cell prev r)) as Hz.
  { apply Forall_lookup. intros i c (a & b & -> & Ha & Hb)%lookup_zip_with_Some.
    destruct b; simpl.
    - by eapply Forall_lookup_1 in Hb.
    - by eapply Forall_lookup_1 in Ha. }
  constructor; [done|]. by apply IH.
Qed.

Lemma ffill_from_lengths (C : nat) rows : ∀ prev,
  length prev = C → Forall (fun r => length r = C) rows →
  Forall (fun r => length r = C) (ffill_from prev rows).
Proof.
  induction rows as [|r rows IH]; intros prev Hprev Hrows; simpl; [done|].
  apply Forall_cons in Hrows as [Hr Hrows].
  assert (length (zip_with fill_cell prev r) = C) as Hz
    by (rewrite length_zip_with; lia).
  constructor; [done|]. by apply IH.
Qed.

Lemma ffill_from_Exists (C : nat) rows : ∀ prev,
  length prev = C → Forall (fun r => length r = C ∧ Exists is_Some r) rows →
  Forall (Exists is_Some) (ffill_from prev rows).
Proof.
  induction rows as [|r rows IH]; intros prev Hprev Hrows; simpl; [done|].
  apply Forall_cons in Hrows as [[Hr Hex] Hrows].
  assert (length (zip_with fill_cell prev r) = C) as Hz.
  { rewrite length_zip_with. unfold float in *. lia. }
  constructor; [|by apply IH].
  apply Exists_exists in Hex as (c & Hc & [v ->]).
  apply list_elem_of_lookup in Hc as [j Hj].
  assert (j < length prev) as Hlt by (apply lookup_lt_Some in Hj; lia).
  apply lookup_lt_is_Some in Hlt as [p Hp].
  apply Exists_exists. exists (Some v). split; [|done].
  apply list_elem_of_lookup. exists j.
  apply lookup_zip_with_Some. by exists p, (Some v).
Qed.

End TableCells.

Section TableRows.
Context {Src : Type} `{EqDecision Src}.
Implicit Types (df : list (event Src)).

(** What holds of every row: one cell per column, at least one cell that is
    not NaN, and every rank within [[lo, hi]]. *)
Local Abbreviation row_ok C lo hi :=
  (fun row : list float =>
     length row = C ∧ Exists is_Some row
     ∧ Forall (fun c : float => ∀ v, c = Some v → lo <= v <= hi)%Q row).

Lemma pivot_table_rows (key : event Src → Q) (ranked : list (event Src * Q)) lo hi :
  Forall (fun p => lo <= p.2 <= hi)%Q ranked →
  let pt := pivot_table key ranked in
  Forall (row_ok (length (columns pt)) lo hi) (values pt).
Proof.
  intros Hb pt. unfold pt, pivot_table. cbn [values columns].
  set (cols := merge_sort le _).
  apply Forall_fmap, Forall_forall. intros i Hi. cbn.
  split_and!.
  - by rewrite length_fmap.
  - rewrite merge_sort_Permutation in Hi.
    apply elem_of_unique_by_Qeq, list_elem_of_fmap in Hi as (p & -> & Hp).
    apply Exists_exists.
    exists (mean (snd <$> filter (fun p' => (key p'.1 == key p.1)%Q
                                         ∧ ev_sink_id p'.1 = ev_sink_id p.1) ranked)).
    split.
    + apply list_elem_of_fmap. exists (ev_sink_id p.1). split; [done|].
      unfold cols. apply sorted_unique_spec, list_elem_of_fmap. by exists p.
    + assert (p ∈ filter (fun p' => (key p'.1 == key p.1)%Q
                                   ∧ ev_sink_id p'.1 = ev_sink_id p.1) ranked) as Hin
        by (apply list_elem_of_filter; split; [split; [reflexivity|done]|done]).
      destruct (filter _ ranked) as [|q l]; [by apply elem_of_nil in Hin|]. by eexists.
  - apply Forall_fmap, Forall_forall. intros c _ v Hv. cbn in Hv.
    eapply mean_bounds; [|exact Hv].
    apply Forall_fmap, Forall_forall. intros p [_ Hp]%list_elem_of_filter.
    by eapply Forall_forall in Hb.
Qed.

Lemma ffill_rows (p : pivot) lo hi :
  Forall (row_ok (length (columns p)) lo hi) (values p) →
  Forall (row_ok (length (columns (ffill p))) lo hi) (values (ffill p)).
Proof.
  destruct p as [idx cols vals]. cbn [ffill values columns index].
  destruct vals as [|r rows]; [done|]. intros Hrows.
  apply Forall_cons in Hrows as [Hr Hrows]. constructor; [done|].
  destruct Hr as (Hlen & Hex & Hb).
  apply Forall_forall. intros row Hrow. split_and!.
  - eapply (Forall_forall (fun r => length r = length cols)); [|exact Hrow].
    apply ffill_from_lengths; [done|].
    eapply Forall_impl; [exact Hrows|]. by intros ? (? & _).
  - eapply (Forall_forall (Exists is_Some)); [|exact Hrow].
    apply (ffill_from_Exists (length cols)); [done|].
    eapply Forall_impl; [exact Hrows|]. by intros ? (? & ? & _).
  - eapply (Forall_forall (Forall _)); [|exact Hrow].
    apply ffill_from_Forall; [done|].
    eapply Forall_impl; [exact Hrows|]. by intros ? (_ & _ & ?).
Qed.

Lemma with_rank_sorted df src_id :
  is_sorted (ev_t <$> df) true = true →
  let ranked := zip df (Zs_to_Q (transform (steps_to src_id) df)) in
  with_rank df src_id = Ok ranked ∧ ranked.*1 = df
  ∧ Forall (fun p => 0 <= p.2 <= inject_Z (Z.of_nat (length df)))%Q ranked.
Proof.
  intros Hs ranked. unfold with_rank. rewrite Hs. split; [done|].
  assert (length (Zs_to_Q (transform (steps_to src_id) df)) = length df) as Hlen
    by (unfold Zs_to_Q, transform; by rewrite length_fmap, length_scatter).
  split; [apply fst_zip; lia|].
  apply Forall_forall. intros [e r] Hp. simpl.
  apply elem_of_zip_r in Hp.
  by eapply Forall_forall in Hp; [|apply transform_steps_to_bounds].
Qed.

Lemma rank_of_src_in_df_rows df src_id fill with_time r_t :
  rank_of_src_in_df df src_id fill with_time = Ok r_t →
  Forall (row_ok (length (columns r_t)) 0 (inject_Z (Z.of_nat (length df)))) (values r_t).
Proof.
  intros Hr.
  assert (is_sorted (ev_t <$> df) true = true) as Hs.
  { unfold rank_of_src_in_df, with_rank in Hr.
    by destruct (is_sorted (ev_t <$> df) true). }
  destruct (with_rank_sorted df src_id Hs) as (Hw & _ & Hb).
  unfold rank_of_src_in_df in Hr. rewrite Hw in Hr. cbn in Hr. simplify_eq.
  pose proof (pivot_table_rows (key_of with_time) _ _ _ Hb) as Hrows.
  destruct fill; [by apply ffill_rows|done].
Qed.

Lemma row_mean_bounds (row : list float) C lo hi :
  row_ok C lo hi row → ∃ m, row_mean row = Some m ∧ (lo <= m <= hi)%Q.
Proof.
  intros (_ & Hex & Hb). unfold row_mean.
  assert (Forall (fun v => lo <= v <= hi)%Q (omap id row)) as Hall.
  { apply Forall_forall. intros v Hv. apply list_elem_of_omap in Hv as (c & Hc & Hcv).
    eapply Forall_forall in Hb; [|exact Hc]. by apply Hb. }
  apply Exists_exists in Hex as (c & Hc & [v ->]).
  assert (v ∈ omap id row) as Hv by (apply list_elem_of_omap; by exists (Some v)).
  destruct (omap id row) as [|a l] eqn:E; [by apply elem_of_nil in Hv|].
  eexists. split; [done|]. by apply mean_Q_bounds.
Qed.

End TableRows.

(** ** Time in the top K and average rank *)

Section MetricProofs.
Context {Src : Type} `{EqDecision Src}.
Implicit Types (df : list (event Src)).

Lemma rank_index_sorted df src_id fill with_time r_t :
  rank_of_src_in_df df src_id fill with_time = Ok r_t →
  StronglySorted Qlt (index r_t)
  ∧ (∀ i, i ∈ index r_t → ∃ e, e ∈ df ∧ key_of with_time e = i)
  ∧ (∀ e, e ∈ df → ∃ i, i ∈ index r_t ∧ (i == key_of with_time e)%Q).
Proof.
  intros Hr. destruct (rank_of_src_in_df_shape _ _ _ _ _ Hr) as (_ & -> & _).
  destruct (sorted_unique_Q_spec (key_of with_time <$> df)) as (Hs & H1 & H2).
  split_and!; [done| |].
  - intros i Hi. apply H1, list_elem_of_fmap in Hi as (e & -> & He). eauto.
  - intros e He. apply H2, list_elem_of_fmap. eauto.
Qed.

(** On a log sorted by time the first row of the table is the time of the
    first event. *)
Lemma rank_index_head df e0 df' src_id fill r_t :
  df = e0 :: df' →
  rank_of_src_in_df df src_id fill true = Ok r_t →
  ∃ i idx', index r_t = i :: idx' ∧ (i == ev_t e0)%Q.
Proof.
  intros -> Hr.
  assert (nondecreasing (ev_t <$> e0 :: df')) as Hnd.
  { apply is_sorted_true_nondecreasing. unfold rank_of_src_in_df, with_rank in Hr.
    by destruct (is_sorted (ev_t <$> _) true). }
  destruct (rank_index_sorted _ _ _ _ _ Hr) as (Hs & H1 & H2).
  destruct (H2 e0 ltac:(left)) as (i & Hi & Hie). cbn [key_of] in Hie.
  destruct (index r_t) as [|i0 idx'] eqn:E; [by apply elem_of_nil in Hi|].
  exists i0, idx'. split; [done|].
  apply Qle_antisym.
  - apply elem_of_cons in Hi as [<-|Hi]; [lra|].
    apply StronglySorted_inv in Hs as [_ Hs].
    eapply Forall_forall in Hs; [|exact Hi]. lra.
  - destruct (H1 i0 ltac:(left)) as (e & He & Hke). cbn [key_of] in Hke. subst i0.
    apply elem_of_cons in He as [->|He]; [lra|].
    eapply nondecreasing_head_le; [exact Hnd|]. apply list_elem_of_fmap. eauto.
Qed.

Lemma rank_intervals_nonneg df src_id fill r_t (end_time : Q) :
  rank_of_src_in_df df src_id fill true = Ok r_t →
  (∀ e, e ∈ df → ev_t e <= end_time)%Q →
  Forall (Qle 0) (np_diff (index r_t ++ [end_time])).
Proof.
  intros Hr Hend. destruct (rank_index_sorted _ _ _ _ _ Hr) as (Hs & H1 & _).
  destruct (index r_t) as [|a l]; [constructor|].
  apply (np_diff_nonneg l a end_time Hs).
  intros t Ht. destruct (H1 t Ht) as (e & He & <-). by apply Hend.
Qed.

Lemma np_where_le_indicator (m : list float) (x : Q) :
  Forall (fun i => 0 <= i <= 1)%Q (np_where_le m x).
Proof.
  unfold np_where_le. apply Forall_fmap, Forall_forall. intros [v|] _; simpl.
  - destruct (Qle_bool v x); lra.
  - lra.
Qed.

Lemma np_where_le_mono (m : list float) (x y : Q) :
  (x <= y)%Q → Forall2 Qle (np_where_le m x) (np_where_le m y).
Proof.
  intros Hxy. unfold np_where_le. apply Forall2_fmap, Forall_Forall2_diag, Forall_forall.
  intros [v|] _; [|lra].
  destruct (Qle_bool v x) eqn:Ex, (Qle_bool v y) eqn:Ey; try lra.
  apply Qle_bool_iff in Ex.
  assert (Qle_bool v y = true) by (apply Qle_bool_iff; lra). congruence.
Qed.

Lemma row_means_finite (rows : list (list float)) C lo hi :
  Forall (fun row : list float =>
            length row = C ∧ Exists is_Some row
            ∧ Forall (fun c : float => ∀ v, c = Some v → lo <= v <= hi)%Q row) rows →
  ∃ ms, row_mean <$> rows = Some <$> ms
        ∧ Forall (fun m => lo <= m <= hi)%Q ms ∧ length ms = length rows.
Proof.
  induction 1 as [|row rows Hrow _ (ms & Hms & Hb & Hlen)]; [by exists []|].
  destruct (row_mean_bounds row C lo hi Hrow) as (m & Hm & Hmb).
  exists (m :: ms). rewrite !fmap_cons, Hm, Hms. cbn [length]. rewrite Hlen.
  split_and!; [done|by constructor|done].
Qed.

(** A sum of interval lengths weighted by means within [[0, hi]]. *)
Lemma weighted_sum_bounds (hi : Q) (dt : list Q) : ∀ ms : list Q,
  length ms = length dt →
  Forall (fun m => 0 <= m <= hi)%Q ms → Forall (Qle 0) dt →
  let total := sum_Q (zip_with Qmult ms dt) in
  (0 <= total)%Q ∧ (total <= sum_Q (Qmult hi <$> dt))%Q.
Proof.
  induction dt as [|d dt IH]; intros [|m ms] Hlen Hms Hdt; try done.
  apply Forall_cons in Hms as [Hm Hms]. apply Forall_cons in Hdt as [Hd Hdt].
  destruct (IH ms ltac:(by simplify_eq/=) Hms Hdt) as (H1 & H2).
  cbn [fmap list_fmap zip_with] in *. cbv zeta. rewrite !sum_Q_cons.
  split; nra.
Qed.

Lemma omap_id_Some {A} (l : list A) : omap id (Some <$> l) = l.
Proof. induction l as [|a l IH]; [done|]. cbn. by rewrite IH. Qed.

Lemma zip_with_fmul_Some (a b : list Q) :
  zip_with fmul (Some <$> a) (Some <$> b) = Some <$> zip_with Qmult a b.
Proof.
  revert b. induction a as [|x a IH]; intros [|y b]; try done. cbn. by rewrite IH.
Qed.

Lemma time_in_top_k_unfold df K src_id (end_time : Q) sim_opts :
  time_in_top_k df K src_id (Some end_time) sim_opts
  = (r_t ← rank_of_src_in_df df
             match sim_opts with
             | Some o => Some (mb src_id (so_src_id o))
             | None => src_id
             end true true;
     Ok (sum_Q (zip_with Qmult (np_where_le (row_mean <$> values r_t) (K - 1))
                         (np_diff (index r_t ++ [end_time]))))).
Proof. by destruct sim_opts. Qed.

Lemma average_rank_unfold df src_id (end_time : Q) sim_opts :
  average_rank df src_id (Some end_time) sim_opts
  = (r_t ← rank_of_src_in_df df
             match sim_opts with
             | Some o => Some (mb src_id (so_src_id o))
             | None => src_id
             end true true;
     Ok (series_sum (zip_with fmul (row_mean <$> values r_t)
                              (Some <$> np_diff (index r_t ++ [end_time]))))).
Proof. by destruct sim_opts. Qed.

(** What the two integrals are made of, on a log sorted by time: the rank
    table [r_t] of the source, finite row means [ms] within
    [[0, length df]], and the interval lengths, which are not negative when
    the log ends by [end_time]. *)
Lemma rank_integrals df src_id (end_time : Q) sim_opts :
  let src := match sim_opts with
             | Some o => Some (mb src_id (so_src_id o))
             | None => src_id
             end in
  is_sorted (ev_t <$> df) true = true →
  ∃ r_t ms,
    rank_of_src_in_df df src true true = Ok r_t
    ∧ length ms = length (np_diff (index r_t ++ [end_time]))
    ∧ Forall (fun m => 0 <= m <= inject_Z (Z.of_nat (length df)))%Q ms
    ∧ ((∀ e, e ∈ df → ev_t e <= end_time)%Q →
       Forall (Qle 0) (np_diff (index r_t ++ [end_time])))
    ∧ (∀ K, time_in_top_k df K src_id (Some end_time) sim_opts
            = Ok (sum_Q (zip_with Qmult (np_where_le (Some <$> ms) (K - 1))
                                  (np_diff (index r_t ++ [end_time])))))
    ∧ average_rank df src_id (Some end_time) sim_opts
      = Ok (sum_Q (zip_with Qmult ms (np_diff (index r_t ++ [end_time])))).
Proof.
  intros src Hs.
  destruct (rank_of_src_in_df df src true true) as [r_t|] eqn:Hr.
  2:{ unfold rank_of_src_in_df, with_rank in Hr. by rewrite Hs in Hr. }
  destruct (row_means_finite _ _ _ _ (rank_of_src_in_df_rows _ _ _ _ _ Hr))
    as (ms & Hms & Hb & Hlen).
  destruct (rank_of_src_in_df_shape _ _ _ _ _ Hr) as (_ & _ & Hrows).
  exists r_t, ms. split_and!.
  - done.
  - rewrite length_np_diff_snoc. lia.
  - done.
  - intros Hend. by eapply rank_intervals_nonneg.
  - intros K0. rewrite time_in_top_k_unfold. fold src. rewrite Hr. cbn.
    by rewrite Hms.
  - rewrite average_rank_unfold. fold src. rewrite Hr. cbn.
    unfold series_sum. by rewrite Hms, zip_with_fmul_Some, omap_id_Some.
Qed.

Lemma sum_Q_zeros (dt : list Q) : ∀ ind : list Q,
  Forall (fun i => i == 0)%Q ind → (sum_Q (zip_with Qmult ind dt) == 0)%Q.
Proof.
  induction dt as [|d dt IH]; intros [|i ind] Hind; try reflexivity.
  apply Forall_cons in Hind as [Hi Hind]. cbn [zip_with].
  rewrite sum_Q_cons, (IH _ Hind), Hi. ring.
Qed.

Lemma sum_Q_ones (dt : list Q) : ∀ ind : list Q,
  length ind = length dt → Forall (fun i => i == 1)%Q ind →
  (sum_Q (zip_with Qmult ind dt) == sum_Q dt)%Q.
Proof.
  induction dt as [|d dt IH]; intros [|i ind] Hlen Hind; try done.
  apply Forall_cons in Hind as [Hi Hind]. cbn [zip_with].
  rewrite !sum_Q_cons, (IH ind), Hi by (by simplify_eq/=). ring.
Qed.

(** X3: on a non-empty log sorted by time whose events are all at or before
    [end_time], the time in the top [K] is not negative, does not decrease
    when [K] grows, and never exceeds the sum of the interval lengths of the
    rank table, from each of its times to the next and from the last one to
    [end_time]. *)
Theorem time_in_top_k_bounds e0 df' (K K' : Q) src_id (end_time : Q) sim_opts :
  let df := e0 :: df' in
  let src := match sim_opts with
             | Some o => Some (mb src_id (so_src_id o))
             | None => src_id
             end in
  is_sorted (ev_t <$> df) true = true →
  (∀ e, e ∈ df → ev_t e <= end_time)%Q →
  (K <= K')%Q →
  ∃ r_t v v',
    rank_of_src_in_df df src true true = Ok r_t
    ∧ time_in_top_k df K src_id (Some end_time) sim_opts = Ok v
    ∧ time_in_top_k df K' src_id (Some end_time) sim_opts = Ok v'
    ∧ (0 <= v)%Q ∧ (v <= v')%Q
    ∧ (v' <= sum_Q (np_diff (index r_t ++ [end_time])))%Q.
Proof.
  intros df src Hs Hend HK.
  destruct (rank_integrals df src_id end_time sim_opts Hs)
    as (r_t & ms & Hr & Hlen & Hms & Hdt & Htop & _).
  specialize (Hdt Hend).
  exists r_t. eexists _, _. split_and!; [exact Hr|apply Htop..| | |].
  - by apply sum_Q_indicator_bounds; [apply np_where_le_indicator|].
  - apply sum_Q_indicator_mono; [|done]. apply np_where_le_mono. lra.
  - by apply sum_Q_indicator_bounds; [apply np_where_le_indicator|].
Qed.

(** X4: on a non-empty log sorted by time, the time in the top [K] is 0 for
    every [K < 1] (a rank is never negative), and for every [K] above the
    number of events it is the sum of all the interval lengths of the rank
    table, the last of which ends at [end_time]. *)
Theorem time_in_top_k_extremes e0 df' (K : Q) src_id (end_time : Q) sim_opts :
  let df := e0 :: df' in
  let src := match sim_opts with
             | Some o => Some (mb src_id (so_src_id o))
             | None => src_id
             end in
  is_sorted (ev_t <$> df) true = true →
  ∃ r_t v,
    rank_of_src_in_df df src true true = Ok r_t
    ∧ time_in_top_k df K src_id (Some end_time) sim_opts = Ok v
    ∧ ((K < 1)%Q → (v == 0)%Q)
    ∧ ((inject_Z (Z.of_nat (length df)) + 1 <= K)%Q →
       (v == sum_Q (np_diff (index r_t ++ [end_time])))%Q).
Proof.
  intros df src Hs.
  destruct (rank_integrals df src_id end_time sim_opts Hs)
    as (r_t & ms & Hr & Hlen & Hms & _ & Htop & _).
  exists r_t. eexists. split_and!; [exact Hr|apply Htop| |].
  - intros HK. apply sum_Q_zeros. unfold np_where_le.
    rewrite <- list_fmap_compose. apply Forall_fmap.
    eapply Forall_impl; [exact Hms|]. intros m [Hm0 Hm1]. cbn.
    destruct (Qle_bool m (K - 1)) eqn:E; [|reflexivity].
    apply Qle_bool_iff in E. lra.
  - intros HK. apply sum_Q_ones.
    + unfold np_where_le. by rewrite !length_fmap.
    + unfold np_where_le. rewrite <- list_fmap_compose. apply Forall_fmap.
      eapply Forall_impl; [exact Hms|]. intros m [Hm0 Hm1]. cbn.
      destruct (Qle_bool m (K - 1)) eqn:E; [reflexivity|].
      assert (Qle_bool m (K - 1) = true) by (apply Qle_bool_iff; lra). congruence.
Qed.

(** X5: on a non-empty log sorted by time whose events are all at or before
    [end_time], the integral of the average rank is a number that is not
    negative and at most the sum of the interval lengths of the rank table,
    each of them multiplied by the number of events of the log. *)
Theorem average_rank_bounds e0 df' src_id (end_time : Q) sim_opts :
  let df := e0 :: df' in
  let src := match sim_opts with
             | Some o => Some (mb src_id (so_src_id o))
             | None => src_id
             end in
  is_sorted (ev_t <$> df) true = true →
  (∀ e, e ∈ df → ev_t e <= end_time)%Q →
  ∃ r_t a,
    rank_of_src_in_df df src true true = Ok r_t
    ∧ average_rank df src_id (Some end_time) sim_opts = Ok a
    ∧ (0 <= a)%Q
    ∧ (a <= sum_Q (Qmult (inject_Z (Z.of_nat (length df)))
                     <$> np_diff (index r_t ++ [end_time])))%Q.
Proof.
  intros df src Hs Hend.
  destruct (rank_integrals df src_id end_time sim_opts Hs)
    as (r_t & ms & Hr & Hlen & Hms & Hdt & _ & Havg).
  specialize (Hdt Hend).
  destruct (weighted_sum_bounds _ _ ms Hlen Hms Hdt) as (H1 & H2).
  exists r_t. eexists. split_and!; [exact Hr|exact Havg|done|done].
Qed.

End MetricProofs.

Lemma time_in_top_k_bounds_witness :
  ∃ r_t v v',
    rank_of_src_in_df scenario (Some "A") true true = Ok r_t
    ∧ time_in_top_k scenario 1 (Some "A") (Some 6%Q) None = Ok v
    ∧ time_in_top_k scenario 2 (Some "A") (Some 6%Q) None = Ok v'
    ∧ (0 <= v)%Q ∧ (v <= v')%Q
    ∧ (v' <= sum_Q (np_diff (index r_t ++ [6%Q])))%Q.
Proof.
  apply (time_in_top_k_bounds (Event 0 0 "A" 1) (tail scenario) 1 2 (Some "A") 6 None).
  - reflexivity.
  - apply Forall_forall. vm_compute. repeat constructor; discriminate.
  - vm_compute. discriminate.
Defined.

Lemma time_in_top_k_extremes_witness :
  ∃ r_t v,
    rank_of_src_in_df scenario (Some "A") true true = Ok r_t
    ∧ time_in_top_k scenario 9 (Some "A") (Some 6%Q) None = Ok v
    ∧ ((9 < 1)%Q → (v == 0)%Q)
    ∧ ((inject_Z (Z.of_nat (length scenario)) + 1 <= 9)%Q →
       (v == sum_Q (np_diff (index r_t ++ [6%Q])))%Q).
Proof.
  apply (time_in_top_k_extremes (Event 0 0 "A" 1) (tail scenario) 9 (Some "A") 6 None).
  reflexivity.
Defined.

Lemma average_rank_bounds_witness :
  ∃ r_t a,
    rank_of_src_in_df scenario (Some "A") true true = Ok r_t
    ∧ average_rank scenario (Some "A") (Some 6%Q) None = Ok a
    ∧ (0 <= a)%Q
    ∧ (a <= sum_Q (Qmult (inject_Z (Z.of_nat (length scenario)))
                     <$> np_diff (index r_t ++ [6%Q])))%Q.
Proof.
  apply (average_rank_bounds (Event 0 0 "A" 1) (tail scenario) (Some "A") 6 None).
  - reflexivity.
  - apply Forall_forall. vm_compute. repeat constructor; discriminate.
Defined.

(** ** NaN cells of the rank table *)

Lemma StronglySorted_lookup_lt {A} (R : relation A) (l : list A) a b x y :
  StronglySorted R l → l !! a = Some x → l !! b = Some y → a < b → R x y.
Proof.
  intros Hs. revert a b. induction Hs as [|z l Hl IH Hz]; intros a b Ha Hb Hab; [done|].
  destruct b as [|b]; [lia|]. destruct a as [|a]; simpl in *.
  - simplify_eq. eapply Forall_forall in Hz; [done|]. by eapply list_elem_of_lookup_2.
  - apply (IH a b); [done..|lia].
Qed.

Lemma mean_None (l : list Q) : mean l = None ↔ l = [].
Proof. by destruct l. Qed.

Lemma filter_nil_iff {A} (P : A → Prop) `{!∀ x, Decision (P x)} (l : list A) :
  filter P l = [] ↔ ∀ x, x ∈ l → ¬ P x.
Proof.
  split.
  - intros Hnil x Hx HP. by eapply filter_nil_not_elem_of.
  - intros Hno. induction l as [|a l IH]; [done|].
    rewrite filter_cons, decide_False by (apply Hno; left).
    apply IH. intros x Hx. apply Hno. by right.
Qed.

Lemma ffill_from_cell (rows : list (list float)) : ∀ (prev : list float) a row' b,
  ffill_from prev rows !! a = Some row' →
  b < length prev → Forall (fun r => length r = length prev) rows →
  row' !! b = Some None
  ↔ prev !! b = Some None
    ∧ ∀ a' r, a' ≤ a → rows !! a' = Some r → r !! b = Some None.
Proof.
  induction rows as [|r rows IH]; intros prev a row' b Ha Hb Hlen; [done|].
  apply Forall_cons in Hlen as [Hr Hlen]. cbn [ffill_from] in Ha.
  set (r' := zip_with fill_cell prev r) in *.
  assert (length r' = length prev) as Hr' by (unfold r'; rewrite length_zip_with; lia).
  assert (r' !! b = Some None ↔ prev !! b = Some None ∧ r !! b = Some None) as Hcell.
  { unfold r'. rewrite lookup_zip_with_Some. split.
    - intros (p & c & Hpc & Hp & Hc). destruct c; simpl in Hpc; [done|].
      by subst p.
    - intros [Hp Hc]. by exists None, None. }
  destruct a as [|a]; simpl in Ha.
  - simplify_eq. rewrite Hcell. split.
    + intros [Hp Hc]. split; [done|]. intros a' r0 Ha' Hr0.
      assert (a' = 0) as -> by lia. by simplify_eq/=.
    + intros [Hp Hc]. split; [done|]. by apply (Hc 0 r).
  - rewrite (IH r' a row' b Ha) by (rewrite Hr'; first [lia|done]).
    rewrite Hcell. split.
    + intros [[Hp Hc] Hrest]. split; [done|]. intros [|a'] r0 Ha' Hr0; simpl in Hr0.
      * by simplify_eq.
      * apply (Hrest a'); [lia|done].
    + intros [Hp Hrest]. split_and!; [done|by apply (Hrest 0 r); [lia|]|].
      intros a' r0 Ha' Hr0. apply (Hrest (S a')); [lia|done].
Qed.

(** After the forward fill a cell is NaN exactly when the cells of its column
    in this row and in all rows above were NaN. *)
Lemma ffill_cell (p : pivot) a row' b :
  Forall (fun r => length r = length (columns p)) (values p) →
  b < length (columns p) →
  values (ffill p) !! a = Some row' →
  row' !! b = Some None
  ↔ ∀ a' r, a' ≤ a → values p !! a' = Some r → r !! b = Some None.
Proof.
  destruct p as [idx cols vals]. cbn [ffill values columns index].
  destruct vals as [|r0 rows]; [done|]. intros Hlen Hb Ha.
  apply Forall_cons in Hlen as [Hr0 Hlen].
  destruct a as [|a]; simpl in Ha.
  - simplify_eq. split.
    + intros Hc a' r Ha' Hr. assert (a' = 0) as -> by lia. by simplify_eq/=.
    + intros Hc. by apply (Hc 0 row').
  - rewrite (ffill_from_cell rows r0 a row' b Ha)
      by (rewrite Hr0; first [lia|done]).
    split.
    + intros [Hc Hrest] [|a'] r Ha' Hr; simpl in Hr; [by simplify_eq|].
      apply (Hrest a'); [lia|done].
    + intros Hc. split; [by apply (Hc 0 r0); [lia|]|].
      intros a' r Ha' Hr. apply (Hc (S a')); [lia|done].
Qed.

Section TableNaN.
Context {Src : Type} `{EqDecision Src}.
Implicit Types (df : list (event Src)).

(** The cell of the unfilled table at row [a] and column [b]. *)
Lemma pivot_table_cell (key : event Src → Q) (ranked : list (event Src * Q)) a b i c :
  let pt := pivot_table key ranked in
  index pt !! a = Some i → columns pt !! b = Some c →
  ∃ row, values pt !! a = Some row
    ∧ row !! b = Some (mean (snd <$> filter (fun p => (key p.1 == i)%Q
                                                     ∧ ev_sink_id p.1 = c) ranked)).
Proof.
  intros pt Hi Hc. unfold pt, pivot_table in *. cbn [index columns values] in *.
  eexists. split.
  - rewrite list_lookup_fmap, Hi. reflexivity.
  - cbn. rewrite list_lookup_fmap, Hc. reflexivity.
Qed.

Lemma pivot_table_cell_nan (key : event Src → Q) (ranked : list (event Src * Q)) i c :
  mean (snd <$> filter (fun p => (key p.1 == i)%Q ∧ ev_sink_id p.1 = c) ranked) = None
  ↔ ∀ e, e ∈ ranked.*1 → ev_sink_id e = c → ¬ (key e == i)%Q.
Proof.
  rewrite mean_None.
  assert (∀ l : list (event Src * Q), snd <$> l = [] ↔ l = []) as ->
    by (intros []; done).
  rewrite filter_nil_iff. split.
  - intros Hno e (p & -> & Hp)%list_elem_of_fmap Hc Hk. apply (Hno p Hp). by split.
  - intros Hno p Hp [Hk Hc]. apply (Hno p.1); [|done..].
    apply list_elem_of_fmap. by exists p.
Qed.

(** X6: in the table of a log sorted by time, the cell of follower [c] in the
    row of an event [e0] is NaN, without the forward fill, exactly when no
    event of [c] has the key of [e0] (its time, or its event id), and with the
    forward fill exactly when every event of [c] has a later key: a follower
    keeps NaN until its first event. *)
Theorem rank_table_nan df src_id with_time e0 c :
  is_sorted (ev_t <$> df) true = true →
  e0 ∈ df → c ∈ ev_sink_id <$> df →
  let t := key_of with_time e0 in
  ∃ r_u r_f cu cf,
    rank_of_src_in_df df src_id false with_time = Ok r_u
    ∧ rank_of_src_in_df df src_id true with_time = Ok r_f
    ∧ rank_at r_u c t = Some cu ∧ rank_at r_f c t = Some cf
    ∧ (cu = None ↔ ∀ e, e ∈ df → ev_sink_id e = c → ¬ (key_of with_time e == t)%Q)
    ∧ (cf = None ↔ ∀ e, e ∈ df → ev_sink_id e = c → (t < key_of with_time e)%Q).
Proof.
  intros Hsorted He0 Hc t.
  destruct (with_rank_sorted df src_id Hsorted) as (Hw & Hfst & Hb).
  set (ranked := zip df _) in *. set (key := key_of with_time) in *.
  set (r_u := pivot_table key ranked).
  assert (index r_u = merge_sort Qle (unique_by Qeq (key <$> df))) as Hidx
    by (unfold r_u, pivot_table; cbn; by rewrite list_fmap_compose, Hfst).
  assert (columns r_u = merge_sort le (unique_by eq (ev_sink_id <$> df))) as Hcols
    by (unfold r_u, pivot_table; cbn; by rewrite list_fmap_compose, Hfst).
  destruct (sorted_unique_Q_spec (key <$> df)) as (Hs & H1 & H2).
  rewrite <- Hidx in Hs, H1, H2.
  destruct (H2 t) as (i & Hi & Hit); [apply list_elem_of_fmap; eauto|].
  destruct (list_find_elem_of (fun t' => (t' == t)%Q) (index r_u) i Hi Hit)
    as [[a i'] Hfind].
  pose proof Hfind as (Ha & Hi't & _)%list_find_Some.
  assert (c ∈ columns r_u) as Hc' by (rewrite Hcols; by apply sorted_unique_spec).
  destruct (list_find_elem_of (fun c' => c' = c) (columns r_u) c Hc' eq_refl)
    as [[b c'] Hfindc].
  pose proof Hfindc as (Hbc & -> & _)%list_find_Some.
  assert (∀ a' j, index r_u !! a' = Some j →
            ∃ r, values r_u !! a' = Some r
              ∧ r !! b = Some (mean (snd <$> filter (fun p => (key p.1 == j)%Q
                                                             ∧ ev_sink_id p.1 = c) ranked)))
    as Hcells by (intros a' j Hj; by apply pivot_table_cell).
  destruct (Hcells a i' Ha) as (row & Hrow & Hcell).
  pose proof (pivot_table_rows key ranked _ _ Hb) as Hrows. fold r_u in Hrows. cbn zeta in Hrows.
  assert (rank_of_src_in_df df src_id false with_time = Ok r_u) as Hru
    by (unfold rank_of_src_in_df; by rewrite Hw).
  assert (rank_of_src_in_df df src_id true with_time = Ok (ffill r_u)) as Hrf
    by (unfold rank_of_src_in_df; by rewrite Hw).
  clearbody r_u.
  assert (Forall (fun r => length r = length (columns r_u)) (values r_u)) as Hlens
    by (eapply Forall_impl; [exact Hrows|]; by intros ? (? & _)).
  assert (b < length (columns r_u)) as Hblt by (by eapply lookup_lt_Some).
  assert (a < length (values (ffill r_u))) as Halt.
  { apply lookup_lt_Some in Hrow. destruct r_u as [? ? [|r0 rows]]; cbn in *; [lia|].
    by rewrite length_ffill_from. }
  apply lookup_lt_is_Some in Halt as [row' Hrow'].
  assert (length row' = length (columns r_u)) as Hlen'.
  { pose proof (ffill_rows r_u _ _ Hrows) as Hf.
    eapply Forall_lookup_1 in Hf as (Hl & _); [|exact Hrow'].
    by destruct r_u. }
  destruct (lookup_lt_is_Some_2 row' b ltac:(lia)) as [cf Hcf].
  exists r_u, (ffill r_u), (mean (snd <$> filter (fun p => (key p.1 == i')%Q
                                                   ∧ ev_sink_id p.1 = c) ranked)), cf.
  assert (∀ i'', mean (snd <$> filter (fun p => (key p.1 == i'')%Q
                                              ∧ ev_sink_id p.1 = c) ranked) = None
                 ↔ ∀ e, e ∈ df → ev_sink_id e = c → ¬ (key e == i'')%Q) as Hnan
    by (intros i''; by rewrite pivot_table_cell_nan, Hfst).
  split_and!; [done|done| | | |].
  - unfold rank_at. rewrite Hfind, Hfindc. simpl. rewrite Hrow. simpl. exact Hcell.
  - unfold rank_at.
    assert (index (ffill r_u) = index r_u ∧ columns (ffill r_u) = columns r_u)
      as [-> ->] by (by destruct r_u).
    rewrite Hfind, Hfindc. cbn [fmap option_fmap option_map mbind option_bind fst].
    rewrite Hrow'. exact Hcf.
  - rewrite Hnan. split; intros Hno e He Hec Hk; apply (Hno e He Hec); lra.
  - assert (cf = None ↔ row' !! b = Some None) as ->
      by (unfold float in *; split; [by intros ->|congruence]).
    rewrite (ffill_cell r_u a row' b Hlens Hblt Hrow'). split.
    + intros Hno e He Hec. apply Qnot_le_lt. intros Hle.
      destruct (H2 (key e)) as (j & Hj & Hje); [apply list_elem_of_fmap; eauto|].
      apply list_elem_of_lookup in Hj as [a' Ha'].
      assert (a' ≤ a) as Hle'.
      { destruct (decide (a' ≤ a)); [done|].
        pose proof (StronglySorted_lookup_lt Qlt _ a a' i' j Hs Ha Ha' ltac:(lia)).
        lra. }
      destruct (Hcells a' j Ha') as (r & Hr & Hrc).
      specialize (Hno a' r Hle' Hr).
      match type of Hrc with
      | _ = Some ?m => assert (m = None) as Hm by (unfold float in *; congruence)
      end.
      pose proof (proj1 (Hnan _) Hm) as Hm'. by apply (Hm' e).
    + intros Hlater a' r Hle Hr.
      assert (a' < length (index r_u)) as Hlt.
      { apply lookup_lt_Some in Ha. lia. }
      apply lookup_lt_is_Some in Hlt as [j Hj].
      destruct (Hcells a' j Hj) as (r' & Hr' & Hrc).
      simplify_eq.
      match type of Hrc with
      | _ = Some ?m => cut (m = None); [unfold float in *; congruence|]
      end.
      apply (proj2 (Hnan _)).
      intros e He Hec Hk. specialize (Hlater e He Hec).
      assert (j <= i')%Q.
      { destruct (decide (a' = a)) as [->|Hne]; [simplify_eq; lra|].
        pose proof (StronglySorted_lookup_lt Qlt _ a' a j i' Hs Hj Ha ltac:(lia)).
        lra. }
      lra.
Qed.

End TableNaN.

Lemma rank_table_nan_witness :
  ∃ r_u r_f cu cf,
    rank_of_src_in_df scenario (Some "A") false true = Ok r_u
    ∧ rank_of_src_in_df scenario (Some "A") true true = Ok r_f
    ∧ rank_at r_u 2 1 = Some cu ∧ rank_at r_f 2 1 = Some cf
    ∧ (cu = None ↔ ∀ e, e ∈ scenario → ev_sink_id e = 2 → ¬ (ev_t e == 1)%Q)
    ∧ (cf = None ↔ ∀ e, e ∈ scenario → ev_sink_id e = 2 → (1 < ev_t e)%Q).
Proof.
  apply (rank_table_nan scenario (Some "A") true (Event 1 1 "C" 1) 2).
  - reflexivity.
  - unfold scenario. repeat constructor.
  - vm_compute. repeat constructor.
Defined.

Section TableShape.
Context {Src : Type} `{EqDecision Src}.
Implicit Types (df : list (event Src)).

(** X7: for a log sorted by time the tracker returns a rectangular table: the
    index holds the distinct keys of the log (times, or event ids) in strictly
    increasing order, the columns hold the distinct sink ids in strictly
    increasing order, there is one row per index entry and one cell per
    column in every row. *)
Theorem rank_table_labels df src_id fill with_time :
  is_sorted (ev_t <$> df) true = true →
  ∃ r_t, rank_of_src_in_df df src_id fill with_time = Ok r_t
    ∧ StronglySorted Qlt (index r_t)
    ∧ (∀ i, i ∈ index r_t → ∃ e, e ∈ df ∧ key_of with_time e = i)
    ∧ (∀ e, e ∈ df → ∃ i, i ∈ index r_t ∧ (i == key_of with_time e)%Q)
    ∧ StronglySorted lt (columns r_t)
    ∧ (∀ c, c ∈ columns r_t ↔ c ∈ ev_sink_id <$> df)
    ∧ length (values r_t) = length (index r_t)
    ∧ Forall (fun row => length row = length (columns r_t)) (values r_t).
Proof.
  intros Hs.
  destruct (rank_of_src_in_df df src_id fill with_time) as [r_t|] eqn:Hr.
  2:{ unfold rank_of_src_in_df, with_rank in Hr. by rewrite Hs in Hr. }
  exists r_t. split; [done|].
  destruct (rank_index_sorted _ _ _ _ _ Hr) as (Hi1 & Hi2 & Hi3).
  destruct (rank_of_src_in_df_shape _ _ _ _ _ Hr) as (Hcols & _ & Hlen).
  destruct (sorted_unique_spec (ev_sink_id <$> df)) as [Hc1 Hc2].
  rewrite <- Hcols in Hc1, Hc2.
  split_and!; [done..|].
  eapply Forall_impl; [exact (rank_of_src_in_df_rows _ _ _ _ _ Hr)|].
  by intros row (? & _).
Qed.

(** X8: in the table of a log sorted by time every row holds at least one rank
    that is not NaN, and every rank is at least 0 and at most the number of
    events of the log. *)
Theorem rank_table_cells df src_id fill with_time :
  is_sorted (ev_t <$> df) true = true →
  ∃ r_t, rank_of_src_in_df df src_id fill with_time = Ok r_t
    ∧ Forall (fun row : list float =>
                (∃ v, Some v ∈ row)
                ∧ ∀ v, Some v ∈ row → (0 <= v <= inject_Z (Z.of_nat (length df)))%Q)
             (values r_t).
Proof.
  intros Hs.
  destruct (rank_of_src_in_df df src_id fill with_time) as [r_t|] eqn:Hr.
  2:{ unfold rank_of_src_in_df, with_rank in Hr. by rewrite Hs in Hr. }
  exists r_t. split; [done|].
  eapply Forall_impl; [exact (rank_of_src_in_df_rows _ _ _ _ _ Hr)|].
  intros row (_ & Hex & Hb). split.
  - apply Exists_exists in Hex as (c & Hc & [v ->]). eauto.
  - intros v Hv. eapply Forall_forall in Hb; [|exact Hv]. by apply Hb.
Qed.

End TableShape.

Lemma rank_table_labels_witness :
  ∃ r_t, rank_of_src_in_df scenario (Some "A") true true = Ok r_t
    ∧ StronglySorted Qlt (index r_t)
    ∧ (∀ i, i ∈ index r_t → ∃ e, e ∈ scenario ∧ key_of true e = i)
    ∧ (∀ e, e ∈ scenario → ∃ i, i ∈ index r_t ∧ (i == key_of true e)%Q)
    ∧ StronglySorted lt (columns r_t)
    ∧ (∀ c, c ∈ columns r_t ↔ c ∈ ev_sink_id <$> scenario)
    ∧ length (values r_t) = length (index r_t)
    ∧ Forall (fun row => length row = length (columns r_t)) (values r_t).
Proof. apply (rank_table_labels scenario (Some "A") true true). reflexivity. Defined.

Lemma rank_table_cells_witness :
  ∃ r_t, rank_of_src_in_df scenario (Some "A") true true = Ok r_t
    ∧ Forall (fun row : list float =>
                (∃ v, Some v ∈ row)
                ∧ ∀ v, Some v ∈ row → (0 <= v <= inject_Z (Z.of_nat (length scenario)))%Q)
             (values r_t).
Proof. apply (rank_table_cells scenario (Some "A") true true). reflexivity. Defined.

(** ** NaN in the utility integral *)

Lemma foldl_fadd_None (l : list float) : foldl fadd None l = None.
Proof. induction l as [|a l IH]; [done|]. by destruct a. Qed.

Lemma np_sum_nan (l : list float) : None ∈ l → np_sum l = None.
Proof.
  unfold np_sum. generalize (Some 0%Q). induction l as [|a l IH]; intros acc Hin.
  - by apply elem_of_nil in Hin.
  - apply elem_of_cons in Hin as [<-|Hin]; simpl.
    + destruct acc; apply foldl_fadd_None.
    + by apply IH.
Qed.

Section UtilityNaN.
Context {Src : Type} `{EqDecision Src}.
Implicit Types (df : list (event Src)).

Lemma u_int_opt_value (np_sqrt : Q → float) df (src : Src) (end_time : Q)
    (q_vec : list Q) (s : Q) (follower_ids : list nat)
    (sim_opts : option (SimOpts Src)) r_t :
  rank_of_src_in_df df (Some src) true true = Ok r_t →
  Sorted le follower_ids →
  follower_ids ⊆ ev_sink_id <$> df →
  length q_vec = length follower_ids →
  u_int_opt np_sqrt df (Some src) (Some end_time) (Some q_vec) (Some s)
    (Some follower_ids) sim_opts
  = Ok (np_sum
          (zip_with fmul
             ((fun row : list float =>
                 np_sum (zip_with fmul
                   ((fun j => default None (row !! j))
                      <$> ((fun c => default 0 (fst <$> list_find (fun c' => c' = c)
                                                           (columns r_t)))
                             <$> follower_ids))
                   ((fun q => fdiv q s ≫= np_sqrt) <$> q_vec)))
                <$> values r_t)
             (Some <$> np_diff (index r_t ++ [end_time])))).
Proof.
  intros Hr Hf Hsub Hlen.
  destruct (rank_of_src_in_df_shape _ _ _ _ _ Hr) as (Hcols & _ & _).
  unfold u_int_opt.
  destruct sim_opts as [o|]; cbn [mb];
    rewrite (u_int_follower_ids_sorted _ _ _ Hf); cbn [mbind result_bind];
    rewrite Hr; cbn [mbind result_bind]; unfold select_columns;
    (rewrite mapM_column_pos
       by (rewrite Hcols; intros c Hc; by apply sorted_unique_spec, Hsub));
    cbn [mbind result_bind of_option]; unfold dot;
    (rewrite decide_True by (by rewrite length_fmap));
    cbn [mbind result_bind]; by rewrite <- list_fmap_compose.
Qed.

(** X9: a follower whose first event comes after the first event of the log
    has NaN in the first row of the table, and NaN is absorbing in the dot
    product and in the sum: the utility integral is then NaN, whatever the
    weights, [s] and [end_time]. *)
Theorem u_int_opt_nan (np_sqrt : Q → float) e0 df' (src : Src) (end_time : Q)
    (q_vec : list Q) (s : Q) (follower_ids : list nat) (f : nat)
    (sim_opts : option (SimOpts Src)) :
  let df := e0 :: df' in
  is_sorted (ev_t <$> df) true = true →
  Sorted le follower_ids →
  follower_ids ⊆ ev_sink_id <$> df →
  length q_vec = length follower_ids →
  f ∈ follower_ids →
  (∀ e, e ∈ df → ev_sink_id e = f → (ev_t e0 < ev_t e)%Q) →
  u_int_opt np_sqrt df (Some src) (Some end_time) (Some q_vec) (Some s)
    (Some follower_ids) sim_opts = Ok None.
Proof.
  intros df Hs Hf Hsub Hlen Hin Hlate.
  destruct (with_rank_sorted df (Some src) Hs) as (Hw & Hfst & _).
  set (ranked := zip df _) in *.
  set (r_u := pivot_table (key_of true) ranked).
  assert (rank_of_src_in_df df (Some src) false true = Ok r_u) as Hru
    by (unfold rank_of_src_in_df; by rewrite Hw).
  assert (rank_of_src_in_df df (Some src) true true = Ok (ffill r_u)) as Hrf
    by (unfold rank_of_src_in_df; by rewrite Hw).
  destruct (rank_index_head df e0 df' _ _ _ eq_refl Hru) as (i0 & idx' & Hidx & Hi0).
  destruct (rank_of_src_in_df_shape _ _ _ _ _ Hru) as (Hcols & _ & _).
  assert (f ∈ columns r_u) as Hfc by (rewrite Hcols; by apply sorted_unique_spec, Hsub).
  destruct (list_find_elem_of (fun c' => c' = f) (columns r_u) f Hfc eq_refl)
    as [[jf f'] Hfind].
  pose proof Hfind as (Hjf & -> & _)%list_find_Some.
  destruct (pivot_table_cell (key_of true) ranked 0 jf i0 f) as (r0 & Hr0 & Hcell);
    [by fold r_u; rewrite Hidx|done|].
  fold r_u in Hr0.
  assert (r0 !! jf = Some None) as Hnan.
  { unfold float in *. rewrite Hcell. f_equal. apply pivot_table_cell_nan.
    rewrite Hfst. intros e He Hef Hk. specialize (Hlate e He Hef).
    cbn [key_of] in Hk. lra. }
  rewrite (u_int_opt_value _ _ _ _ _ _ _ _ _ Hrf Hf Hsub Hlen).
  clearbody r_u.
  assert (∃ rows, values (ffill r_u) = r0 :: rows) as [rows ->].
  { clear -Hr0. destruct r_u as [? ? [|r rows]]; cbn in *; [done|].
    simplify_eq. eauto. }
  assert (index (ffill r_u) = i0 :: idx' ∧ columns (ffill r_u) = columns r_u)
    as [-> ->] by (rewrite <- Hidx; by destruct r_u).
  f_equal. apply np_sum_nan.
  assert (np_diff ((i0 :: idx') ++ [end_time])
          = (match idx' with [] => end_time | t' :: _ => t' end - i0)%Q
              :: np_diff (idx' ++ [end_time])) as ->
    by (unfold np_diff; simpl; by destruct idx').
  cbn [fmap list_fmap zip_with]. rewrite np_sum_nan; [left|].
  apply list_elem_of_lookup in Hin as [k Hk].
  apply list_elem_of_lookup. exists k.
  assert (k < length q_vec) as Hkq by (rewrite Hlen; by eapply lookup_lt_Some).
  apply lookup_lt_is_Some in Hkq as [q Hq].
  apply lookup_zip_with_Some.
  exists None, (fdiv q s ≫= np_sqrt). split_and!; [done| |by rewrite list_lookup_fmap, Hq].
  rewrite !list_lookup_fmap, Hk. cbn [fmap option_fmap option_map].
  rewrite Hfind. cbn [fmap option_fmap option_map fst default].
  unfold float, id in *. by rewrite Hnan.
Qed.

End UtilityNaN.

Lemma u_int_opt_nan_witness :
  u_int_opt sqrt_micro (Event 0 0 "A" 1 :: [Event 1 1 "A" 2]%Q) (Some "A")
    (Some 2%Q) (Some [1; 1]%Q) (Some 1%Q) (Some [1; 2]) None = Ok None.
Proof.
  apply (u_int_opt_nan sqrt_micro (Event 0 0 "A" 1) [Event 1 1 "A" 2]%Q "A" 2
           [1; 1]%Q 1 [1; 2] 2 None).
  - reflexivity.
  - repeat constructor.
  - apply (bool_decide_unpack _). vm_compute. exact I.
  - reflexivity.
  - repeat constructor.
  - intros e He Hf. apply elem_of_cons in He as [->|He]; [discriminate|].
    apply list_elem_of_singleton in He as ->. reflexivity.
Defined.

(** ** A utility integral that is a number *)

Lemma foldl_fadd_finite (l : list float) : ∀ a,
  (0 <= a)%Q →
  Forall (fun t : float => ∃ x, t = Some x ∧ 0 <= x)%Q l →
  ∃ v, foldl fadd (Some a) l = Some v ∧ (0 <= v)%Q.
Proof.
  induction l as [|t l IH]; intros a Ha Hl; simpl; [eauto|].
  apply Forall_cons in Hl as [(x & -> & Hx) Hl]. simpl. apply IH; [lra|done].
Qed.

Lemma np_sum_finite (l : list float) :
  Forall (fun t : float => ∃ x, t = Some x ∧ 0 <= x)%Q l →
  ∃ v, np_sum l = Some v ∧ (0 <= v)%Q.
Proof. apply foldl_fadd_finite. lra. Qed.

Section UtilityFinite.
Context {Src : Type} `{EqDecision Src}.
Implicit Types (df : list (event Src)).

(** In the forward-filled table a follower with an event at the time of the
    first row has a rank in every row. *)
Lemma ffill_column_finite df e0 df' (src_id : option Src) (f : nat) r_t :
  df = e0 :: df' →
  rank_of_src_in_df df src_id true true = Ok r_t →
  (∃ e, e ∈ df ∧ ev_sink_id e = f ∧ (ev_t e == ev_t e0)%Q) →
  ∃ b, list_find (fun c' => c' = f) (columns r_t) = Some (b, f)
    ∧ ∀ row, row ∈ values r_t → ∃ v, row !! b = Some (Some v) ∧ (0 <= v)%Q.
Proof.
  intros Hdf Hrf (e & He & Hef & Het).
  assert (is_sorted (ev_t <$> df) true = true) as Hs.
  { unfold rank_of_src_in_df, with_rank in Hrf.
    by destruct (is_sorted (ev_t <$> df) true). }
  destruct (with_rank_sorted df src_id Hs) as (Hw & Hfst & Hb).
  set (ranked := zip df _) in *.
  set (r_u := pivot_table (key_of true) ranked).
  assert (rank_of_src_in_df df src_id false true = Ok r_u) as Hru
    by (unfold rank_of_src_in_df; by rewrite Hw).
  assert (r_t = ffill r_u) as ->
    by (unfold rank_of_src_in_df in Hrf; rewrite Hw in Hrf; by simplify_eq/=).
  destruct (rank_index_head df e0 df' _ _ _ Hdf Hru) as (i0 & idx' & Hidx & Hi0).
  destruct (rank_of_src_in_df_shape _ _ _ _ _ Hru) as (Hcols & _ & _).
  assert (f ∈ columns r_u) as Hfc.
  { rewrite Hcols. apply sorted_unique_spec, list_elem_of_fmap. eauto. }
  destruct (list_find_elem_of (fun c' => c' = f) (columns r_u) f Hfc eq_refl)
    as [[b f'] Hfind].
  pose proof Hfind as (Hbf & -> & _)%list_find_Some.
  destruct (pivot_table_cell (key_of true) ranked 0 b i0 f) as (r0 & Hr0 & Hcell);
    [by fold r_u; rewrite Hidx|done|].
  fold r_u in Hr0.
  assert (r0 !! b ≠ Some None) as Hsome.
  { unfold float in *. rewrite Hcell. intros [= Hnone].
    pose proof (proj1 (pivot_table_cell_nan (key_of true) ranked i0 f) Hnone) as Hno.
    rewrite Hfst in Hno. apply (Hno e He Hef). cbn [key_of]. lra. }
  pose proof (pivot_table_rows (key_of true) ranked _ _ Hb) as Hrows.
  fold r_u in Hrows. cbn zeta in Hrows.
  pose proof (rank_of_src_in_df_rows _ _ _ _ _ Hrf) as Hrowsf.
  clearbody r_u.
  assert (columns (ffill r_u) = columns r_u) as Hcf by (by destruct r_u).
  exists b. rewrite Hcf. split; [done|].
  intros row [a Ha]%list_elem_of_lookup.
  eapply Forall_lookup_1 in Hrowsf as (Hlen & _ & Hbound); [|exact Ha].
  rewrite Hcf in Hlen.
  assert (b < length row) as Hblt by (rewrite Hlen; by eapply lookup_lt_Some).
  apply lookup_lt_is_Some in Hblt as [[v|] Hv].
  - exists v. split; [done|].
    eapply Forall_lookup_1 in Hbound; [|exact Hv]. by apply Hbound.
  - exfalso. apply Hsome.
    assert (Forall (fun r => length r = length (columns r_u)) (values r_u)) as Hlens
      by (eapply Forall_impl; [exact Hrows|]; by intros ? (? & _)).
    assert (b < length (columns r_u)) as Hb' by (by eapply lookup_lt_Some).
    pose proof (proj1 (ffill_cell r_u a row b Hlens Hb' Ha) Hv) as Hall.
    apply (Hall 0 r0); [lia|done].
Qed.

(** X10: on a non-empty log sorted by time whose events are all at or
    before [end_time], with sorted follower ids that each have an event at
    the time of the first row, one weight per follower id, [s] other than 0
    and square roots that are numbers and not negative, the utility integral
    is a number, and it is not negative. *)
Theorem u_int_opt_finite (np_sqrt : Q → float) e0 df' (src : Src) (end_time : Q)
    (q_vec : list Q) (s : Q) (follower_ids : list nat)
    (sim_opts : option (SimOpts Src)) :
  let df := e0 :: df' in
  is_sorted (ev_t <$> df) true = true →
  Sorted le follower_ids →
  length q_vec = length follower_ids →
  ¬ (s == 0)%Q →
  (∀ f, f ∈ follower_ids →
        ∃ e, e ∈ df ∧ ev_sink_id e = f ∧ (ev_t e == ev_t e0)%Q) →
  (∀ q, q ∈ q_vec → ∃ r, np_sqrt (q / s)%Q = Some r ∧ (0 <= r)%Q) →
  (∀ e, e ∈ df → ev_t e <= end_time)%Q →
  ∃ v, u_int_opt np_sqrt df (Some src) (Some end_time) (Some q_vec) (Some s)
         (Some follower_ids) sim_opts = Ok (Some v)
    ∧ (0 <= v)%Q.
Proof.
  intros df Hs Hf Hlen Hs0 Hfirst Hsqrt Hend.
  destruct (rank_of_src_in_df df (Some src) true true) as [r_t|] eqn:Hr.
  2:{ unfold rank_of_src_in_df, with_rank in Hr. by rewrite Hs in Hr. }
  assert (follower_ids ⊆ ev_sink_id <$> df) as Hsub.
  { intros f (e & He & <- & _)%Hfirst. apply list_elem_of_fmap. eauto. }
  rewrite (u_int_opt_value _ _ _ _ _ _ _ _ _ Hr Hf Hsub Hlen).
  pose proof (rank_intervals_nonneg _ _ _ _ end_time Hr Hend) as Hdt.
  set (dt := np_diff _) in *. clearbody dt.
  cut (∃ v, np_sum (zip_with fmul
              ((fun row : list float =>
                  np_sum (zip_with fmul
                    ((fun j => default None (row !! j))
                       <$> ((fun c => default 0 (fst <$> list_find (fun c' => c' = c)
                                                            (columns r_t)))
                              <$> follower_ids))
                    ((fun q => fdiv q s ≫= np_sqrt) <$> q_vec)))
                 <$> values r_t) (Some <$> dt)) = Some v ∧ (0 <= v)%Q).
  { intros (v & -> & Hv). eauto. }
  apply np_sum_finite, Forall_lookup.
  intros i t (u & d & -> & Hu & Hd)%lookup_zip_with_Some.
  apply list_lookup_fmap_Some in Hd as (d0 & -> & Hd0).
  eapply Forall_lookup_1 in Hdt; [|exact Hd0].
  apply list_lookup_fmap_Some in Hu as (row & -> & Hrow).
  cut (∃ x, np_sum (zip_with fmul
              ((fun j => default None (row !! j))
                 <$> ((fun c => default 0 (fst <$> list_find (fun c' => c' = c)
                                                      (columns r_t)))
                        <$> follower_ids))
              ((fun q => fdiv q s ≫= np_sqrt) <$> q_vec)) = Some x ∧ (0 <= x)%Q).
  { intros (x & -> & Hx). exists (x * d0)%Q. split; [done|]. nra. }
  apply np_sum_finite, Forall_lookup.
  intros k t (c & wgt & -> & Hc & Hw)%lookup_zip_with_Some.
  rewrite <- list_fmap_compose in Hc.
  apply list_lookup_fmap_Some in Hc as (f & -> & Hfk).
  apply list_lookup_fmap_Some in Hw as (q & -> & Hq).
  destruct (ffill_column_finite df e0 df' (Some src) f r_t eq_refl Hr) as (b & Hfind & Hcol).
  { apply Hfirst. by eapply list_elem_of_lookup_2. }
  destruct (Hcol row) as (v & Hv & Hv0); [by eapply list_elem_of_lookup_2|].
  destruct (Hsqrt q) as (r & Hr' & Hr0); [by eapply list_elem_of_lookup_2|].
  cbn. rewrite Hfind. cbn. unfold float, id in *. rewrite Hv. cbn.
  unfold fdiv. destruct (Qeq_bool s 0) eqn:E; [by apply Qeq_bool_iff in E|].
  cbn. rewrite Hr'. cbn. exists (v * r)%Q. split; [done|]. nra.
Qed.

End UtilityFinite.

Lemma u_int_opt_finite_witness :
  ∃ v, u_int_opt sqrt_micro scenario (Some "A") (Some 6%Q) (Some [1; 1]%Q) (Some 1%Q)
         (Some [1; 2]) None = Ok (Some v)
    ∧ (0 <= v)%Q.
Proof.
  apply (u_int_opt_finite sqrt_micro (Event 0 0 "A" 1) (tail scenario) "A" 6
           [1; 1]%Q 1 [1; 2] None).
  - reflexivity.
  - repeat constructor.
  - reflexivity.
  - discriminate.
  - apply Forall_forall. repeat constructor.
    + exists (Event 0 0 "A" 1). split; [repeat constructor|]. split; reflexivity.
    + exists (Event 0 0 "A" 2). split; [repeat constructor|]. split; reflexivity.
  - intros q Hq.
    apply elem_of_cons in Hq as [->|Hq];
      [|apply list_elem_of_singleton in Hq as ->];
      (eexists; split; [vm_compute; reflexivity|vm_compute; discriminate]).
  - apply Forall_forall. vm_compute. repeat constructor; discriminate.
Defined.

(** ** Oracle: the schedule *)

Lemma for_each_seq_post {St} (body : nat → St → result St) (I : nat → St → Prop) len :
  ∀ a st st',
  I a st →
  (∀ i st st', a ≤ i < a + len → I i st → body i st = Ok st' → I (S i) st') →
  for_each body (seq a len) st = Ok st' → I (a + len) st'.
Proof.
  induction len as [|len IH]; intros a st st' Ha Hstep; simpl.
  - intros [= <-]. by rewrite Nat.add_0_r.
  - destruct (body a st) as [st1|] eqn:Hb; [|done]. simpl. intros Hrun.
    replace (a + S len) with (S a + len) by lia.
    apply (IH (S a) st1 st'); [|intros i st2 st3 Hi; apply Hstep; lia|done].
    apply (Hstep a st); [lia|done..].
Qed.

Lemma forward_step_schedule (n : nat) (w : list Q) (q s : Q) (J : list (list Q)) k st st' :
  k < n → schedule_inv n k st → forward_step w q s J k st = Ok st' →
  schedule_inv n (S k) st'.
Proof.
  intros Hk (Hlr & Hle & H0 & Hrec & Hrest & rk & Hrk & Hb).
  destruct st as [ranks events]. simpl in *. unfold get1, set1.
  destruct (post_branch s J k) as [lhs|]; [|done]. simpl. rewrite Hrk. simpl.
  destruct (wait_branch w q J k rk) as [rhs|]; [|done]. simpl.
  assert (∀ j, j < k →
            ∃ rk0, ranks !! j = Some rk0 ∧ rk0 ≤ j
              ∧ (events !! j = Some 1 ∧ ranks !! (j + 1) = Some 0
                 ∨ events !! j = Some 0 ∧ ranks !! (j + 1) = Some (rk0 + 1))) as Hrec'
    by exact Hrec.
  destruct (Qlt_le_dec lhs rhs); rewrite !decide_True by lia; simpl; intros [= <-];
    (split_and!; simpl; [by rewrite length_insert..| | | |]).
  - by rewrite list_lookup_insert_ne by lia.
  - intros j Hj. destruct (decide (j = k)) as [->|Hne].
    + exists rk. rewrite list_lookup_insert_ne, !list_lookup_insert_eq by lia.
      split_and!; [done..|by left].
    + destruct (Hrec' j ltac:(lia)) as (rk0 & ? & ? & ?). exists rk0.
      by rewrite !list_lookup_insert_ne by lia.
  - intros j Hj Hjn. rewrite list_lookup_insert_ne by lia. apply Hrest; lia.
  - exists 0. replace (S k) with (k + 1) by lia.
    rewrite list_lookup_insert_eq by lia. split; [done|lia].
  - by rewrite list_lookup_insert_ne by lia.
  - intros j Hj. destruct (decide (j = k)) as [->|Hne].
    + exists rk. rewrite list_lookup_insert_ne, !list_lookup_insert_eq by lia.
      split_and!; [done..|by right].
    + destruct (Hrec' j ltac:(lia)) as (rk0 & ? & ? & ?). exists rk0.
      by rewrite !list_lookup_insert_ne by lia.
  - intros j Hj Hjn. rewrite list_lookup_insert_ne by lia. apply Hrest; lia.
  - exists (rk + 1). replace (S k) with (k + 1) by lia.
    rewrite list_lookup_insert_eq by lia. split; [done|lia].
Qed.

Lemma forward_pass_schedule (n : nat) (w : list Q) (q s : Q) (J : list (list Q)) st :
  forward_pass n w q s J = Ok st → schedule_inv n n st.
Proof.
  unfold forward_pass. intros Hrun.
  apply (for_each_seq_post (forward_step w q s J) (schedule_inv n) n 0 _ _) in Hrun;
    [done| |].
  - split_and!; simpl; [by rewrite length_replicate..| |intros; lia| |].
    + by rewrite lookup_replicate_2 by lia.
    + intros j _ Hj. by rewrite lookup_replicate_2 by lia.
    + exists 0. split; [|done]. by rewrite lookup_replicate_2 by lia.
  - intros k st0 st1 [_ Hk]. by apply forward_step_schedule.
Qed.

Lemma is_sorted_inversion (x : list Q) i a b :
  x !! i = Some a → x !! S i = Some b → (b < a)%Q → is_sorted x true = false.
Proof.
  intros Ha Hb Hlt. destruct (is_sorted x true) eqn:E; [|done].
  apply is_sorted_true_nondecreasing in E.
  pose proof (nondecreasing_lookup x i a b E Ha Hb). lra.
Qed.

Lemma length_unique_by_eq {A} `{EqDecision A} (l : list A) :
  length (unique_by eq l) ≤ length l.
Proof.
  induction l as [|a l IH]; simpl; [done|].
  pose proof (length_filter (fun b => ¬ a = b) (unique_by eq l)). lia.
Qed.

Section OracleSchedule.
Context {Src : Type} `{EqDecision Src}.
Implicit Types (df : list (event Src)).

Lemma one_follower df (f : nat) :
  df ≠ [] → (∀ e, e ∈ df → ev_sink_id e = f) → oracle_follower_ids df None = [f].
Proof.
  intros Hne Hall. unfold oracle_follower_ids.
  destruct (sorted_unique_spec (ev_sink_id <$> df)) as [Hs Hmem].
  set (l := merge_sort le _) in *.
  assert (∀ i, i ∈ l → i = f) as Hf.
  { intros i (e & -> & He)%Hmem%list_elem_of_fmap. by apply Hall. }
  assert (f ∈ l) as Hin.
  { apply Hmem. destruct df as [|e df]; [done|].
    apply list_elem_of_fmap. exists e. split; [symmetry; apply Hall|]; left. }
  destruct l as [|a [|b l]].
  - by apply elem_of_nil in Hin.
  - f_equal. apply Hf. left.
  - apply StronglySorted_inv in Hs as [_ Ha]. apply Forall_cons in Ha as [Hab _].
    rewrite (Hf a), (Hf b) in Hab by (repeat constructor). lia.
Qed.

Lemma length_group_event_times df :
  length (group_event_times df) ≤ length df
  ∧ (df ≠ [] → 1 ≤ length (group_event_times df)).
Proof.
  unfold group_event_times. rewrite length_fmap, merge_sort_Permutation. split.
  - etrans; [apply length_unique_by_eq|]. by rewrite length_fmap.
  - intros Hne. destruct df; [done|]. simpl. lia.
Qed.

(** X11: on a non-empty log sorted by time whose events all go to one
    follower, with a single weight and at most 10^6 events, the oracle returns
    a frame of [n + 1] rows ([n] the number of distinct event ids) in each of
    its five columns.  The schedule starts at rank 0; at each step [k < n] it
    either posts ([events[k] = 1]) and the next rank is 0, or does not
    ([events[k] = 0]) and the next rank is one more; the rank at step [k] is
    at most [k]; and the last entry of [events] is 0, so that at most [n]
    posts are counted. *)
Theorem oracle_schedule df (sim_opts : SimOpts Src) (f : nat) (q : Q) :
  df ≠ [] → (∀ e, e ∈ df → ev_sink_id e = f) →
  is_sorted (ev_t <$> df) true = true →
  so_q_vec sim_opts = [q] →
  (Z.of_nat (length df) ≤ 1000000)%Z →
  ∃ odf cost, oracle_ranking df sim_opts None None = Ok (OracleRun odf cost)
    ∧ let n := length (group_event_times df) in
      1 ≤ n
      ∧ length (od_ranks odf) = n + 1 ∧ length (od_events odf) = n + 1
      ∧ length (od_at odf) = n + 1 ∧ length (od_t odf) = n + 1
      ∧ length (od_t_delta odf) = n + 1
      ∧ od_ranks odf !! 0 = Some 0
      ∧ od_events odf !! n = Some 0
      ∧ ∀ k, k < n →
          ∃ rk, od_ranks odf !! k = Some rk ∧ rk ≤ k
            ∧ (od_events odf !! k = Some 1 ∧ od_ranks odf !! (k + 1) = Some 0
               ∨ od_events odf !! k = Some 0
                 ∧ od_ranks odf !! (k + 1) = Some (rk + 1)).
Proof.
  intros Hne Hall Hs Hq Hlen.
  destruct (length_group_event_times df) as [Hn1 Hn2]. specialize (Hn2 Hne).
  destruct (oracle_ranking_runs_dp df sim_opts q) as (run & cost & Hdp & _ & Hrun);
    [by rewrite (one_follower df f)|done|done|lia|].
  eexists _, _. split; [exact Hrun|]. cbn [od_ranks od_events od_at od_t od_t_delta].
  unfold oracle_dp in Hdp.
  destruct (backward_pass _ _ _ _ _) as [J|]; [|done]. cbn in Hdp.
  destruct (forward_pass _ _ _ _ J) as [[ranks events]|] eqn:Hfw; [|done].
  cbn in Hdp. simplify_eq. cbn [dp_ranks dp_events].
  apply forward_pass_schedule in Hfw as (Hlr & Hle & H0 & Hrec & Hrest & _).
  assert (length (tail (durations (group_event_times df) (so_end_time sim_opts)))
          = length (group_event_times df) + 1) as Hd.
  { pose proof (length_durations (group_event_times df) (so_end_time sim_opts)).
    destruct (durations _ _); simpl in *; lia. }
  simpl in *. split_and!; try done; try lia.
  apply Hrest; lia.
Qed.


(** X13: a follower list passed to the oracle makes every call fail: the
    log is replaced by the sorted list of its column names, which has no
    column [t], so that the call raises an attribute error when the list has
    one element, and the assertion error on the follower count otherwise. *)
Theorem oracle_ranking_explicit_followers df (sim_opts : SimOpts Src)
    (omit_src_ids : option (list Src)) (follower_ids : list nat) :
  oracle_ranking df sim_opts omit_src_ids (Some follower_ids)
  = Raise (if decide (length follower_ids = 1) then AttributeError
           else AssertionError "Oracle has been implemented only for 1 follower.").
Proof.
  unfold oracle_ranking. cbn [oracle_follower_ids].
  case_decide.
  - by rewrite bool_decide_eq_true_2 by done.
  - by rewrite bool_decide_eq_false_2 by done.
Qed.

(** X14: for a non-empty log whose events all go to one follower, the oracle
    raises the assertion error on the order of the log when some row is
    earlier than the row before it. *)
Theorem oracle_ranking_unsorted df (sim_opts : SimOpts Src) (f : nat) i e1 e2 :
  (∀ e, e ∈ df → ev_sink_id e = f) →
  df !! i = Some e1 → df !! S i = Some e2 → (ev_t e2 < ev_t e1)%Q →
  oracle_ranking df sim_opts None None
  = Raise (AssertionError "Dataframe is not sorted by time.").
Proof.
  intros Hall H1 H2 Hlt.
  assert (df ≠ []) as Hne by (by destruct df).
  unfold oracle_ranking. cbn [omit_sources]. rewrite (one_follower df f Hne Hall).
  rewrite bool_decide_eq_true_2 by done. cbn [assert mbind result_bind of_option].
  rewrite (is_sorted_inversion (ev_t <$> df) i (ev_t e1) (ev_t e2));
    [done|by rewrite list_lookup_fmap, ?H1, ?H2..|done].
Qed.

(** X15: for a non-empty log sorted by time, with at most 10^6 events that
    all go to one follower, the oracle raises a value error when the weight
    vector has two or more entries: the comparison of the two branches then
    has no truth value. *)
Theorem oracle_ranking_weights df (sim_opts : SimOpts Src) (f : nat) :
  df ≠ [] → (∀ e, e ∈ df → ev_sink_id e = f) →
  is_sorted (ev_t <$> df) true = true →
  (Z.of_nat (length df) ≤ 1000000)%Z →
  2 ≤ length (so_q_vec sim_opts) →
  oracle_ranking df sim_opts None None = Raise ValueError.
Proof.
  intros Hne Hall Hs Hlen Hq.
  destruct (length_group_event_times df) as [Hn1 Hn2]. specialize (Hn2 Hne).
  unfold oracle_ranking. cbn [omit_sources]. rewrite (one_follower df f Hne Hall).
  rewrite bool_decide_eq_true_2 by done. cbn [assert mbind result_bind of_option].
  rewrite Hs. cbn [assert mbind result_bind].
  rewrite decide_False by lia.
  destruct (so_q_vec sim_opts) as [|q1 [|q2 qs]]; simpl in Hq; [lia..|].
  cbn [scalar_weight]. rewrite decide_False by lia. done.
Qed.

End OracleSchedule.

Lemma oracle_schedule_witness :
  ∃ odf cost, oracle_ranking calm_log calm_opts None None = Ok (OracleRun odf cost)
    ∧ let n := length (group_event_times calm_log) in
      1 ≤ n
      ∧ length (od_ranks odf) = n + 1 ∧ length (od_events odf) = n + 1
      ∧ length (od_at odf) = n + 1 ∧ length (od_t odf) = n + 1
      ∧ length (od_t_delta odf) = n + 1
      ∧ od_ranks odf !! 0 = Some 0
      ∧ od_events odf !! n = Some 0
      ∧ ∀ k, k < n →
          ∃ rk, od_ranks odf !! k = Some rk ∧ rk ≤ k
            ∧ (od_events odf !! k = Some 1 ∧ od_ranks odf !! (k + 1) = Some 0
               ∨ od_events odf !! k = Some 0
                 ∧ od_ranks odf !! (k + 1) = Some (rk + 1)).
Proof.
  apply (oracle_schedule calm_log calm_opts 1 1).
  - discriminate.
  - apply Forall_forall. repeat constructor.
  - reflexivity.
  - reflexivity.
  - vm_compute. discriminate.
Defined.


Lemma oracle_ranking_unsorted_witness :
  oracle_ranking [Event 1 2 "C" 1; Event 2 1 "C" 1]%Q calm_opts None None
  = Raise (AssertionError "Dataframe is not sorted by time.").
Proof.
  apply (oracle_ranking_unsorted [Event 1 2 "C" 1; Event 2 1 "C" 1]%Q calm_opts 1 0
           (Event 1 2 "C" 1) (Event 2 1 "C" 1)).
  - apply Forall_forall. repeat constructor.
  - reflexivity.
  - reflexivity.
  - reflexivity.
Defined.

Lemma oracle_ranking_weights_witness :
  oracle_ranking calm_log
    {| so_src_id := "A"; so_end_time := 5; so_q_vec := [1; 1]%Q; so_s := 1;
       so_sink_ids := [1] |} None None
  = Raise ValueError.
Proof.
  apply (oracle_ranking_weights calm_log _ 1).
  - discriminate.
  - apply Forall_forall. repeat constructor.
  - reflexivity.
  - vm_compute. discriminate.
  - simpl. lia.
Defined.

(** ** Calibration: where the search ends *)

Lemma Qhalf_eq (x : Q) : (x / 2 == x * (1 # 2))%Q.
Proof. unfold Qdiv. reflexivity. Qed.

(** Linear arithmetic with midpoints: every [x / 2] is named and related to
    [x]. *)
Ltac lra_mid :=
  repeat match goal with
         | |- context [(?x / 2)%Q] =>
             let h := fresh "h" in
             pose proof (Qhalf_eq x); set (h := (x / 2)%Q) in *; clearbody h
         | _ : context [(?x / 2)%Q] |- _ =>
             let h := fresh "h" in
             pose proof (Qhalf_eq x); set (h := (x / 2)%Q) in *; clearbody h
         end;
  lra.

Section SearchProofs.
Context {Src : Type} `{EqDecision Src}.
Variable World : Type.
Variable wall_dataframe : SimOpts Src → World → list (event Src) * World.
Variables (target_events : Q) (sim_opts : SimOpts Src) (tol : Q).

Lemma bracket_up_bounds fuel : ∀ s_init world lo hi world',
  bracket_up wall_dataframe target_events sim_opts fuel s_init world
  = Returns (lo, hi) world' →
  (0 < s_init)%Q → (s_init <= lo)%Q ∧ (lo < hi)%Q.
Proof.
  induction fuel as [|fuel IH]; intros s_init world lo hi world'; simpl; [done|].
  destruct (oracle_num_events _ _ _ _) as [[num w1]|]; [|done].
  destruct (Qlt_le_dec _ _).
  - intros [= <- <- <-] Hs. lra.
  - intros Hrun Hs. destruct (IH _ _ _ _ _ Hrun); lra.
Qed.

Lemma bracket_down_bounds fuel : ∀ s_init world lo hi world',
  bracket_down wall_dataframe target_events sim_opts fuel s_init world
  = Returns (lo, hi) world' →
  (0 < s_init)%Q → (0 < lo)%Q ∧ (lo < hi)%Q ∧ (hi <= s_init)%Q.
Proof.
  induction fuel as [|fuel IH]; intros s_init world lo hi world'; simpl; [done|].
  destruct (oracle_num_events _ _ _ _) as [[num w1]|]; [|done].
  destruct (Qlt_le_dec _ _).
  - intros [= <- <- <-] Hs. lra_mid.
  - intros Hrun Hs.
    assert (0 < s_init / 2)%Q as Hh by lra_mid.
    destruct (IH _ _ _ _ _ Hrun Hh) as (? & ? & ?). split_and!; [done..|]. lra_mid.
Qed.

Lemma bisect_bounds fuel : ∀ s_lo s_hi world res world',
  bisect wall_dataframe target_events sim_opts tol fuel s_lo s_hi world
  = Returns res world' →
  (s_lo < s_hi)%Q → (s_lo < found_s res)%Q ∧ (found_s res < s_hi)%Q.
Proof.
  induction fuel as [|fuel IH]; intros s_lo s_hi world res world'; simpl; [done|].
  destruct (bisect_step _ _ _ _ s_lo s_hi world) as [[out w1]|] eqn:Hstep; [|done].
  apply bisect_step_cases in Hstep as (odf & cost & w2 & _ & _ & Hcase). simpl in Hcase.
  destruct out as [r|[lo hi]].
  - destruct Hcase as [_ ->]. intros [= <- <-] Hlt. simpl. lra_mid.
  - intros Hrun Hlt.
    destruct Hcase as [_ [(_ & -> & ->)|(_ & -> & ->)]];
      (destruct (IH _ _ _ _ _ Hrun); [lra_mid|]); lra_mid.
Qed.

(** X16: when the search for [s] returns, the returned [s] is not negative;
    it is at least 1 when the oracle at [s = 1] posts more often than the
    target, at most 1 when it posts less often, and between 1/2 and 2 when it
    matches the target. *)
Theorem find_opt_oracle_s_direction (fuel : nat) (world : World) (s : Q)
    (world' : World) :
  find_opt_oracle_s wall_dataframe target_events sim_opts tol fuel world
  = Returns s world' →
  ∃ num world1,
    oracle_num_events wall_dataframe sim_opts 1.0 world = Ok (num, world1)
    ∧ (0 <= s)%Q
    ∧ ((target_events < inject_Z num)%Q → (1 <= s)%Q)
    ∧ ((inject_Z num < target_events)%Q → (s <= 1)%Q)
    ∧ ((inject_Z num == target_events)%Q → (1 / 2 <= s)%Q ∧ (s <= 2)%Q).
Proof.
  unfold find_opt_oracle_s, find_opt_oracle. cbv zeta.
  destruct (oracle_num_events _ _ _ _) as [[num w1]|]; [|done].
  intros Hrun. exists num, w1. split; [done|]. revert Hrun.
  assert (1.0 == 1)%Q as H1 by reflexivity.
  assert (1.0 / 2 == 1 # 2)%Q as H2 by reflexivity.
  assert (1.0 * 2 == 2)%Q as H3 by reflexivity.
  assert (1 / 2 == 1 # 2)%Q as H4 by reflexivity.
  destruct (Qlt_le_dec target_events (inject_Z num)) as [Hgt|Hle].
  - destruct (bracket_up _ _ _ _ _ _) as [[lo hi] w2| |] eqn:Hb; [|done..].
    destruct (bisect _ _ _ _ _ _ _ _) as [res w3| |] eqn:Hbi; [|done..].
    intros [= <- <-].
    apply bracket_up_bounds in Hb as [? ?]; [|reflexivity].
    apply bisect_bounds in Hbi as [? ?]; [|done].
    split_and!; intros; try split; lra.
  - destruct (Qlt_le_dec (inject_Z num) target_events) as [Hlt|Hge].
    + destruct (bracket_down _ _ _ _ _ _) as [[lo hi] w2| |] eqn:Hb; [|done..].
      destruct (bisect _ _ _ _ _ _ _ _) as [res w3| |] eqn:Hbi; [|done..].
      intros [= <- <-].
      apply bracket_down_bounds in Hb as (? & ? & ?); [|reflexivity].
      apply bisect_bounds in Hbi as [? ?]; [|done].
      split_and!; intros; try split; lra.
    + destruct (bisect _ _ _ _ _ _ _ _) as [res w3| |] eqn:Hbi; [|done..].
      intros [= <- <-].
      apply bisect_bounds in Hbi as [? ?]; [|reflexivity].
      split_and!; intros; try split; lra.
Qed.

End SearchProofs.

Lemma find_opt_oracle_s_direction_witness :
  ∃ s num world1,
    find_opt_oracle_s calm_wall 1 calm_opts 0.01 8 tt = Returns s tt
    ∧ oracle_num_events calm_wall calm_opts 1.0 tt = Ok (num, world1)
    ∧ (0 <= s)%Q
    ∧ ((1 < inject_Z num)%Q → (1 <= s)%Q)
    ∧ ((inject_Z num < 1)%Q → (s <= 1)%Q)
    ∧ ((inject_Z num == 1)%Q → (1 / 2 <= s)%Q ∧ (s <= 2)%Q).
Proof.
  destruct (find_opt_oracle_s calm_wall 1 calm_opts 0.01 8 tt) as [s []| |] eqn:E;
    [|vm_compute in E; discriminate E..].
  destruct (find_opt_oracle_s_direction unit calm_wall 1 calm_opts 0.01 8 tt s tt E)
    as (num & world1 & H).
  exists s, num, world1. split; [reflexivity|exact H].
Defined.

Lemma mask_select_false {A} (mask : list bool) (x : list A) :
  Forall (fun b => b = false) mask → mask_select mask x = [].
Proof.
  unfold mask_select. intros Hm. revert x.
  induction Hm as [|b mask -> _ IH]; intros [|a x]; try done.
  cbn [zip zip_with]. rewrite filter_cons, decide_False by done. apply IH.
Qed.

Lemma mask_select_true {A} (mask : list bool) (x : list A) :
  Forall (fun b => b = true) mask → length mask = length x → mask_select mask x = x.
Proof.
  unfold mask_select. intros Hm. revert x.
  induction Hm as [|b mask -> _ IH]; intros [|a x] Hlen; try done.
  cbn [zip zip_with]. rewrite filter_cons, decide_True by done.
  cbn. f_equal. apply IH. by simplify_eq/=.
Qed.

Section OracleReturns.
Context {Src : Type} `{EqDecision Src}.

(** Whatever the oracle returns as a frame was built by the forward pass on
    the event times of the log. *)
Lemma oracle_ranking_returns (df : list (event Src)) (sim_opts : SimOpts Src)
    omit_src_ids follower_ids odf cost :
  oracle_ranking df sim_opts omit_src_ids follower_ids = Ok (OracleRun odf cost) →
  ∃ times : list Q,
    schedule_inv (length times) (length times) (od_ranks odf, od_events odf)
    ∧ od_t odf = 0%Q :: times
    ∧ od_t_delta odf = np_diff (0%Q :: times ++ [so_end_time sim_opts]).
Proof.
  unfold oracle_ranking.
  destruct (bool_decide _); [|done]. cbn [assert mbind result_bind].
  destruct follower_ids as [fids|]; [done|]. cbn [of_option mbind result_bind].
  destruct (is_sorted _ true); [|done]. cbn [assert mbind result_bind].
  set (times := group_event_times _).
  case_decide; [done|].
  destruct (scalar_weight _ _) as [q|]; [|done]. cbn [mbind result_bind].
  destruct (oracle_dp _ _ _ _) as [run|] eqn:Hdp; [|done]. cbn [mbind result_bind].
  destruct (get2 _ 0 0) as [c|]; [|done]. cbn [mbind result_bind].
  intros [= <- <-]. exists times. cbn [od_ranks od_events od_t od_t_delta].
  unfold oracle_dp in Hdp.
  destruct (backward_pass _ _ _ _ _) as [J|]; [|done]. cbn in Hdp.
  destruct (forward_pass _ _ _ _ J) as [[ranks events]|] eqn:Hfw; [|done].
  cbn in Hdp. simplify_eq. cbn [dp_ranks dp_events].
  split_and!; [by eapply forward_pass_schedule|done|].
  unfold durations. by destruct times.
Qed.

End OracleReturns.

Section WrapperProofs.
Context {Src : Type} `{EqDecision Src}.
Variable World : Type.
Variable wall_dataframe : SimOpts Src → World → list (event Src) * World.
Variables (target_events : Q) (sim_opts : SimOpts Src) (tol : Q).

(** X17: when the search returns, the time in the top [K] of the oracle's
    schedule is 0 for [K < 1]; as soon as [K] is at least the number of rows
    of the schedule, every rank of the schedule counts, and it is the sum of
    the whole column [t_delta]. *)
Theorem find_opt_oracle_time_top_k_extremes (K : Q) (fuel : nat) (world : World)
    (v : Q) (world' : World) :
  find_opt_oracle_time_top_k wall_dataframe target_events K sim_opts tol fuel world
  = Returns v world' →
  ∃ res,
    find_opt_oracle wall_dataframe target_events sim_opts tol fuel world
    = Returns res world'
    ∧ ((K < 1)%Q → (v == 0)%Q)
    ∧ ((inject_Z (Z.of_nat (length (od_ranks (found_df res)))) <= K)%Q →
       (v == sum_Q (od_t_delta (found_df res)))%Q).
Proof.
  unfold find_opt_oracle_time_top_k.
  destruct (find_opt_oracle _ _ _ _ _ _) as [res w| |] eqn:Hfind; [|done..].
  intros [= <- <-]. exists res. split; [done|].
  apply find_opt_oracle_returns in Hfind as (lo & hi & w0 & Hstep).
  apply bisect_step_cases in Hstep as (odf & cost & w1 & Hrun & _ & _ & ->).
  cbn [found_df]. unfold get_oracle_df in Hrun.
  destruct (wall_dataframe _ w0) as [df w2].
  destruct (oracle_ranking df _ None None) as [[|odf' cost']|] eqn:Hor; [done| |done].
  cbn in Hrun. simplify_eq.
  apply oracle_ranking_returns in Hor
    as (times & (Hlr & _ & _ & Hrec & _ & rn & Hrn & Hbn) & Ht & Hd).
  cbn [so_end_time update_s] in Hd. cbn [fst snd] in *.
  assert (∀ j r, od_ranks odf !! j = Some r → r ≤ length times) as Hall.
  { intros j r Hj. pose proof (lookup_lt_Some _ _ _ Hj) as Hlt.
    destruct (decide (j = length times)) as [->|Hne]; [by simplify_eq|].
    destruct (Hrec j ltac:(lia)) as (rk & Hrk & Hle & _). simplify_eq. lia. }
  split.
  - intros HK. rewrite mask_select_false; [reflexivity|].
    apply Forall_fmap, Forall_forall. intros r _. cbn.
    destruct (Qle_bool _ _) eqn:E; [|done]. apply Qle_bool_iff in E.
    assert (0 <= inject_Z (Z.of_nat r))%Q by (unfold Qle, inject_Z; cbn; lia). lra.
  - intros HK. rewrite Hlr in HK. rewrite mask_select_true.
    + reflexivity.
    + apply Forall_fmap, Forall_lookup. intros j r Hj. cbn.
      apply Qle_bool_iff. specialize (Hall j r Hj).
      assert (inject_Z (Z.of_nat r) + 1 <= inject_Z (Z.of_nat (length times + 1)))%Q.
      { rewrite Nat2Z.inj_add, inject_Z_plus. unfold Qle, Qplus, inject_Z. cbn. lia. }
      lra.
    + rewrite length_fmap, Hlr, Hd, length_np_diff. cbn. rewrite length_app. cbn. lia.
Qed.

End WrapperProofs.

Lemma find_opt_oracle_time_top_k_extremes_witness :
  ∃ v res,
    find_opt_oracle_time_top_k calm_wall 1 5 calm_opts 0.01 8 tt = Returns v tt
    ∧ find_opt_oracle calm_wall 1 calm_opts 0.01 8 tt = Returns res tt
    ∧ ((5 < 1)%Q → (v == 0)%Q)
    ∧ ((inject_Z (Z.of_nat (length (od_ranks (found_df res)))) <= 5)%Q →
       (v == sum_Q (od_t_delta (found_df res)))%Q).
Proof.
  destruct (find_opt_oracle_time_top_k calm_wall 1 5 calm_opts 0.01 8 tt)
    as [v []| |] eqn:E; [|vm_compute in E; discriminate E..].
  destruct (find_opt_oracle_time_top_k_extremes unit calm_wall 1 calm_opts 0.01 5 8 tt
              v tt E) as (res & H).
  exists v, res. split; [reflexivity|exact H].
Defined.

(** ** Losses *)

Lemma foldl_fadd_nonneg (l : list float) : ∀ acc x,
  (∀ a, acc = Some a → 0 <= a)%Q →
  Forall (fun t : float => ∀ a, t = Some a → 0 <= a)%Q l →
  foldl fadd acc l = Some x → (0 <= x)%Q.
Proof.
  induction l as [|t l IH]; intros acc x Hacc Hl; simpl.
  - intros ->. by apply Hacc.
  - apply Forall_cons in Hl as [Ht Hl]. apply IH; [|done].
    intros a Ha. destruct acc as [b|], t as [c|]; simplify_eq/=.
    specialize (Hacc b eq_refl). specialize (Ht c eq_refl). lra.
Qed.

Lemma np_sum_nonneg (l : list float) x :
  Forall (fun t : float => ∀ a, t = Some a → 0 <= a)%Q l →
  np_sum l = Some x → (0 <= x)%Q.
Proof.
  intros Hl. apply foldl_fadd_nonneg; [|done]. intros a [= <-]. lra.
Qed.

Lemma mapM_column_pos_missing (cols fids : list nat) f :
  f ∈ fids → f ∉ cols → mapM (column_pos cols) fids = Raise KeyError.
Proof.
  intros Hin Hout. induction fids as [|c fids IH]; [by apply elem_of_nil in Hin|].
  change (mapM (column_pos cols) (c :: fids))
    with (column_pos cols c ≫= fun y => mapM (column_pos cols) fids
                            ≫= fun k => mret (y :: k)).
  destruct (column_pos cols c) as [j|e] eqn:Hc; cbn [mbind result_bind].
  - apply elem_of_cons in Hin as [->|Hin].
    + unfold column_pos in Hc.
      destruct (list_find _ cols) as [[j' c']|] eqn:Hfind; [|done].
      apply list_find_Some in Hfind as (Hj & -> & _).
      exfalso. apply Hout. by eapply list_elem_of_lookup_2.
    + by rewrite IH.
  - unfold column_pos in Hc. by destruct (list_find _ cols) as [[? ?]|]; simplify_eq/=.
Qed.

(** The part shared by the two losses:
    [np.square(r_t[follower_ids].values).dot(q_vec)]. *)
Lemma squared_ranks_dot (r_t : pivot) (follower_ids : list nat) (q_vec : list Q) :
  follower_ids ⊆ columns r_t → length q_vec = length follower_ids →
  ∃ sel q_t,
    select_columns r_t follower_ids = Ok sel
    ∧ dot (length follower_ids) (np_square sel) (Some <$> q_vec) = Ok q_t
    ∧ length q_t = length (values r_t)
    ∧ (Forall (Qle 0) q_vec →
       Forall (fun v : float => ∀ x, v = Some x → 0 <= x)%Q q_t).
Proof.
  intros Hsub Hlen. unfold select_columns.
  rewrite mapM_column_pos by done. cbn [mbind result_bind].
  eexists _, _. split; [done|]. unfold dot.
  rewrite decide_True by (by rewrite length_fmap). split; [done|]. split.
  - unfold np_square. by rewrite !length_fmap.
  - intros Hq. apply Forall_fmap, Forall_forall.
    intros row (row0 & -> & _)%list_elem_of_fmap x. cbn.
    apply np_sum_nonneg. apply Forall_lookup.
    intros i t (a & b & -> & Ha & Hb)%lookup_zip_with_Some v Hv.
    apply list_lookup_fmap_Some in Hb as (qv & -> & Hqv).
    apply list_lookup_fmap_Some in Ha as (c & -> & _).
    eapply Forall_lookup_1 in Hq; [|exact Hqv].
    destruct c as [cv|]; simplify_eq/=. nra.
Qed.

Section LossProofs.
Context {Src : Type} `{EqDecision Src}.
Implicit Types (df : list (event Src)).

(** X18: on a log sorted by time, with follower ids that all occur as
    sinks of the log (in any order), one weight per follower id and no
    negative weight, the loss of the optimal broadcaster is returned as a
    series over the distinct times of the log in increasing order, with one
    value per time, each of them NaN or not negative. *)
Theorem calc_loss_opt_returns df (sim_opts : SimOpts Src) :
  is_sorted (ev_t <$> df) true = true →
  so_sink_ids sim_opts ⊆ ev_sink_id <$> df →
  length (so_q_vec sim_opts) = length (so_sink_ids sim_opts) →
  Forall (Qle 0) (so_q_vec sim_opts) →
  ∃ lo, calc_loss_opt df sim_opts = Ok lo
    ∧ s_index lo = merge_sort Qle (unique_by Qeq (ev_t <$> df))
    ∧ StronglySorted Qlt (s_index lo)
    ∧ length (s_data lo) = length (s_index lo)
    ∧ Forall (fun v : float => ∀ x, v = Some x → 0 <= x)%Q (s_data lo).
Proof.
  intros Hs Hsub Hlen Hq. unfold calc_loss_opt. cbv zeta.
  destruct (rank_of_src_in_df df (Some (so_src_id sim_opts)) true true)
    as [r_t|] eqn:Hr.
  2:{ unfold rank_of_src_in_df, with_rank in Hr. by rewrite Hs in Hr. }
  destruct (rank_of_src_in_df_shape _ _ _ _ _ Hr) as (Hcols & Hidx & Hrows).
  destruct (rank_index_sorted _ _ _ _ _ Hr) as (Hsorted & _).
  cbn [mbind result_bind].
  destruct (squared_ranks_dot r_t (so_sink_ids sim_opts) (so_q_vec sim_opts))
    as (sel & q_t & -> & Hdot & Hlq & Hpos); [|done|].
  { rewrite Hcols. intros c Hc. by apply sorted_unique_spec, Hsub. }
  cbn [mbind result_bind]. rewrite Hdot. cbn [mbind result_bind].
  eexists. split; [done|]. cbn [s_index s_data].
  split_and!; [done|done| |].
  - rewrite length_zip_with, !length_fmap. lia.
  - specialize (Hpos Hq). apply Forall_lookup.
    intros i v (a & b & -> & Ha & Hb)%lookup_zip_with_Some x Hx.
    apply list_lookup_fmap_Some in Ha as (a0 & -> & Ha0).
    apply list_lookup_fmap_Some in Hb as (b0 & -> & Hb0).
    eapply Forall_lookup_1 in Ha0; [|exact Hpos].
    eapply Forall_lookup_1 in Hb0; [|exact Hpos].
    destruct a0 as [av|], b0 as [bv|]; simplify_eq/=.
    specialize (Ha0 av eq_refl). specialize (Hb0 bv eq_refl). lra.
Qed.

(** X19: with sorted follower ids in [sim_opts], the Poisson loss and the
    loss of the optimal broadcaster fail alike or succeed alike, over the same
    index, and at every time the Poisson loss is half the optimal loss plus
    [s * u_const^2 / 2]. *)
Theorem calc_loss_poisson_vs_opt df (u_const : Q) (sim_opts : SimOpts Src) :
  Sorted le (so_sink_ids sim_opts) →
  match calc_loss_opt df sim_opts with
  | Ok lo =>
      ∃ lp, calc_loss_poisson df u_const None None None None None (Some sim_opts) = Ok lp
        ∧ s_index lp = s_index lo
        ∧ Forall2 (fun a b =>
                     feq b (fadd (fmul (Some (1 # 2)) a)
                                 (Some (so_s sim_opts * u_const ^ 2 / 2))))%Q
                  (s_data lo) (s_data lp)
  | Raise e =>
      calc_loss_poisson df u_const None None None None None (Some sim_opts) = Raise e
  end.
Proof.
  intros Hf. unfold calc_loss_opt, calc_loss_poisson. cbv zeta.
  cbn [mb of_option mbind result_bind].
  rewrite (is_sorted_ids _ Hf). cbn [assert mbind result_bind].
  destruct (rank_of_src_in_df df _ true true) as [r_t|]; [|done].
  cbn [mbind result_bind].
  assert (∀ sel, select_columns r_t (so_sink_ids sim_opts) = Ok sel →
                 length sel = length (values r_t)) as Hsel.
  { unfold select_columns. intros sel.
    destruct (mapM _ _); [|done]. cbn. intros [= <-]. by rewrite length_fmap. }
  destruct (select_columns r_t (so_sink_ids sim_opts)) as [sel|]; [|done].
  specialize (Hsel sel eq_refl). cbn [mbind result_bind].
  assert (∀ q_t, dot (length (so_sink_ids sim_opts)) (np_square sel)
                     (Some <$> so_q_vec sim_opts) = Ok q_t →
                 length q_t = length sel) as Hdot.
  { unfold dot, np_square. intros q_t. case_decide; [|done].
    intros [= <-]. by rewrite !length_fmap. }
  destruct (dot _ _ _) as [q_t|]; [|done]. specialize (Hdot q_t eq_refl).
  cbn [mbind result_bind]. eexists. split; [done|]. cbn [s_index s_data].
  split; [done|]. rewrite <- Hsel, <- Hdot. clear.
  induction q_t as [|x q_t IH]; cbn; [constructor|]. constructor; [|exact IH].
  destruct x as [v|]; cbn; [|done]. field.
Qed.

Lemma rank_table_columns df src_id :
  is_sorted (ev_t <$> df) true = true →
  ∃ r_t, rank_of_src_in_df df src_id true true = Ok r_t
    ∧ columns r_t = merge_sort le (unique_by eq (ev_sink_id <$> df)).
Proof.
  intros Hs. destruct (rank_of_src_in_df df src_id true true) as [r_t|] eqn:Hr.
  - exists r_t. split; [done|]. by apply rank_of_src_in_df_shape in Hr as (? & _).
  - unfold rank_of_src_in_df, with_rank in Hr. by rewrite Hs in Hr.
Qed.

(** X20: on a log sorted by time, a follower id without any event in the
    log is no column of the rank table: the utility integral and both losses
    raise a key error. *)
Theorem metrics_missing_follower (np_sqrt : Q → float) df (src : Src)
    (end_time s u_const : Q) (q_vec : list Q) (f : nat) (sim_opts : SimOpts Src) :
  let follower_ids := so_sink_ids sim_opts in
  is_sorted (ev_t <$> df) true = true →
  Sorted le follower_ids →
  f ∈ follower_ids → f ∉ ev_sink_id <$> df →
  u_int_opt np_sqrt df (Some src) (Some end_time) (Some q_vec) (Some s)
    (Some follower_ids) None = Raise KeyError
  ∧ calc_loss_poisson df u_const (Some src) (Some end_time) (Some q_vec) (Some s)
      (Some follower_ids) None = Raise KeyError
  ∧ calc_loss_opt df sim_opts = Raise KeyError.
Proof.
  intros follower_ids Hs Hf Hin Hout.
  destruct (rank_table_columns df (Some src) Hs) as (r1 & Hr1 & Hc1).
  destruct (rank_table_columns df (Some (so_src_id sim_opts)) Hs) as (r2 & Hr2 & Hc2).
  unfold u_int_opt, calc_loss_poisson, calc_loss_opt. cbv zeta.
  cbn [mb of_option mbind result_bind].
  rewrite (u_int_follower_ids_sorted _ _ _ Hf), (is_sorted_ids _ Hf).
  cbn [assert mbind result_bind]. rewrite Hr1, Hr2.
  cbn [mbind result_bind]. unfold select_columns. fold follower_ids.
  rewrite !(mapM_column_pos_missing _ follower_ids f Hin);
    [done|rewrite ?Hc1, ?Hc2; intros Hm; apply Hout;
          exact (proj1 (proj2 (sorted_unique_spec _) f) Hm)..].
Qed.

(** X21: on a log sorted by time, with sorted follower ids that all occur
    as sinks of the log, a weight vector of another length than the
    follower-id list makes the utility integral and both losses raise a value
    error. *)
Theorem metrics_weight_length (np_sqrt : Q → float) df (src : Src)
    (end_time s u_const : Q) (sim_opts : SimOpts Src) :
  let follower_ids := so_sink_ids sim_opts in
  let q_vec := so_q_vec sim_opts in
  is_sorted (ev_t <$> df) true = true →
  Sorted le follower_ids →
  follower_ids ⊆ ev_sink_id <$> df → length q_vec ≠ length follower_ids →
  u_int_opt np_sqrt df (Some src) (Some end_time) (Some q_vec) (Some s)
    (Some follower_ids) None = Raise ValueError
  ∧ calc_loss_poisson df u_const (Some src) (Some end_time) (Some q_vec) (Some s)
      (Some follower_ids) None = Raise ValueError
  ∧ calc_loss_opt df sim_opts = Raise ValueError.
Proof.
  intros follower_ids q_vec Hs Hf Hsub Hlen.
  destruct (rank_table_columns df (Some src) Hs) as (r1 & Hr1 & Hc1).
  destruct (rank_table_columns df (Some (so_src_id sim_opts)) Hs) as (r2 & Hr2 & Hc2).
  unfold u_int_opt, calc_loss_poisson, calc_loss_opt. cbv zeta.
  cbn [mb of_option mbind result_bind].
  rewrite (u_int_follower_ids_sorted _ _ _ Hf), (is_sorted_ids _ Hf).
  cbn [assert mbind result_bind]. rewrite Hr1, Hr2.
  cbn [mbind result_bind]. unfold select_columns. fold follower_ids q_vec.
  rewrite !mapM_column_pos
    by (rewrite ?Hc1, ?Hc2; intros c Hc; by apply sorted_unique_spec, Hsub).
  cbn [mbind result_bind of_option]. unfold dot.
  rewrite !decide_False by (rewrite length_fmap; congruence). done.
Qed.

End LossProofs.

Lemma calc_loss_opt_returns_witness :
  ∃ lo, calc_loss_opt scenario
          {| so_src_id := "A"; so_end_time := 6; so_q_vec := [1; 1]%Q; so_s := 1;
             so_sink_ids := [2; 1] |} = Ok lo
    ∧ s_index lo = merge_sort Qle (unique_by Qeq (ev_t <$> scenario))
    ∧ StronglySorted Qlt (s_index lo)
    ∧ length (s_data lo) = length (s_index lo)
    ∧ Forall (fun v : float => ∀ x, v = Some x → 0 <= x)%Q (s_data lo).
Proof.
  apply (calc_loss_opt_returns scenario).
  - reflexivity.
  - apply (bool_decide_unpack _). vm_compute. exact I.
  - reflexivity.
  - repeat constructor; discriminate.
Defined.

Lemma calc_loss_poisson_vs_opt_witness :
  let o := {| so_src_id := "A"; so_end_time := 6; so_q_vec := [1; 1]%Q; so_s := 1;
              so_sink_ids := [1; 2] |} in
  ∃ lo lp, calc_loss_opt scenario o = Ok lo
    ∧ calc_loss_poisson scenario 3 None None None None None (Some o) = Ok lp
    ∧ s_index lp = s_index lo
    ∧ Forall2 (fun a b => feq b (fadd (fmul (Some (1 # 2)) a) (Some (1 * 3 ^ 2 / 2))))%Q
              (s_data lo) (s_data lp).
Proof.
  intros o.
  pose proof (calc_loss_poisson_vs_opt scenario 3 o ltac:(repeat constructor)) as H.
  destruct (calc_loss_opt scenario o) as [lo|] eqn:E; [|vm_compute in E; discriminate E].
  destruct H as (lp & H1 & H2 & H3). exists lo, lp. split; [reflexivity|].
  split; [exact H1|]. split; [exact H2|exact H3].
Defined.

Lemma metrics_missing_follower_witness :
  let o := {| so_src_id := "A"; so_end_time := 6; so_q_vec := [1; 1]%Q; so_s := 1;
              so_sink_ids := [1; 3] |} in
  u_int_opt sqrt_micro scenario (Some "A") (Some 6%Q) (Some [1; 1]%Q) (Some 1%Q)
    (Some [1; 3]) None = Raise KeyError
  ∧ calc_loss_poisson scenario 1 (Some "A") (Some 6%Q) (Some [1; 1]%Q) (Some 1%Q)
      (Some [1; 3]) None = Raise KeyError
  ∧ calc_loss_opt scenario o = Raise KeyError.
Proof.
  intros o. apply (metrics_missing_follower sqrt_micro scenario "A" 6 1 1 [1; 1]%Q 3 o).
  - reflexivity.
  - repeat constructor.
  - repeat constructor.
  - apply (bool_decide_unpack _). vm_compute. exact I.
Defined.

Lemma metrics_weight_length_witness :
  let o := {| so_src_id := "A"; so_end_time := 6; so_q_vec := [1]%Q; so_s := 1;
              so_sink_ids := [1; 2] |} in
  u_int_opt sqrt_micro scenario (Some "A") (Some 6%Q) (Some [1]%Q) (Some 1%Q)
    (Some [1; 2]) None = Raise ValueError
  ∧ calc_loss_poisson scenario 1 (Some "A") (Some 6%Q) (Some [1]%Q) (Some 1%Q)
      (Some [1; 2]) None = Raise ValueError
  ∧ calc_loss_opt scenario o = Raise ValueError.
Proof.
  intros o. apply (metrics_weight_length sqrt_micro scenario "A" 6 1 1 o).
  - reflexivity.
  - repeat constructor.
  - apply (bool_decide_unpack _). vm_compute. exact I.
  - simpl. lia.
Defined.

(** ** Default weights of the Poisson loss *)

Lemma def_q_vec_nonneg (n : nat) : Forall (Qle 0) (def_q_vec n).
Proof.
  unfold def_q_vec. apply Forall_fmap, Forall_forall.
  intros one ->%elem_of_replicate_inv. cbn.
  unfold Qdiv. apply Qmult_le_0_compat; [discriminate|].
  apply Qinv_le_0_compat. unfold Qle, inject_Z. cbn [Qnum Qden]. nia.
Qed.

Lemma length_def_q_vec (n : nat) : length (def_q_vec n) = n.
Proof. unfold def_q_vec. by rewrite length_fmap, length_replicate. Qed.

Section PoissonDefaults.
Context {Src : Type} `{EqDecision Src}.
Implicit Types (df : list (event Src)).

(** X22: without a weight vector and without [sim_opts], the Poisson loss
    uses the default weights for the number of follower ids, which always fit:
    on a log sorted by time, with sorted follower ids that all occur as sinks
    of the log, it returns a series with one value per distinct time, each of
    them NaN or not negative when [s] is not negative; left without [s] as
    well, it raises a type error. *)
Theorem calc_loss_poisson_defaults df (u_const : Q) (src : Src)
    (end_time : option Q) (s : Q) (follower_ids : list nat) :
  is_sorted (ev_t <$> df) true = true →
  Sorted le follower_ids →
  follower_ids ⊆ ev_sink_id <$> df →
  (∃ lp,
     calc_loss_poisson df u_const (Some src) end_time None (Some s)
       (Some follower_ids) None = Ok lp
     ∧ calc_loss_poisson df u_const (Some src) end_time
         (Some (def_q_vec (length follower_ids))) (Some s) (Some follower_ids) None
       = Ok lp
     ∧ s_index lp = merge_sort Qle (unique_by Qeq (ev_t <$> df))
     ∧ length (s_data lp) = length (s_index lp)
     ∧ ((0 <= s)%Q →
        Forall (fun v : float => ∀ x, v = Some x → 0 <= x)%Q (s_data lp)))
  ∧ calc_loss_poisson df u_const (Some src) end_time None None
      (Some follower_ids) None = Raise TypeError.
Proof.
  intros Hs Hf Hsub. unfold calc_loss_poisson. cbv zeta.
  cbn [mb of_option mbind result_bind].
  rewrite (is_sorted_ids _ Hf). cbn [assert mbind result_bind].
  destruct (rank_of_src_in_df df (Some src) true true) as [r_t|] eqn:Hr.
  2:{ unfold rank_of_src_in_df, with_rank in Hr. by rewrite Hs in Hr. }
  destruct (rank_of_src_in_df_shape _ _ _ _ _ Hr) as (Hcols & Hidx & Hrows).
  cbn [mbind result_bind].
  destruct (squared_ranks_dot r_t follower_ids (def_q_vec (length follower_ids)))
    as (sel & q_t & -> & Hdot & Hlq & Hpos);
    [rewrite Hcols; intros c Hc; by apply sorted_unique_spec, Hsub
    |apply length_def_q_vec|].
  cbn [mbind result_bind]. rewrite Hdot. cbn [mbind result_bind]. split; [|done].
  eexists. split; [done|]. split; [done|]. cbn [s_index s_data].
  split_and!; [done| |].
  - rewrite length_zip_with, !length_fmap, length_replicate. lia.
  - intros Hs0. specialize (Hpos (def_q_vec_nonneg _)). apply Forall_lookup.
    intros i v (a & b & -> & Ha & Hb)%lookup_zip_with_Some x Hx.
    apply list_lookup_fmap_Some in Ha as (a0 & -> & Ha0).
    apply list_lookup_fmap_Some in Hb as (b0 & -> & Hb0).
    apply list_lookup_fmap_Some in Hb0 as (one & -> & Hone).
    apply list_elem_of_lookup_2, elem_of_replicate_inv in Hone as ->.
    eapply Forall_lookup_1 in Ha0; [|exact Hpos].
    destruct a0 as [av|]; simplify_eq/=. specialize (Ha0 av eq_refl).
    assert (u_const ^ 2 == u_const * u_const)%Q as Hu by (simpl; ring).
    assert (0 <= u_const ^ 2)%Q by (rewrite Hu; nra).
    set (u2 := (u_const ^ 2)%Q) in *. clearbody u2. nra.
Qed.

End PoissonDefaults.

Lemma calc_loss_poisson_defaults_witness :
  (∃ lp,
     calc_loss_poisson scenario 1 (Some "A") None None (Some 1%Q) (Some [1; 2]) None
     = Ok lp
     ∧ calc_loss_poisson scenario 1 (Some "A") None (Some (def_q_vec (length [1; 2])))
         (Some 1%Q) (Some [1; 2]) None = Ok lp
     ∧ s_index lp = merge_sort Qle (unique_by Qeq (ev_t <$> scenario))
     ∧ length (s_data lp) = length (s_index lp)
     ∧ ((0 <= 1)%Q →
        Forall (fun v : float => ∀ x, v = Some x → 0 <= x)%Q (s_data lp)))
  ∧ calc_loss_poisson scenario 1 (Some "A") None None None (Some [1; 2]) None
    = Raise TypeError.
Proof.
  apply (calc_loss_poisson_defaults scenario 1 "A" None 1 [1; 2]).
  - reflexivity.
  - repeat constructor.
  - apply (bool_decide_unpack _). vm_compute. exact I.
Defined.

(** ** A log that is not sorted by time *)

(** X23: when some row of the log is earlier than the row before it, the
    rank tracker and every metric computed from its table raise the assertion
    error on the order of the log, whatever the other arguments. *)
Theorem metrics_reject_unsorted {Src} `{EqDecision Src} (np_sqrt : Q → float)
    (df : list (event Src)) (i : nat) (e1 e2 : event Src)
    (K u_const : Q) (src_id : option Src) (end_time : option Q)
    (q_vec : option (list Q)) (s : option Q) (fill with_time : bool)
    (sim_opts : option (SimOpts Src)) (follower_ids : list nat) (o : SimOpts Src) :
  df !! i = Some e1 → df !! S i = Some e2 → (ev_t e2 < ev_t e1)%Q →
  Sorted le follower_ids →
  rank_of_src_in_df df src_id fill with_time
  = Raise (AssertionError "Array not sorted by time.")
  ∧ u_int_opt np_sqrt df src_id end_time q_vec s None None
    = Raise (AssertionError "Array not sorted by time.")
  ∧ u_int_opt np_sqrt df src_id end_time q_vec s (Some follower_ids) sim_opts
    = Raise (AssertionError "Array not sorted by time.")
  ∧ time_in_top_k df K src_id end_time sim_opts
    = Raise (AssertionError "Array not sorted by time.")
  ∧ average_rank df src_id end_time sim_opts
    = Raise (AssertionError "Array not sorted by time.")
  ∧ calc_loss_poisson df u_const src_id end_time q_vec s (Some follower_ids) sim_opts
    = Raise (AssertionError "Array not sorted by time.")
  ∧ calc_loss_opt df o = Raise (AssertionError "Array not sorted by time.").
Proof.
  intros H1 H2 Hlt Hf.
  assert (∀ src fill with_time,
            rank_of_src_in_df df src fill with_time
            = Raise (AssertionError "Array not sorted by time.")) as Hr.
  { intros src fl wt. unfold rank_of_src_in_df, with_rank.
    rewrite (is_sorted_inversion (ev_t <$> df) i (ev_t e1) (ev_t e2));
      [done|by rewrite list_lookup_fmap, ?H1, ?H2..|done]. }
  unfold u_int_opt, time_in_top_k, average_rank, calc_loss_poisson, calc_loss_opt.
  cbv zeta. split_and!; [apply Hr|..].
  - cbn [u_int_follower_ids mbind result_bind]. by rewrite Hr.
  - destruct sim_opts; cbn [mb]; rewrite (u_int_follower_ids_sorted _ _ _ Hf);
      cbn [mbind result_bind]; by rewrite Hr.
  - by rewrite Hr.
  - by rewrite Hr.
  - destruct sim_opts; cbn [mb of_option mbind result_bind];
      rewrite (is_sorted_ids _ Hf); cbn [assert mbind result_bind];
      by rewrite Hr.
  - by rewrite Hr.
Qed.

Lemma metrics_reject_unsorted_witness :
  let df := [Event 1 2 "C" 1; Event 2 1 "A" 1]%Q in
  rank_of_src_in_df df (Some "A") true true
  = Raise (AssertionError "Array not sorted by time.")
  ∧ u_int_opt sqrt_micro df (Some "A") (Some 3%Q) (Some [1%Q]) (Some 1%Q) None None
    = Raise (AssertionError "Array not sorted by time.")
  ∧ u_int_opt sqrt_micro df (Some "A") (Some 3%Q) (Some [1%Q]) (Some 1%Q) (Some [1]) None
    = Raise (AssertionError "Array not sorted by time.")
  ∧ time_in_top_k df 1 (Some "A") (Some 3%Q) None
    = Raise (AssertionError "Array not sorted by time.")
  ∧ average_rank df (Some "A") (Some 3%Q) None
    = Raise (AssertionError "Array not sorted by time.")
  ∧ calc_loss_poisson df 1 (Some "A") (Some 3%Q) (Some [1%Q]) (Some 1%Q) (Some [1]) None
    = Raise (AssertionError "Array not sorted by time.")
  ∧ calc_loss_opt df calm_opts = Raise (AssertionError "Array not sorted by time.").
Proof.
  intros df.
  apply (metrics_reject_unsorted sqrt_micro df 0 (Event 1 2 "C" 1) (Event 2 1 "A" 1)
           1 1 (Some "A") (Some 3%Q) (Some [1%Q]) (Some 1%Q) true true None [1] calm_opts).
  - reflexivity.
  - reflexivity.
  - reflexivity.
  - repeat constructor.
Defined.

(** ** LaTeX figure size *)

Section LatexifyProofs.
Variable np_sqrt : Q → float.
Variable RcParams : Type.
Variable rc_update : list (string * rc_value) → RcParams → result RcParams.

(** X24: a figure height above 8 inches, given or derived from the width by
    the golden mean, is never reduced to 8 inches: building the warning adds
    a float to a string, so that the call raises a type error before any
    parameter is set. *)
Theorem latexify_tall_figure (fig_width fig_height : option float) (columns : Z)
    (largeFonts : bool) (rc : RcParams) (w h : Q) :
  columns = 1%Z ∨ columns = 2%Z →
  (8 < h)%Q →
  fig_height = Some (Some h)
  ∨ (fig_height = None ∧ fig_width = Some (Some w)
     ∧ ∃ r, np_sqrt 5 = Some r ∧ (h == w * ((r - 1) / 2))%Q) →
  latexify np_sqrt RcParams rc_update fig_width fig_height columns largeFonts rc
  = Raise TypeError.
Proof.
  intros Hc Hh Hcase. unfold latexify.
  rewrite bool_decide_eq_true_2 by (destruct Hc as [->| ->]; repeat constructor).
  cbn [assert mbind result_bind]. cbv zeta.
  destruct Hcase as [->|(-> & -> & r & -> & Heq)].
  - cbn [fgt]. rewrite bool_decide_eq_true_2 by (change 8.0%Q with (80 # 10); lra).
    done.
  - cbn [fmap option_fmap option_map fmul fgt].
    rewrite bool_decide_eq_true_2; [done|].
    assert (w * ((r - 1.0) / 2.0) == h)%Q as -> by (rewrite Heq; field).
    change 8.0%Q with (80 # 10). lra.
Qed.

(** X25: when [latexify] succeeds, the parameters were set twice to one
    and the same dictionary, whose figure size is the width (3.39 for one
    column and 6.9 for two when none is given) and a height that is at most 8
    inches or NaN, and whose font sizes are 10 with [largeFonts] and 7
    without. *)
Theorem latexify_sets_figsize (fig_width fig_height : option float) (columns : Z)
    (largeFonts : bool) (rc rc' : RcParams) :
  latexify np_sqrt RcParams rc_update fig_width fig_height columns largeFonts rc
  = Ok rc' →
  ∃ (w h : float) rc1,
    (columns = 1%Z ∨ columns = 2%Z)
    ∧ w = default (Some (if decide (columns = 1%Z) then 3.39 else 6.9)%Q) fig_width
    ∧ (∀ x, h = Some x → x <= 8)%Q
    ∧ (fig_height = None →
       h = fmul w ((fun r => (r - 1.0) / 2.0)%Q <$> np_sqrt 5))
    ∧ (∀ x, fig_height = Some x → h = x)
    ∧ rc_update (latex_params w h largeFonts) rc = Ok rc1
    ∧ rc_update (latex_params w h largeFonts) rc1 = Ok rc'
    ∧ (("figure.figsize", RcFloats [w; h]) ∈ latex_params w h largeFonts)
    ∧ (("font.size", RcInt (if largeFonts then 10 else 7))
       ∈ latex_params w h largeFonts).
Proof.
  unfold latexify. case_bool_decide as Hc; [|done].
  cbn [assert mbind result_bind]. cbv zeta.
  set (w := match fig_width with Some w => w | None => _ end).
  set (h := match fig_height with Some h => h | None => _ end).
  destruct (fgt h 8.0) eqn:Hgt; [done|]. cbn [mbind result_bind].
  destruct (rc_update _ rc) as [rc1|] eqn:H1; [|done]. cbn [mbind result_bind].
  intros H2. exists w, h, rc1. split_and!.
  - apply elem_of_cons in Hc as [?|Hc]; [by left|].
    apply list_elem_of_singleton in Hc. by right.
  - by destruct fig_width.
  - intros x ->. cbn in Hgt. apply bool_decide_eq_false in Hgt.
    change 8.0%Q with (80 # 10) in Hgt. lra.
  - by intros ->.
  - by intros x ->.
  - done.
  - done.
  - unfold latex_params. repeat constructor.
  - unfold latex_params. repeat constructor.
Qed.

End LatexifyProofs.


Lemma latexify_tall_figure_witness :
  latexify sqrt_micro _ rc_store_update None (Some (Some 9%Q)) 1 false []
  = Raise TypeError
  ∧ latexify sqrt_micro _ rc_store_update (Some (Some 13%Q)) None 2 false []
    = Raise TypeError.
Proof.
  split.
  - apply (latexify_tall_figure sqrt_micro _ rc_store_update None (Some (Some 9%Q)) 1
             false [] 0 9); [by left|reflexivity|by left].
  - apply (latexify_tall_figure sqrt_micro _ rc_store_update (Some (Some 13%Q)) None 2
             false [] 13 (13 * ((2236067 # 1000000) - 1) / 2));
      [by right|reflexivity|].
    right. split_and!; [done..|]. eexists. split; [vm_compute; reflexivity|].
    vm_compute. reflexivity.
Defined.

Lemma latexify_sets_figsize_witness :
  ∃ rc' (w h : float) rc1,
    latexify sqrt_micro _ rc_store_update None None 1 true [] = Ok rc'
    ∧ w = Some 3.39%Q
    ∧ (∀ x, h = Some x → x <= 8)%Q
    ∧ h = fmul w ((fun r => (r - 1.0) / 2.0)%Q <$> sqrt_micro 5)
    ∧ rc_store_update (latex_params w h true) [] = Ok rc1
    ∧ rc_store_update (latex_params w h true) rc1 = Ok rc'
    ∧ (("figure.figsize", RcFloats [w; h]) ∈ latex_params w h true)
    ∧ (("font.size", RcInt 10) ∈ latex_params w h true).
Proof.
  destruct (latexify sqrt_micro _ rc_store_update None None 1 true []) as [rc'|] eqn:E;
    [|vm_compute in E; discriminate E].
  destruct (latexify_sets_figsize sqrt_micro _ rc_store_update None None 1 true [] rc' E)
    as (w & h & rc1 & _ & Hw & Hh & Hdef & _ & H1 & H2 & Hfig & Hfont).
  exists rc', w, h, rc1. split; [reflexivity|].
  split; [exact Hw|]. split; [exact Hh|]. split; [exact (Hdef eq_refl)|].
  split; [exact H1|]. split; [exact H2|]. split; [exact Hfig|exact Hfont].
Defined.

(** ** Sweeping s: where the search ends *)

Lemma Qhalf10_eq (x : Q) : (x / 2.0 == x * (1 # 2))%Q.
Proof. field. Qed.

Lemma Qdouble10_eq (x : Q) : (x * 2.0 == x * 2)%Q.
Proof. ring. Qed.

(** Linear arithmetic with the halves and doubles of the sweep. *)
Ltac lra_sweep :=
  repeat match goal with
         | |- context [(?x / 2.0)%Q] =>
             let h := fresh "h" in
             pose proof (Qhalf10_eq x); set (h := (x / 2.0)%Q) in *; clearbody h
         | _ : context [(?x / 2.0)%Q] |- _ =>
             let h := fresh "h" in
             pose proof (Qhalf10_eq x); set (h := (x / 2.0)%Q) in *; clearbody h
         | |- context [(?x * 2.0)%Q] =>
             let h := fresh "h" in
             pose proof (Qdouble10_eq x); set (h := (x * 2.0)%Q) in *; clearbody h
         | _ : context [(?x * 2.0)%Q] |- _ =>
             let h := fresh "h" in
             pose proof (Qdouble10_eq x); set (h := (x * 2.0)%Q) in *; clearbody h
         end;
  lra.

Section SweepProofs.
Variable World : Type.
Variable mean_capacity : Q → World → result (float * World).
Variables (capacity_cap tol : Q).

Local Abbreviation halve := (sweep_halve World mean_capacity capacity_cap).
Local Abbreviation double := (sweep_double World mean_capacity capacity_cap).
Local Abbreviation bisect_s := (sweep_bisect World mean_capacity capacity_cap tol).

Lemma sweep_halve_bounds fuel : ∀ s world s_hi s_lo world',
  halve fuel s world = Returns (s_hi, s_lo) world' →
  (0 < s)%Q → (0 < s_lo)%Q ∧ (s_lo < s_hi)%Q ∧ (s_hi <= s)%Q.
Proof.
  induction fuel as [|fuel IH]; intros s world s_hi s_lo world'; simpl; [done|].
  destruct (mean_capacity _ world) as [[c w1]|]; [|done].
  destruct (fgt c capacity_cap).
  - intros [= <- <- <-] Hs. lra_sweep.
  - intros Hrun Hs.
    assert (0 < s / 2.0)%Q as Hh by lra_sweep.
    destruct (IH _ _ _ _ _ Hrun Hh) as (? & ? & ?). split_and!; [done..|]. lra_sweep.
Qed.

Lemma sweep_double_bounds fuel : ∀ s world s_hi s_lo world',
  double fuel s world = Returns (s_hi, s_lo) world' →
  (0 < s)%Q → (s <= s_lo)%Q ∧ (s_lo < s_hi)%Q.
Proof.
  induction fuel as [|fuel IH]; intros s world s_hi s_lo world'; simpl; [done|].
  destruct (mean_capacity _ world) as [[c w1]|]; [|done].
  destruct (flt c capacity_cap).
  - intros [= <- <- <-] Hs. lra_sweep.
  - intros Hrun Hs.
    assert (0 < s * 2.0)%Q as Hh by lra_sweep.
    destruct (IH _ _ _ _ _ Hrun Hh) as (? & ?). split; lra_sweep.
Qed.

Lemma sweep_bisect_returns fuel : ∀ s_hi s_lo world s world',
  bisect_s fuel s_hi s_lo world = Returns s world' →
  (∃ world0 c, mean_capacity s world0 = Ok (Some c, world')
     ∧ ¬ (capacity_cap == 0)%Q
     ∧ (Qabs (c - capacity_cap) / capacity_cap < tol)%Q)
  ∧ ((s_lo < s_hi)%Q → (s_lo < s)%Q ∧ (s < s_hi)%Q).
Proof.
  induction fuel as [|fuel IH]; intros s_hi s_lo world s world'; simpl; [done|].
  destruct (mean_capacity _ world) as [[c w1]|] eqn:Hcap; [|done].
  destruct (converged capacity_cap tol c) eqn:Hconv.
  - intros [= <- <-]. split.
    + unfold converged in Hconv. destruct c as [c|]; [|done].
      destruct (Qeq_bool capacity_cap 0) eqn:E; [done|].
      exists world, c. split_and!; [done| |by apply bool_decide_eq_true in Hconv].
      by apply Qeq_bool_neq.
    + intros Hlt. lra_sweep.
  - destruct (fgt c capacity_cap); intros Hrun;
      destruct (IH _ _ _ _ _ Hrun) as [Hc Hb]; (split; [done|]);
      intros Hlt; (destruct Hb; [lra_sweep|]); lra_sweep.
Qed.

(** X26: when [sweep_s] returns [s], the last capacity it measured was
    measured at [s], it is not NaN, the cap is not 0, and the relative
    distance of that capacity to the cap is below the tolerance. *)
Theorem sweep_s_converged (fuel : nat) (s_init : Q) (world : World) (s : Q)
    (world' : World) :
  sweep_s World mean_capacity capacity_cap tol fuel s_init world = Returns s world' →
  ∃ world0 c, mean_capacity s world0 = Ok (Some c, world')
    ∧ ¬ (capacity_cap == 0)%Q
    ∧ (Qabs (c - capacity_cap) / capacity_cap < tol)%Q.
Proof.
  unfold sweep_s.
  destruct (mean_capacity s_init world) as [[init_cap w1]|]; [|done]. cbv zeta.
  destruct (if flt init_cap capacity_cap then _ else _) as [[s_hi s_lo] w2| |];
    [|done..].
  intros Hrun. by apply sweep_bisect_returns in Hrun as [? _].
Qed.

(** X27: started from a positive [s_init], [sweep_s] never returns a
    negative [s]: it returns one that is at most [s_init] when the capacity at
    [s_init] is below the cap, and one that is at least [s_init] otherwise,
    also when that capacity is NaN. *)
Theorem sweep_s_direction (fuel : nat) (s_init : Q) (world : World) (s : Q)
    (world' : World) :
  (0 < s_init)%Q →
  sweep_s World mean_capacity capacity_cap tol fuel s_init world = Returns s world' →
  ∃ init_cap world1,
    mean_capacity s_init world = Ok (init_cap, world1)
    ∧ (0 <= s)%Q
    ∧ (flt init_cap capacity_cap = true → (s <= s_init)%Q)
    ∧ (flt init_cap capacity_cap = false → (s_init <= s)%Q).
Proof.
  intros Hs. unfold sweep_s.
  destruct (mean_capacity s_init world) as [[init_cap w1]|]; [|done]. cbv zeta.
  intros Hrun. exists init_cap, w1. split; [done|]. revert Hrun.
  destruct (flt init_cap capacity_cap).
  - destruct (halve fuel s_init w1) as [[s_hi s_lo] w2| |] eqn:Hb; [|done..].
    intros Hrun. apply sweep_halve_bounds in Hb as (? & ? & ?); [|done].
    apply sweep_bisect_returns in Hrun as [_ Hin]. destruct Hin; [done|].
    split_and!; [lra|intros; lra|done].
  - destruct (double fuel s_init w1) as [[s_hi s_lo] w2| |] eqn:Hb; [|done..].
    intros Hrun. apply sweep_double_bounds in Hb as (? & ?); [|done].
    apply sweep_bisect_returns in Hrun as [_ Hin]. destruct Hin; [done|].
    split_and!; [lra|done|intros; lra].
Qed.

(** X28: when no capacity is ever below the cap, for instance because the
    capacities are NaN, [sweep_s] returns nothing and raises nothing, however
    many iterations it is given: the loop that doubles [s] does not end. *)
Theorem sweep_s_never_below (fuel : nat) (s_init : Q) (world : World) :
  (∀ s w, ∃ c w', mean_capacity s w = Ok (c, w') ∧ flt c capacity_cap = false) →
  sweep_s World mean_capacity capacity_cap tol fuel s_init world = OutOfFuel.
Proof.
  intros Hcap. unfold sweep_s.
  destruct (Hcap s_init world) as (c & w1 & -> & ->). cbv zeta.
  assert (∀ s w, double fuel s w = OutOfFuel) as ->; [|done].
  induction fuel as [|fuel IH]; intros s w; simpl; [done|].
  destruct (Hcap (s * 2.0)%Q w) as (c' & w' & -> & ->). apply IH.
Qed.

End SweepProofs.

Lemma sweep_s_converged_witness :
  ∃ s world0 c,
    sweep_s unit inverse_capacity 2 0.1 8 1 tt = Returns s tt
    ∧ inverse_capacity s world0 = Ok (Some c, tt)
    ∧ ¬ (2 == 0)%Q
    ∧ (Qabs (c - 2) / 2 < 0.1)%Q.
Proof.
  destruct (sweep_s unit inverse_capacity 2 0.1 8 1 tt) as [s []| |] eqn:E;
    [|vm_compute in E; discriminate E..].
  destruct (sweep_s_converged unit inverse_capacity 2 0.1 8 1 tt s tt E)
    as (world0 & c & H).
  exists s, world0, c. split; [reflexivity|exact H].
Defined.

Lemma sweep_s_direction_witness :
  ∃ s init_cap world1,
    sweep_s unit inverse_capacity 2 0.1 8 1 tt = Returns s tt
    ∧ inverse_capacity 1 tt = Ok (init_cap, world1)
    ∧ (0 <= s)%Q
    ∧ (flt init_cap 2 = true → (s <= 1)%Q)
    ∧ (flt init_cap 2 = false → (1 <= s)%Q).
Proof.
  destruct (sweep_s unit inverse_capacity 2 0.1 8 1 tt) as [s []| |] eqn:E;
    [|vm_compute in E; discriminate E..].
  destruct (sweep_s_direction unit inverse_capacity 2 0.1 8 1 tt s tt eq_refl E)
    as (init_cap & world1 & H).
  exists s, init_cap, world1. split; [reflexivity|exact H].
Defined.

Lemma sweep_s_never_below_witness :
  sweep_s unit nan_capacity 2 0.1 1000 1 tt = OutOfFuel.
Proof.
  apply (sweep_s_never_below unit nan_capacity 2 0.1 1000 1 tt).
  intros s w. exists None, w. split; reflexivity.
Defined.

(** ** Integers in the sortedness check *)

(** X29: on an array of unsigned integers the ascending check never fails,
    whatever the order of the elements: a difference that would be negative
    wraps around to a positive number.  The descending check accepts such an
    array only when all its elements are equal. *)
Theorem is_sorted_unsigned (bits : Z) (x : list Z) :
  (0 ≤ bits)%Z →
  Forall (fun a => 0 ≤ a < 2 ^ bits)%Z x →
  is_sorted_int (Unsigned bits) x true = true
  ∧ (is_sorted_int (Unsigned bits) x false = true
     ↔ ∀ i a b, x !! i = Some a → x !! S i = Some b → a = b).
Proof.
  intros Hbits Hx. rewrite !is_sorted_int_lookup. split.
  - intros i a b _ _. by apply wrap_Unsigned_nonneg.
  - assert (0 < 2 ^ bits)%Z as Hpos by (by apply Z.pow_pos_nonneg).
    rewrite Forall_forall in Hx. split.
    + intros Hall i a b Ha Hb. specialize (Hall i a b Ha Hb).
      pose proof (wrap_Unsigned_nonneg bits (b - a) Hbits) as Hge.
      pose proof (Hx a (list_elem_of_lookup_2 _ _ _ Ha)).
      pose proof (Hx b (list_elem_of_lookup_2 _ _ _ Hb)).
      unfold wrap in *.
      destruct (decide (a ≤ b)%Z).
      * rewrite Z.mod_small in Hall by lia. lia.
      * rewrite <- (Z_mod_plus_full _ 1), Z.mod_small in Hall by lia. lia.
    + intros Hall i a b Ha Hb. rewrite (Hall i a b Ha Hb), Z.sub_diag.
      unfold wrap. by rewrite Z.mod_0_l by lia.
Qed.

Lemma is_sorted_unsigned_witness :
  is_sorted_int uint8 [2; 1]%Z true = true
  ∧ (is_sorted_int uint8 [2; 1]%Z false = true
     ↔ ∀ i a b, [2; 1]%Z !! i = Some a → [2; 1]%Z !! S i = Some b → a = b).
Proof.
  apply (is_sorted_unsigned 8 [2; 1]%Z); [lia|].
  repeat constructor; lia.
Defined.
